(** * Recording-to-output pipeline of the voice dictation utility

    A shallow embedding of the hotkey state machine
    ([core/input_manager.py]), the audio buffer and its WAV export
    ([core/audio_capture.py]), the Gemini formatter with its retry, backoff
    and fallback algorithm ([llm/gemini_formatter.py]), the orchestrator
    with its preview thread ([main.py]) and the settings
    ([utils/settings.py]), followed by the properties that the
    specification states about them and by further properties of the code.

    Conventions.
    - Python [float] values (clock readings, delays, durations) are exact
      rationals [Q]; rounding is not modelled.
    - Python [str] values are [string]s, the characters being code points
      below 256; [bytes] values are lists of [Byte.byte].
    - The state of an object is a record that is passed explicitly; the
      calls to callbacks and collaborators are kept in logs, in the order
      in which they happen.
    - An exception is a value of an [outcome]; [print] is not modelled.
      [time.sleep] raises for a delay that is negative or longer than the
      platform takes, and returns for the others.
    - A callback of the keyboard hook runs from start to end without
      another thread in between, and so does a processing thread; the
      preview thread meets the writes of the other threads to the field
      that it shares with them. *)

From Stdlib Require Import ZArith QArith String Ascii Bool List Lia Lqa.
Import ListNotations.

(* ================================================================== *)
(** * core/input_manager.py *)
(* ================================================================== *)

Module InputManager.

Local Open Scope Q_scope.

(** [class RecordingState(Enum)] *)
Inductive RecordingState : Set :=
| IDLE
| RECORDING_PTT
| RECORDING_HF.

(** [keyboard.KeyboardEvent.event_type] is one of [keyboard.KEY_DOWN]
    (the string "down") and [keyboard.KEY_UP] ("up"). *)
Inductive event_type : Set :=
| down
| up.

(** The two callbacks handed to the constructor. *)
Inductive callback : Set :=
| on_recording_start
| on_recording_stop.

(** The fields of [InputManager] that the event handlers read or write. *)
Record t : Set := mk {
  _state : RecordingState;
  _last_hf_time : Q
}.

(** [__init__]: [_state = IDLE], [_last_hf_time = 0.0]. *)
Definition init : t := mk IDLE 0.

(** [is_recording] property. *)
Definition is_recording (self : t) : bool :=
  match _state self with IDLE => false | _ => true end.

(** [_on_ptt_event]: the new object and the callbacks fired, in order. *)
Definition _on_ptt_event (event : event_type) (self : t) : t * list callback :=
  match event with
  | down =>
      match _state self with
      | IDLE => (mk RECORDING_PTT (_last_hf_time self), [on_recording_start])
      | _ => (self, [])
      end
  | up =>
      match _state self with
      | RECORDING_PTT => (mk IDLE (_last_hf_time self), [on_recording_stop])
      | _ => (self, [])
      end
  end.

(** [_on_hf_event]; [now] is the value [time.time()] returns in the call. *)
Definition _on_hf_event (now : Q) (event : event_type) (self : t)
  : t * list callback :=
  match event with
  | up => (self, [])
  | down =>
      if Qlt_le_dec (now - _last_hf_time self) (3 # 10) then (self, [])
      else
        match _state self with
        | IDLE => (mk RECORDING_HF now, [on_recording_start])
        | RECORDING_HF => (mk IDLE now, [on_recording_stop])
        | RECORDING_PTT => (mk RECORDING_PTT now, [])
        end
  end.

(** What the keyboard hook delivers: an event of the push-to-talk key, or an
    event of the hands-free key together with the clock reading of its
    handler. *)
Inductive delivery : Set :=
| PTT (event : event_type)
| HF (now : Q) (event : event_type).

Definition handle (d : delivery) (self : t) : t * list callback :=
  match d with
  | PTT e => _on_ptt_event e self
  | HF now e => _on_hf_event now e self
  end.

(** The hook thread handles deliveries one after the other. *)
Fixpoint deliver_all (ds : list delivery) (self : t) : t * list callback :=
  match ds with
  | [] => (self, [])
  | d :: ds' =>
      let (self1, out1) := handle d self in
      let (self2, out2) := deliver_all ds' self1 in
      (self2, out1 ++ out2)
  end.

(** What an observer of the machine sees: its recording state and the
    callbacks it fired. *)
Definition observe (r : t * list callback) : RecordingState * list callback :=
  (_state (fst r), snd r).

End InputManager.

(* ================================================================== *)
(** * Python values shared by the modules below *)
(* ================================================================== *)

(** An exception raised by a call.  [except Exception] catches the first
    kind only; [KeyboardInterrupt], [SystemExit] and the like derive from
    [BaseException] directly. *)
Inductive exn : Set :=
| Exception (message : string)
| BaseException (message : string).

(** What a call that may raise comes back with. *)
Inductive outcome (A : Type) : Type :=
| Returns (value : A)
| Raises (error : exn).

Arguments Returns {A} value.
Arguments Raises {A} error.

(* ================================================================== *)
(** * core/audio_capture.py *)
(* ================================================================== *)

Module AudioCapture.

Local Open Scope Z_scope.

Definition byte := Byte.byte.

(** The byte with value [z mod 256]. *)
Definition byte_of_Z (z : Z) : byte :=
  match Byte.of_N (Z.to_N (z mod 256)) with
  | Some b => b
  | None => Byte.x00
  end.

Definition Z_of_byte (b : byte) : Z := Z.of_N (Byte.to_N b).

(** The [width] low bytes of [v], least significant first: the byte layout
    of [struct.pack] with a ["<"] format, and of a little-endian numpy
    integer (two's complement for a negative [v]). *)
Fixpoint pack_le (width : nat) (v : Z) : list byte :=
  match width with
  | O => []
  | S w => byte_of_Z v :: pack_le w (v / 256)
  end.

Fixpoint unpack_le (bs : list byte) : Z :=
  match bs with
  | [] => 0
  | b :: bs' => Z_of_byte b + 256 * unpack_le bs'
  end.

(** [struct.pack("<L", v)] and [struct.pack("<H", v)] raise [struct.error]
    for a value outside the unsigned range of the format. *)
Definition struct_pack (width : nat) (v : Z) : option (list byte) :=
  if (0 <=? v) && (v <? 256 ^ Z.of_nat width)
  then Some (pack_le width v) else None.

(** A block that [sounddevice] hands to the callback: an array of dtype
    [int16] and shape [(frames, channels)], as its rows. *)
Definition ndarray := list (list Z).

Definition int16 (s : Z) : Prop := -32768 <= s < 32768.

(** [shape[1] == channels] for a block. *)
Definition has_channels (channels : Z) (a : ndarray) : Prop :=
  Forall (fun row => Z.of_nat (length row) = channels) a.

(** [a.flatten()] (row-major order). *)
Definition flatten (a : ndarray) : list Z := concat a.

(** [a.tobytes()] for a one-dimensional [int16] array. *)
Definition tobytes (samples : list Z) : list byte :=
  flat_map (pack_le 2) samples.

(** The bytes of one block, [indata.flatten().tobytes()]. *)
Definition block_bytes (a : ndarray) : list byte := tobytes (flatten a).

(** [numpy.frombuffer(bs, dtype="<i2")]: the samples that a run of bytes
    holds, two bytes each, read as signed. *)
Definition to_signed16 (u : Z) : Z := if u <? 32768 then u else u - 65536.

Fixpoint frombuffer (bs : list byte) : list Z :=
  match bs with
  | b0 :: b1 :: rest => to_signed16 (unpack_le [b0; b1]) :: frombuffer rest
  | _ => []
  end.

(** The fields of [AudioCapture] (the stream handle and the lock hold no
    data of the recording). *)
Record t : Type := mk {
  sample_rate : Z;
  channels : Z;
  is_recording : bool;
  _frames : list ndarray
}.

(** [__init__(sample_rate=16000, channels=1)] *)
Definition init (sample_rate channels : Z) : t :=
  mk sample_rate channels false [].

Definition start (self : t) : t :=
  mk (sample_rate self) (channels self) true [].

Definition stop (self : t) : t :=
  mk (sample_rate self) (channels self) false (_frames self).

(** [_audio_callback]: [self._frames.append(indata.copy())] while
    recording. *)
Definition _audio_callback (indata : ndarray) (self : t) : t :=
  if is_recording self
  then mk (sample_rate self) (channels self) true (_frames self ++ [indata])
  else self.

(** ** The file that [wave.open(buf, "wb")] produces

    [Wave_write] of Python's [wave] module, for the calls [_to_wav] makes:
    [setnchannels], [setsampwidth(2)], [setframerate], one [writeframes] and
    the [close] of the [with] block. *)
Module wave.

Definition RIFF : list byte := [Byte.x52; Byte.x49; Byte.x46; Byte.x46].
Definition WAVE : list byte := [Byte.x57; Byte.x41; Byte.x56; Byte.x45].
Definition fmt_ : list byte := [Byte.x66; Byte.x6d; Byte.x74; Byte.x20].
Definition data_ : list byte := [Byte.x64; Byte.x61; Byte.x74; Byte.x61].

Definition WAVE_FORMAT_PCM : Z := 1.

(** The option monad threads [struct.error]. *)
Definition bind {A B} (m : option A) (k : A -> option B) : option B :=
  match m with Some a => k a | None => None end.

Notation "x <- m ;; k" := (bind m (fun x => k))
  (at level 61, m at next level, right associativity).

(** [_write_header] followed by the frames; [_patchheader] has brought both
    length fields to the number of bytes written. *)
Definition file (nchannels sampwidth framerate : Z) (data : list byte)
  : option (list byte) :=
  let datawritten := Z.of_nat (length data) in
  form_length <- struct_pack 4 (36 + datawritten) ;;
  fmt_length <- struct_pack 4 16 ;;
  format_tag <- struct_pack 2 WAVE_FORMAT_PCM ;;
  f_nchannels <- struct_pack 2 nchannels ;;
  f_framerate <- struct_pack 4 framerate ;;
  f_byterate <- struct_pack 4 (nchannels * framerate * sampwidth) ;;
  f_blockalign <- struct_pack 2 (nchannels * sampwidth) ;;
  f_bits <- struct_pack 2 (sampwidth * 8) ;;
  data_length <- struct_pack 4 datawritten ;;
  Some (RIFF ++ form_length ++ WAVE ++ fmt_ ++ fmt_length ++ format_tag
        ++ f_nchannels ++ f_framerate ++ f_byterate ++ f_blockalign
        ++ f_bits ++ data_ ++ data_length ++ data).

(** [setnchannels] raises [wave.Error] for [nchannels < 1], [setframerate]
    for [framerate <= 0]. *)
Definition write (nchannels sampwidth framerate : Z) (data : list byte)
  : option (list byte) :=
  if (nchannels <? 1) || (framerate <=? 0) then None
  else file nchannels sampwidth framerate data.

(** *** Reading a file back

    A reader of canonical PCM files, in the manner of [Wave_read]: the RIFF
    form, one 16-byte [fmt ] chunk of format PCM, one [data] chunk that
    runs to the end of the file and holds whole sample frames. *)
Record params : Set := mk_params {
  nchannels : Z;
  sampwidth : Z;
  framerate : Z
}.

Definition take (n : nat) (bs : list byte) : option (list byte * list byte) :=
  if (n <=? length bs)%nat then Some (firstn n bs, skipn n bs) else None.

Definition uint (n : nat) (bs : list byte) : option (Z * list byte) :=
  r <- take n bs ;; Some (unpack_le (fst r), snd r).

Definition tag (name : list byte) (bs : list byte) : option (list byte) :=
  r <- take (length name) bs ;;
  if list_eq_dec Byte.byte_eq_dec (fst r) name then Some (snd r) else None.

Definition guard (b : bool) : option unit := if b then Some tt else None.

Definition read (bs : list byte) : option (params * list byte) :=
  bs <- tag RIFF bs ;;
  r <- uint 4 bs ;; let (form_length, bs) := r : Z * list byte in
  _ <- guard (form_length =? Z.of_nat (length bs)) ;;
  bs <- tag WAVE bs ;;
  bs <- tag fmt_ bs ;;
  r <- uint 4 bs ;; let (fmt_length, bs) := r : Z * list byte in
  _ <- guard (fmt_length =? 16) ;;
  r <- uint 2 bs ;; let (format_tag, bs) := r : Z * list byte in
  _ <- guard (format_tag =? WAVE_FORMAT_PCM) ;;
  r <- uint 2 bs ;; let (nch, bs) := r : Z * list byte in
  r <- uint 4 bs ;; let (rate, bs) := r : Z * list byte in
  r <- uint 4 bs ;; let (byterate, bs) := r : Z * list byte in
  r <- uint 2 bs ;; let (blockalign, bs) := r : Z * list byte in
  r <- uint 2 bs ;; let (bits, bs) := r : Z * list byte in
  _ <- guard ((1 <=? nch) && (1 <=? rate) && (bits mod 8 =? 0)
              && (blockalign =? nch * (bits / 8))
              && (byterate =? rate * blockalign)) ;;
  bs <- tag data_ bs ;;
  r <- uint 4 bs ;; let (data_length, bs) := r : Z * list byte in
  _ <- guard ((data_length =? Z.of_nat (length bs))
              && (data_length mod blockalign =? 0)) ;;
  Some (mk_params nch (bits / 8) rate, bs).

End wave.

(** The rows all have the length of the first. *)
Definition same_width (rows : list (list Z)) : bool :=
  match rows with
  | [] => true
  | row :: rows' => forallb (fun r => (length r =? length row)%nat) rows'
  end.

(** [numpy.concatenate(frames, axis=0)]: the rows of the blocks, one block
    after the other.  It raises [ValueError] for an empty list of blocks,
    and for blocks that do not all have the same number of columns.  A
    block is held as its rows, so that a block without rows has no width of
    its own here: it goes with blocks of any width. *)
Definition concatenate (frames : list ndarray) : option ndarray :=
  match frames with
  | [] => None
  | _ :: _ => if same_width (concat frames) then Some (concat frames) else None
  end.

(** [_to_wav]: the exception of [numpy.concatenate], or that of [wave],
    goes to the caller. *)
Definition _to_wav (self : t) (frames : list ndarray) : outcome (list byte) :=
  match concatenate frames with
  | None => Raises (Exception "ValueError")
  | Some rows =>
      let audio := flatten rows in
      match wave.write (channels self) 2 (sample_rate self) (tobytes audio) with
      | Some wav => Returns wav
      | None => Raises (Exception "wave")
      end
  end.

(** [get_audio_data]: [None] without frames, else the WAV file. *)
Definition get_audio_data (self : t) : outcome (option (list byte)) :=
  match _frames self with
  | [] => Returns None
  | _ :: _ =>
      match _to_wav self (_frames self) with
      | Returns wav => Returns (Some wav)
      | Raises e => Raises e
      end
  end.

(** [get_partial_audio]: the same on a copy of the list of frames. *)
Definition get_partial_audio (self : t) : outcome (option (list byte)) :=
  match _frames self with
  | [] => Returns None
  | _ :: _ =>
      let frames_snapshot := _frames self in
      match _to_wav self frames_snapshot with
      | Returns wav => Returns (Some wav)
      | Raises e => Raises e
      end
  end.

(** [get_duration]: [sum(f.shape[0] for f in self._frames) / sample_rate]. *)
Definition get_duration (self : t) : Q :=
  match _frames self with
  | [] => 0%Q
  | _ :: _ =>
      let total_samples :=
        fold_right Z.add 0 (map (fun f => Z.of_nat (length f)) (_frames self)) in
      (inject_Z total_samples / inject_Z (sample_rate self))%Q
  end.

(** The capture thread appends the blocks [blocks] in arrival order. *)
Definition capture (blocks : list ndarray) (self : t) : t :=
  fold_left (fun s indata => _audio_callback indata s) blocks self.

End AudioCapture.

(* ================================================================== *)
(** * Python [str] operations used by llm/gemini_formatter.py *)
(* ================================================================== *)

Module Str.

Local Open Scope string_scope.

(** [sub in s] *)
Fixpoint contains (sub s : string) : bool :=
  prefix sub s ||
  match s with
  | EmptyString => false
  | String _ s' => contains sub s'
  end.

Definition code (c : ascii) : nat := nat_of_ascii c.

Definition between (lo hi : nat) (c : ascii) : bool :=
  (lo <=? code c)%nat && (code c <=? hi)%nat.

(** Case mapping.  Below 256 the letters that [str.upper] and [str.lower]
    send to an ASCII letter are the ASCII letters themselves; every other
    character goes to characters that occur in none of the patterns this
    program looks for, and is kept as it is here. *)
Definition upper_char (c : ascii) : ascii :=
  if between 97 122 c then ascii_of_nat (code c - 32) else c.

Definition lower_char (c : ascii) : ascii :=
  if between 65 90 c then ascii_of_nat (code c + 32) else c.

Fixpoint map (f : ascii -> ascii) (s : string) : string :=
  match s with
  | EmptyString => EmptyString
  | String c s' => String (f c) (map f s')
  end.

Definition upper : string -> string := map upper_char.
Definition lower : string -> string := map lower_char.

(** [c.isspace()], which is also the class [\s] of [re] on [str]: tab to
    carriage return, the separators 0x1c to 0x1f, space, 0x85 and 0xa0. *)
Definition isspace (c : ascii) : bool :=
  between 9 13 c || between 28 32 c
  || (code c =? 133)%nat || (code c =? 160)%nat.

(** The class [\d] of [re] on [str], below 256: the digits 0 to 9. *)
Definition isdigit (c : ascii) : bool := between 48 57 c.

Fixpoint lstrip (s : string) : string :=
  match s with
  | EmptyString => EmptyString
  | String c s' => if isspace c then lstrip s' else s
  end.

Definition reverse (s : string) : string :=
  string_of_list_ascii (rev (list_ascii_of_string s)).

Definition rstrip (s : string) : string := reverse (lstrip (reverse s)).

(** [s.strip()] *)
Definition strip (s : string) : string := rstrip (lstrip s).

(** [s.replace(old, new)] for a non-empty [old]: occurrences are replaced
    from the left and do not overlap; [skip] counts the characters of the
    occurrence just replaced that are still to be passed over. *)
Fixpoint replace_from (skip : nat) (old new s : string) : string :=
  match s with
  | EmptyString => EmptyString
  | String c s' =>
      match skip with
      | S n => replace_from n old new s'
      | O =>
          if prefix old s
          then new ++ replace_from (String.length old - 1) old new s'
          else String c (replace_from 0 old new s')
      end
  end.

Definition replace (old new s : string) : string := replace_from 0 old new s.

(** The longest run of characters of a class at the head of [s], and what
    follows it. *)
Fixpoint span (p : ascii -> bool) (s : string) : string * string :=
  match s with
  | EmptyString => (EmptyString, EmptyString)
  | String c s' =>
      if p c then let (run, rest) := span p s' in (String c run, rest)
      else (EmptyString, s)
  end.

(** [s[n:]] *)
Fixpoint drop (n : nat) (s : string) : string :=
  match n, s with
  | S n', String _ s' => drop n' s'
  | _, _ => s
  end.

(** Does [s] start with [pattern], letter case ignored ([re.IGNORECASE] for
    an ASCII pattern, on characters below 256)? *)
Definition prefix_ignorecase (pattern s : string) : bool :=
  prefix (lower pattern) (lower (substring 0 (String.length pattern) s)).

(** The value of a run of decimal digits. *)
Fixpoint int_from (acc : Z) (digits : string) : Z :=
  match digits with
  | EmptyString => acc
  | String c s' => int_from (acc * 10 + (Z.of_nat (code c) - 48)) s'
  end.

Definition int (digits : string) : Z := int_from 0 digits.

(** [float(text)] for [text] of the form [digits] or [digits.digits]. *)
Definition float (text : string) : Q :=
  let (whole, rest) := span isdigit text in
  match rest with
  | String "." fraction =>
      (inject_Z (int whole)
       + (int fraction # Z.to_pos (10 ^ Z.of_nat (String.length fraction))))%Q
  | _ => inject_Z (int whole)
  end.

End Str.

(* ================================================================== *)
(** * llm/gemini_formatter.py *)
(* ================================================================== *)

Module GeminiFormatter.

Local Open Scope string_scope.
Local Open Scope Q_scope.

Definition FALLBACK_MODELS : list string :=
  ["gemini-2.0-flash"; "gemini-1.5-flash"].

Definition INITIAL_DELAY : Q := 1.
Definition MAX_DELAY : Q := 60.
Definition DELAY_MULTIPLIER : Q := 2.
Definition MAX_RETRIES : nat := 5.

(** [min(a, b)] of Python: [b] when [b < a], else [a]. *)
Definition min (a b : Q) : Q := if Qlt_le_dec b a then b else a.

(** ** [_parse_retry_delay] *)

(** [re.match] of [retry in (\d+(?:\.\d+)?)s] with [re.IGNORECASE] at the
    head of [s]; the result is group 1.  Both runs of digits are taken
    whole: after a shorter run comes a digit, where the pattern wants a dot
    or the letter s.  Without the fraction the letter s would have to be
    where the dot is. *)
Definition match_retry_in (s : string) : option string :=
  if Str.prefix_ignorecase "retry in " s then
    let (whole, rest) := Str.span Str.isdigit (Str.drop 9 s) in
    match whole, rest with
    | EmptyString, _ => None
    | _, String "." rest' =>
        let (fraction, rest'') := Str.span Str.isdigit rest' in
        match fraction with
        | EmptyString => None
        | _ =>
            if Str.prefix_ignorecase "s" rest''
            then Some (whole ++ "." ++ fraction) else None
        end
    | _, _ => if Str.prefix_ignorecase "s" rest then Some whole else None
    end
  else None.

Definition isquote (c : ascii) : bool :=
  (Str.code c =? 39)%nat || (Str.code c =? 34)%nat.

(** An optional quote, single or double. *)
Definition skip_quote (s : string) : string :=
  match s with
  | String c s' => if isquote c then s' else s
  | EmptyString => s
  end.

(** [re.match], at the head of [s], of the second pattern: the word
    retryDelay, an optional quote, [\s*], a colon or an equals sign, [\s*],
    an optional quote and the group [(\d+)]; the result is group 1.  Every
    optional or repeated item is taken as far as it goes: what it would
    give back is a quote or a space, which the item after it does not
    accept. *)
Definition match_retryDelay (s : string) : option string :=
  if prefix "retryDelay" s then
    let s1 := Str.lstrip (skip_quote (Str.drop 10 s)) in
    match s1 with
    | String c s2 =>
        if (Str.code c =? 58)%nat || (Str.code c =? 61)%nat then
          let (digits, _) := Str.span Str.isdigit (skip_quote (Str.lstrip s2)) in
          match digits with
          | EmptyString => None
          | _ => Some digits
          end
        else None
    | EmptyString => None
    end
  else None.

(** [re.search]: the match at the leftmost position that has one. *)
Fixpoint search (at_head : string -> option string) (s : string)
  : option string :=
  match at_head s with
  | Some group => Some group
  | None =>
      match s with
      | EmptyString => None
      | String _ s' => search at_head s'
      end
  end.

Definition _parse_retry_delay (error_msg : string) : Q :=
  match search match_retry_in error_msg with
  | Some group => Str.float group + 2
  | None =>
      match search match_retryDelay error_msg with
      | Some group => Str.float group + 2
      | None => 0
      end
  end.

(** ** The service and the effects of a call *)

(** What [self._client.models.generate_content] comes back with: a response
    whose [text] is a string or [None], or an exception [e] with
    [str(e) = message]. *)
Inductive response : Set :=
| generated (text : option string)
| failed (message : string).

(** The world outside the formatter: the answer of the service to the
    [n]-th request of the process, the [n]-th number that
    [random.random()] draws, a number from 0 to 1, and the longest delay
    that [time.sleep] takes on the platform (in CPython what fits the
    clock's integer type: 2^63 - 1 nanoseconds, in older builds for Windows
    2^32 - 1 milliseconds). *)
Record world : Type := mk_world {
  service : nat -> string -> string -> response;
  random : nat -> Q;
  sleep_max : Q
}.

(** The calls to the service and to [time.sleep], as they happen. *)
Inductive event : Set :=
| generate_content (model contents : string)
| sleep (seconds : Q).

Record state : Set := mk_state {
  requests : nat;
  draws : nat;
  log : list event
}.

Definition initial : state := mk_state 0 0 [].

(** A computation with these effects. *)
Definition M (A : Type) : Type := state -> A * state.

Definition ret {A} (a : A) : M A := fun st => (a, st).

Definition bind {A B} (m : M A) (k : A -> M B) : M B :=
  fun st => let (a, st') := m st in k a st'.

Notation "x <- m ;; k" := (bind m (fun x => k))
  (at level 61, m at next level, right associativity).
Notation "m ;;; k" := (bind m (fun _ => k))
  (at level 61, right associativity).

Section Effects.

Variable w : world.

Definition client_generate_content (model contents : string) : M response :=
  fun st =>
    (service w (requests st) model contents,
     mk_state (S (requests st)) (draws st)
              (log st ++ [generate_content model contents])).

(** [random.uniform(a, b)], which is [a + (b - a) * random.random()]. *)
Definition random_uniform (a b : Q) : M Q :=
  fun st => (a + (b - a) * random w (draws st),
             mk_state (requests st) (S (draws st)) (log st)).

(** What a call [time.sleep(seconds)] ends in: [ValueError] for a negative
    delay, [OverflowError] for one that is too long. *)
Definition sleep_outcome (seconds : Q) : outcome unit :=
  if Qlt_le_dec seconds 0 then Raises (Exception "ValueError")
  else if Qlt_le_dec (sleep_max w) seconds
       then Raises (Exception "OverflowError")
       else Returns tt.

Definition time_sleep (seconds : Q) : M (outcome unit) :=
  fun st => (sleep_outcome seconds,
             mk_state (requests st) (draws st) (log st ++ [sleep seconds])).

(** The first test of the [except] block. *)
Definition is_rate_limit (error_msg : string) : bool :=
  Str.contains "429" error_msg || Str.contains "RESOURCE_EXHAUSTED" error_msg.

(** The wait of a rate-limited attempt that is retried. *)
Definition retry_wait (delay : Q) (error_msg : string) : M Q :=
  let server_delay := _parse_retry_delay error_msg in
  if Qlt_le_dec 0 server_delay then ret server_delay
  else
    u <- random_uniform (1 # 2) (3 # 2) ;;
    let jitter := delay * u in
    ret (min jitter MAX_DELAY).

(** The body of [for attempt in range(MAX_RETRIES + 1)], from [attempt] on;
    [delay] is the local variable of that name.  A response whose [text] is
    [None] makes [response.text.strip()] raise [AttributeError] inside the
    [try].  The [except] block has no handler of its own: an exception of
    [time.sleep] in it ends the loop and goes to the caller. *)
Fixpoint attempts (range : list nat) (delay : Q) (prompt model : string)
  : M (outcome (option string)) :=
  match range with
  | [] => ret (Returns None)
  | attempt :: range' =>
      r <- client_generate_content model prompt ;;
      let except (error_msg : string) : M (outcome (option string)) :=
        if is_rate_limit error_msg then
          if (MAX_RETRIES <=? attempt)%nat then ret (Returns None)
          else
            wait <- retry_wait delay error_msg ;;
            slept <- time_sleep wait ;;
            match slept with
            | Raises e => ret (Raises e)
            | Returns _ =>
                attempts range' (min (delay * DELAY_MULTIPLIER) MAX_DELAY)
                         prompt model
            end
        else if Str.contains "API_KEY" (Str.upper error_msg)
                || Str.contains "401" error_msg then ret (Returns None)
        else if Str.contains "404" error_msg
                || Str.contains "not found" (Str.lower error_msg)
             then ret (Returns None)
        else ret (Returns None)
      in
      match r with
      | generated (Some text) => ret (Returns (Some (Str.strip text)))
      | generated None =>
          except "'NoneType' object has no attribute 'strip'"
      | failed error_msg => except error_msg
      end
  end.

Definition _send_with_exponential_backoff (prompt model : string)
  : M (outcome (option string)) :=
  attempts (seq 0 (MAX_RETRIES + 1)) INITIAL_DELAY prompt model.

(** The loop [for fallback in FALLBACK_MODELS] of [format_text]; an
    exception of a run goes on to the caller. *)
Fixpoint fallbacks (models : list string) (_model_name full_prompt : string)
  : M (outcome (option string)) :=
  match models with
  | [] => ret (Returns None)
  | fallback :: models' =>
      if String.eqb fallback _model_name
      then fallbacks models' _model_name full_prompt
      else
        result <- _send_with_exponential_backoff full_prompt fallback ;;
        match result with
        | Raises e => ret (Raises e)
        | Returns (Some text) => ret (Returns (Some text))
        | Returns None => fallbacks models' _model_name full_prompt
        end
  end.

(** [format_text]; [_model_name] is the model given to the constructor. *)
Definition format_text (_model_name raw_text prompt_template : string)
  : M (outcome string) :=
  let full_prompt := Str.replace "{raw_text}" raw_text prompt_template in
  result <- _send_with_exponential_backoff full_prompt _model_name ;;
  match result with
  | Raises e => ret (Raises e)
  | Returns (Some text) => ret (Returns text)
  | Returns None =>
      result <- fallbacks FALLBACK_MODELS _model_name full_prompt ;;
      match result with
      | Raises e => ret (Raises e)
      | Returns (Some text) => ret (Returns text)
      | Returns None => ret (Returns raw_text)
      end
  end.

End Effects.

(** The calls of a log that go to the service, and the waits. *)
Definition requests_of (l : list event) : list (string * string) :=
  flat_map (fun e => match e with
                     | generate_content m c => [(m, c)]
                     | sleep _ => []
                     end) l.

Definition sleeps_of (l : list event) : list Q :=
  flat_map (fun e => match e with
                     | generate_content _ _ => []
                     | sleep s => [s]
                     end) l.

End GeminiFormatter.

(* ================================================================== *)
(** * ui/tray_icon.py and ui/indicator.py, as far as main.py uses them *)
(* ================================================================== *)

Module TrayIcon.

(** The three titles the icon is given: waiting, recording, formatting. *)
Inductive title : Set :=
| title_waiting
| title_recording
| title_processing.

(** [_icon] is [None] until [start] has made the icon; of the icon the
    title is kept (the picture changes with it).  The assignments to the
    icon are taken to succeed. *)
Record t : Set := mk {
  _icon : option title;
  _is_recording : bool
}.

(** [__init__], and [start], which makes the icon with the waiting title. *)
Definition init : t := mk None false.

Definition start (self : t) : t := mk (Some title_waiting) (_is_recording self).

Definition set_recording (is_recording : bool) (self : t) : t :=
  mk (match _icon self with
      | Some _ => Some (if is_recording then title_recording else title_waiting)
      | None => None
      end)
     is_recording.

Definition set_processing (self : t) : t :=
  mk (match _icon self with
      | Some _ => Some title_processing
      | None => None
      end)
     (_is_recording self).

End TrayIcon.

Module RecordingIndicator.

(** The flag [_is_visible]; the window lives in a thread of its own, which
    is not modelled: [show] stands for the window being built. *)
Record t : Set := mk { _is_visible : bool }.

Definition init : t := mk false.

Definition show (self : t) : t := mk true.
Definition hide (self : t) : t := mk false.

End RecordingIndicator.

(* ================================================================== *)
(** * main.py *)
(* ================================================================== *)

Module YubiIrazu.

Local Open Scope string_scope.
Local Open Scope Q_scope.

Definition wav := list Byte.byte.

Inductive target : Set :=
| _process_recording_target
| periodic_stt_target.

(** The calls to the collaborators, as they happen. *)
Inductive call : Set :=
| audio_start
| audio_stop
| stt_transcribe (audio_data : wav)
| llm_format_text (raw_text prompt : string)
| output_output_text (text : string)
| indicator_update_status
| time_sleep (seconds : Q)
| Thread_start (thread : target).

(** The fields of the application object that the callbacks and the
    processing task write, and the calls made so far. *)
Record t : Set := mk {
  _is_processing : bool;
  _partial_text : string;
  tray : TrayIcon.t;
  indicator : RecordingIndicator.t;
  calls : list call
}.

(** What the collaborators answer during one run of the processing task. *)
Record answers : Type := mk_answers {
  get_duration : outcome Q;
  get_audio_data : outcome (option wav);
  transcribe : wav -> outcome string;
  llm : option (string -> string -> outcome string);
  prompt : string;
  output_text : string -> outcome unit
}.

(** [__init__], followed by the [self.tray.start()] of [run]. *)
Definition init : t :=
  mk false "" (TrayIcon.start TrayIcon.init) RecordingIndicator.init [].

Definition with_calls (self : t) (cs : list call) : t :=
  mk (_is_processing self) (_partial_text self) (tray self) (indicator self)
     (calls self ++ cs).

Definition with_indicator (self : t) (i : RecordingIndicator.t) : t :=
  mk (_is_processing self) (_partial_text self) (tray self) i (calls self).

Definition with_tray (self : t) (tr : TrayIcon.t) : t :=
  mk (_is_processing self) (_partial_text self) tr (indicator self)
     (calls self).

(** ** Recording callbacks *)

Definition _on_recording_start (self : t) : t :=
  let self := with_calls self [audio_start] in
  let self := mk (_is_processing self) "" (tray self) (indicator self)
                 (calls self) in
  let self := with_tray self (TrayIcon.set_recording true (tray self)) in
  let self := with_indicator self (RecordingIndicator.show (indicator self)) in
  with_calls self [Thread_start periodic_stt_target].

Definition _on_recording_stop (self : t) : t :=
  let self := with_calls self [audio_stop] in
  let self := with_tray self (TrayIcon.set_recording false (tray self)) in
  let self := with_calls self [indicator_update_status] in
  let self := with_tray self (TrayIcon.set_processing (tray self)) in
  if _is_processing self then self
  else
    let self := mk true (_partial_text self) (tray self) (indicator self)
                   (calls self) in
    with_calls self [Thread_start _process_recording_target].

(** ** The processing task *)

(** A computation on the application object that may raise. *)
Definition M (A : Type) : Type := t -> outcome A * t.

Definition ret {A} (a : A) : M A := fun self => (Returns a, self).

Definition bind {A B} (m : M A) (k : A -> M B) : M B :=
  fun self =>
    match m self with
    | (Returns a, self') => k a self'
    | (Raises e, self') => (Raises e, self')
    end.

Notation "x <- m ;; k" := (bind m (fun x => k))
  (at level 61, m at next level, right associativity).
Notation "m ;;; k" := (bind m (fun _ => k))
  (at level 61, right associativity).

(** A call to a collaborator: it is recorded, and its answer comes back. *)
Definition invoke {A} (c : call) (answer : outcome A) : M A :=
  fun self => (answer, with_calls self [c]).

(** A call that is not recorded (a read of the audio buffer). *)
Definition read {A} (answer : outcome A) : M A := fun self => (answer, self).

Definition indicator_hide : M unit :=
  fun self =>
    (Returns tt,
     with_indicator self (RecordingIndicator.hide (indicator self))).

(** The [try] block of [_process_recording]; a [return] ends it with
    [Returns tt]. *)
Definition try_block (a : answers) : M unit :=
  duration <- read (get_duration a) ;;
  if Qlt_le_dec duration (3 # 10) then ret tt
  else
    audio_data <- read (get_audio_data a) ;;
    match audio_data with
    | None => ret tt
    | Some audio =>
        raw_text <- invoke (stt_transcribe audio) (transcribe a audio) ;;
        if String.eqb raw_text "" then ret tt
        else
          formatted_text <-
            match llm a with
            | Some format_text =>
                invoke indicator_update_status (Returns tt) ;;;
                invoke (llm_format_text raw_text (prompt a))
                       (format_text raw_text (prompt a))
            | None => ret raw_text
            end ;;
          indicator_hide ;;;
          invoke (time_sleep (1 # 10)) (Returns tt) ;;;
          invoke (output_output_text formatted_text)
                 (output_text a formatted_text)
    end.

(** The [finally] block. *)
Definition finally_block (self : t) : t :=
  let self := mk false (_partial_text self) (tray self) (indicator self)
                 (calls self) in
  let self := with_indicator self (RecordingIndicator.hide (indicator self)) in
  with_tray self (TrayIcon.set_recording false (tray self)).

(** [_process_recording]: [except Exception] swallows an [Exception]; any
    other exception goes on to the caller, after the [finally] block. *)
Definition _process_recording (a : answers) : M unit :=
  fun self =>
    let (result, self) := try_block a self in
    let result :=
      match result with
      | Raises (Exception _) => Returns tt
      | _ => result
      end in
    (result, finally_block self).

(** ** The hook thread and the processing threads together

    The hook thread runs the two callbacks; a processing thread that was
    started and has not finished yet runs [_process_recording] to its end.
    [pending] counts the started threads that have not finished. *)
Inductive step : Type :=
| recording_start
| recording_stop
| processing_finishes (a : answers).

(** The processing threads started, and the texts handed to the output
    manager, in a list of calls. *)
Definition processing_threads (cs : list call) : nat :=
  length (filter (fun c => match c with
                           | Thread_start _process_recording_target => true
                           | _ => false
                           end) cs).

Definition deliveries (cs : list call) : list string :=
  flat_map (fun c => match c with
                     | output_output_text text => [text]
                     | _ => []
                     end) cs.

Record system : Set := mk_system {
  app : t;
  pending : nat
}.

Definition do_step (s : step) (sys : system) : system :=
  match s with
  | recording_start => mk_system (_on_recording_start (app sys)) (pending sys)
  | recording_stop =>
      let app' := _on_recording_stop (app sys) in
      mk_system app'
        (pending sys + (processing_threads (calls app')
                        - processing_threads (calls (app sys))))
  | processing_finishes a =>
      match pending sys with
      | O => sys
      | S n => mk_system (snd (_process_recording a (app sys))) n
      end
  end.

Definition run (steps : list step) (sys : system) : system :=
  fold_left (fun sys s => do_step s sys) steps sys.

End YubiIrazu.

(* ================================================================== *)
(** * Vocabulary for the properties of llm/gemini_formatter.py *)
(* ================================================================== *)

Module GeminiFormatterSpec.

Import GeminiFormatter.
Local Open Scope string_scope.
Local Open Scope Q_scope.

(** ** Runs of digits and numerals *)

Fixpoint all (p : ascii -> bool) (s : string) : bool :=
  match s with
  | EmptyString => true
  | String c s' => p c && all p s'
  end.

(** [s] does not start with a character of the class. *)
Definition stops (p : ascii -> bool) (s : string) : bool :=
  match s with
  | EmptyString => true
  | String c _ => negb (p c)
  end.

(** A decimal numeral: digits, or digits, a dot and digits. *)
Definition decimal (text : string) : Prop :=
  all Str.isdigit text = true
  \/ exists whole fraction,
       text = whole ++ "." ++ fraction
       /\ all Str.isdigit whole = true /\ all Str.isdigit fraction = true.


(** The number that [_parse_retry_delay] reads, before the margin: the
    decimal numeral of the first pattern, else the digits of the second. *)
Definition suggested (error_msg : string) : option Q :=
  match search match_retry_in error_msg with
  | Some numeral => Some (Str.float numeral)
  | None =>
      match search match_retryDelay error_msg with
      | Some digits => Some (inject_Z (Str.int digits))
      | None => None
      end
  end.


(** ** One attempt of the loop *)

Local Open Scope list_scope.

Definition NoneType_error : string :=
  "'NoneType' object has no attribute 'strip'".

(** [str(e)] of the exception that an answer makes the [try] block raise. *)
Definition error_of (r : response) : option string :=
  match r with
  | generated (Some _) => None
  | generated None => Some NoneType_error
  | failed error_msg => Some error_msg
  end.

(** The answer is an error that the first test classifies as a rate limit. *)
Definition rate_limited (r : response) : Prop :=
  exists error_msg, error_of r = Some error_msg /\ is_rate_limit error_msg = true.

(** The state after one more request, and after one more sleep. *)
Definition called (model prompt : string) (st : state) : state :=
  mk_state (S (requests st)) (draws st)
           (log st ++ [generate_content model prompt]).

Definition slept (wait : Q) (st : state) : state :=
  mk_state (requests st) (draws st) (log st ++ [sleep wait]).

Definition next_delay (delay : Q) : Q := min (delay * DELAY_MULTIPLIER) MAX_DELAY.

(** A delay that [time.sleep] takes. *)
Definition accepted (w : world) (wait : Q) : Prop :=
  0 <= wait /\ wait <= sleep_max w.

Section OneModel.

Variable w : world.
Variables prompt model : string.

(** The factor that the [n]-th draw of [random.uniform(0.5, 1.5)] gives. *)
Definition uniform (n : nat) : Q := (1 # 2) + ((3 # 2) - (1 # 2)) * random w n.

Definition the_error (r : response) : string :=
  match error_of r with Some error_msg => error_msg | None => "" end.

(** The error messages of the [n] answers from request [k] on. *)
Definition errors_from (k n : nat) : list string :=
  map (fun i => the_error (service w i model prompt)) (seq k n).

(** The waits that follow a run of rate-limit errors, from the base delay
    [delay] and the [drawn]-th random number on. *)
Fixpoint waits_of (delay : Q) (drawn : nat) (errors : list string) : list Q :=
  match errors with
  | [] => []
  | error_msg :: errors' =>
      match suggested error_msg with
      | Some seconds =>
          (seconds + 2) :: waits_of (next_delay delay) drawn errors'
      | None =>
          min (delay * uniform drawn) MAX_DELAY
          :: waits_of (next_delay delay) (S drawn) errors'
      end
  end.

Fixpoint draws_of (drawn : nat) (errors : list string) : nat :=
  match errors with
  | [] => drawn
  | error_msg :: errors' =>
      match suggested error_msg with
      | Some _ => draws_of drawn errors'
      | None => draws_of (S drawn) errors'
      end
  end.

(** The base delay after [n] rate-limit errors. *)
Fixpoint delay_after (n : nat) (delay : Q) : Q :=
  match n with
  | O => delay
  | S n' => delay_after n' (next_delay delay)
  end.

(** The log of attempts that were retried. *)
Definition retries (waits : list Q) : list event :=
  flat_map (fun wait => [generate_content model prompt; sleep wait]) waits.

(** [time.sleep] takes every wait that can come up in a run for this
    prompt and model: the computed waits, which are 60 seconds at most, and
    the waits that the answers of the service suggest, with their margin. *)
Definition sleeps_accepted : Prop :=
  60 <= sleep_max w
  /\ forall i seconds,
       suggested (the_error (service w i model prompt)) = Some seconds ->
       seconds + 2 <= sleep_max w.

End OneModel.

(** ** The wait before a retry *)

(** The rule for the wait that follows a rate-limit error, [delay] being the
    base delay at that attempt: the numeral of a retry-in phrase and two
    seconds; else the whole seconds of a retryDelay field and two seconds;
    else the base delay times a factor from 0.5 to 1.5, under the cap. *)
Definition wait_rule (delay : Q) (error_msg : string) (wait : Q) : Prop :=
  match search match_retry_in error_msg with
  | Some numeral => wait = Str.float numeral + 2
  | None =>
      match search match_retryDelay error_msg with
      | Some digits => wait = inject_Z (Str.int digits) + 2
      | None =>
          exists factor,
            1 # 2 <= factor <= 3 # 2
            /\ wait = min (delay * factor) MAX_DELAY
      end
  end.

(** The waits that follow a run of rate-limit errors obey the rule, with a
    base delay that starts at [delay] and goes to [min (delay * 2) 60]
    after every error. *)
Inductive waits_follow : Q -> list string -> list Q -> Prop :=
| follow_nil delay : waits_follow delay [] []
| follow_cons delay error_msg wait errors waits :
    wait_rule delay error_msg wait ->
    waits_follow (min (delay * DELAY_MULTIPLIER) MAX_DELAY) errors waits ->
    waits_follow delay (error_msg :: errors) (wait :: waits).

(** The numeral that a retryDelay field carries, read in full: the reading
    of the specification, where the suggested wait is a decimal number of
    seconds.  It differs from [match_retryDelay] in reading a fraction. *)
Definition retryDelay_numeral (s : string) : option string :=
  if prefix "retryDelay" s then
    match Str.lstrip (skip_quote (Str.drop 10 s)) with
    | String c s2 =>
        if (Str.code c =? 58)%nat || (Str.code c =? 61)%nat then
          let (whole, rest) :=
            Str.span Str.isdigit (skip_quote (Str.lstrip s2)) in
          match whole, rest with
          | EmptyString, _ => None
          | _, String "." rest' =>
              match fst (Str.span Str.isdigit rest') with
              | EmptyString => Some whole
              | fraction => Some (whole ++ "." ++ fraction)%string
              end
          | _, _ => Some whole
          end
        else None
    | EmptyString => None
    end
  else None.

(** ** Fallback models *)

Section Fallbacks.

Variable w : world.
Variables primary full_prompt : string.

(** The fallback models that [format_text] tries: those of the list that
    are not the primary model, in the order of the list. *)
Definition distinct_fallbacks : list string :=
  filter (fun fallback => negb (String.eqb fallback primary)) FALLBACK_MODELS.

(** Every model of [models] is tried in turn and fails. *)
Inductive all_fail : list string -> state -> state -> Prop :=
| fail_nil st : all_fail [] st st
| fail_cons model models st st1 st2 :
    _send_with_exponential_backoff w full_prompt model st
    = (Returns None, st1) ->
    all_fail models st1 st2 ->
    all_fail (model :: models) st st2.

End Fallbacks.


End GeminiFormatterSpec.

(* ================================================================== *)
(** * Vocabulary for the properties of main.py *)
(* ================================================================== *)

Module YubiIrazuSpec.

Import YubiIrazu.
Local Open Scope string_scope.
Local Open Scope Q_scope.
Local Open Scope list_scope.

(** The task comes to the output stage, with [text]: the recording lasts
    0.3 seconds or more, there is audio, the transcript is not empty, and
    the formatter, where there is one, returns. *)
Inductive reaches_output (a : answers) (text : string) : Prop :=
| reaches duration audio raw_text :
    get_duration a = Returns duration ->
    3 # 10 <= duration ->
    get_audio_data a = Returns (Some audio) ->
    transcribe a audio = Returns raw_text ->
    raw_text <> "" ->
    match llm a with
    | Some format_text => format_text raw_text (prompt a) = Returns text
    | None => text = raw_text
    end ->
    reaches_output a text.

(** What one run of the task adds to the calls: no thread, and at most one
    delivery, which is made when the task comes to the output stage; a
    recording shorter than 0.3 seconds adds no call at all. *)
Definition adds (a : answers) (new : list call) : Prop :=
  processing_threads new = 0%nat
  /\ (length (deliveries new) <= 1)%nat
  /\ (forall text, reaches_output a text -> deliveries new = [text])
  /\ (forall duration,
        get_duration a = Returns duration -> duration < 3 # 10 -> new = []).

(** A step of the hook thread. *)
Definition hook_step (s : step) : Prop :=
  match s with
  | recording_start | recording_stop => True
  | processing_finishes _ => False
  end.

End YubiIrazuSpec.

(* ================================================================== *)
(** * Vocabulary for further properties of core/input_manager.py *)
(* ================================================================== *)

Module InputManagerMore.

Import InputManager.

(** A list of callbacks that starts and stops in turn, from a machine that
    records or does not. *)
Fixpoint alternates (recording : bool) (fired : list callback) : bool :=
  match fired with
  | [] => true
  | on_recording_start :: fired' => negb recording && alternates true fired'
  | on_recording_stop :: fired' => recording && alternates false fired'
  end.

(** Whether a recording is on after the callbacks [fired]. *)
Fixpoint recording_after (recording : bool) (fired : list callback) : bool :=
  match fired with
  | [] => recording
  | on_recording_start :: fired' => recording_after true fired'
  | on_recording_stop :: fired' => recording_after false fired'
  end.

(** A delivery that is not a key-down of the hands-free key. *)
Definition not_hf_down (d : delivery) : Prop :=
  match d with
  | HF _ down => False
  | _ => True
  end.

(** A delivery that is not a key-up of the push-to-talk key. *)
Definition not_ptt_up (d : delivery) : Prop :=
  match d with
  | PTT up => False
  | _ => True
  end.

End InputManagerMore.

(* ================================================================== *)
(** * Vocabulary for further properties of llm/gemini_formatter.py *)
(* ================================================================== *)

Module GeminiFormatterMore.

Import GeminiFormatter.
Local Open Scope string_scope.

(** The number of requests of a log that go to the model [model]. *)
Definition requests_to (model : string) (l : list event) : nat :=
  length (filter (fun r => String.eqb (fst r) model) (requests_of l)).

(** No suffix of [before], followed by [rest], is matched at its head: in
    [before ++ rest] the search finds nothing that starts in [before]. *)
Fixpoint unmatched (at_head : string -> option string) (before rest : string)
  : bool :=
  match before with
  | EmptyString => true
  | String _ before' =>
      match at_head (before ++ rest) with
      | Some _ => false
      | None => unmatched at_head before' rest
      end
  end.

(** The sum of a list of waits. *)
Definition total (waits : list Q) : Q := fold_right Qplus 0%Q waits.

(** The most that [n] computed waits can add up to, from the base delay
    [delay] on: one and a half times the base delay, which doubles. *)
Fixpoint backoff_bound (n : nat) (delay : Q) : Q :=
  match n with
  | O => 0
  | S n' => (3 # 2) * delay + backoff_bound n' (2 * delay)
  end%Q.

(** A character that is not an opening brace. *)
Definition not_brace (c : ascii) : bool := negb (Str.code c =? 123)%nat.

End GeminiFormatterMore.

(* ================================================================== *)
(** * Vocabulary for further properties of main.py *)
(* ================================================================== *)

Module YubiIrazuMore.

Import YubiIrazu.
Local Open Scope string_scope.
Local Open Scope Q_scope.
Local Open Scope list_scope.

(** The state of the hook thread and the processing threads is in order:
    at most one processing thread is pending, the flag is set exactly while
    one is, and every delivery made and every pending thread has a
    [Thread_start] of its own among the calls. *)
Definition in_order (sys : system) : Prop :=
  (pending sys <= 1)%nat
  /\ _is_processing (app sys) = (pending sys =? 1)%nat
  /\ (length (deliveries (calls (app sys))) + pending sys
      <= processing_threads (calls (app sys)))%nat.

(** [self.llm], where [_init_llm] has made a [GeminiFormatter] of the model
    [primary]: [format_text] run on the service [w] from the state [st] of
    the formatter's counters; it returns a text or raises. *)
Definition gemini (w : GeminiFormatter.world) (primary : string)
    (st : GeminiFormatter.state) : string -> string -> outcome string :=
  fun raw_text prompt =>
    fst (GeminiFormatter.format_text w primary raw_text prompt st).

End YubiIrazuMore.

(* ================================================================== *)
(** * main.py: the preview thread, [periodic_stt] *)
(* ================================================================== *)

Module RealtimeSTT.

Local Open Scope string_scope.
Local Open Scope Q_scope.
Local Open Scope list_scope.

Definition wav := YubiIrazu.wav.

(** What the thread meets in one round of its loop: the flag
    [self.audio.is_recording] at the [while] test and after the sleep, the
    answers of [get_partial_audio] and of [transcribe], and what another
    thread has written to [self._partial_text] since the round before, if
    any did: the hook thread writes the empty string in
    [_on_recording_start], and the preview thread of an earlier recording,
    which goes on when the next recording starts during its sleep, writes
    the texts it gives. *)
Record round : Type := mk_round {
  is_recording_at_test : bool;
  is_recording_after_sleep : bool;
  get_partial_audio : outcome (option wav);
  transcribe : wav -> outcome string;
  written : option string
}.

(** The calls of the thread, as they happen. *)
Inductive call : Set :=
| time_sleep (seconds : Q)
| stt_transcribe (audio_data : wav)
| indicator_update_text (text : string).

(** The field [_partial_text], which the threads share, and the calls
    that this thread has made so far. *)
Record t : Set := mk {
  _partial_text : string;
  calls : list call
}.

Definition with_calls (self : t) (cs : list call) : t :=
  mk (_partial_text self) (calls self ++ cs).

(** The write of another thread to [_partial_text]. *)
Definition overwritten (w : option string) (self : t) : t :=
  match w with
  | Some text => mk text (calls self)
  | None => self
  end.

(** How the thread stands after the rounds given: still in its loop, at its
    end, or ended by an exception. *)
Inductive status : Set :=
| in_loop
| returned
| raised (error : exn).

(** [periodic_stt], for the rounds given.  [except Exception: pass] covers
    the transcription and what follows it, not [get_partial_audio].  The
    thread reads [_partial_text] once in a round, in the test before it
    writes it; what another thread wrote before that is there by then. *)
Fixpoint periodic_stt (rounds : list round) (self : t) : status * t :=
  match rounds with
  | [] => (in_loop, self)
  | r :: rounds' =>
      let self := overwritten (written r) self in
      if negb (is_recording_at_test r) then (returned, self)
      else
        let self := with_calls self [time_sleep 3] in
        if negb (is_recording_after_sleep r) then (returned, self)
        else
          match get_partial_audio r with
          | Raises e => (raised e, self)
          | Returns None => periodic_stt rounds' self
          | Returns (Some audio_data) =>
              let self := with_calls self [stt_transcribe audio_data] in
              match transcribe r audio_data with
              | Returns text =>
                  if negb (String.eqb text "")
                     && negb (String.eqb text (_partial_text self))
                  then
                    let self := mk text (calls self) in
                    let self := with_calls self [indicator_update_text text] in
                    periodic_stt rounds' self
                  else periodic_stt rounds' self
              | Raises (Exception _) => periodic_stt rounds' self
              | Raises (BaseException m) => (raised (BaseException m), self)
              end
          end
  end.

(** The texts given to the indicator, and the sleeps, in a list of calls. *)
Definition previews (cs : list call) : list string :=
  flat_map (fun c => match c with
                     | indicator_update_text text => [text]
                     | _ => []
                     end) cs.

Definition sleeps (cs : list call) : nat :=
  length (filter (fun c => match c with time_sleep _ => true | _ => false end)
                 cs).

Definition transcriptions (cs : list call) : nat :=
  length (filter (fun c => match c with stt_transcribe _ => true | _ => false end)
                 cs).

Definition not_empty (text : string) : Prop := text <> "".

(** No other thread writes [_partial_text] during the round. *)
Definition undisturbed (r : round) : Prop := written r = None.

(** Each text of the list is not empty and differs from the one before it,
    the first from [previous]. *)
Fixpoint fresh (previous : string) (texts : list string) : Prop :=
  match texts with
  | [] => True
  | text :: texts' => text <> "" /\ text <> previous /\ fresh text texts'
  end.

(** A round in which the recording goes on and nothing worse than an
    [Exception] of the transcription happens. *)
Definition goes_on (r : round) : Prop :=
  is_recording_at_test r = true
  /\ is_recording_after_sleep r = true
  /\ (exists audio_data, get_partial_audio r = Returns audio_data)
  /\ forall audio_data message,
       transcribe r audio_data <> Raises (BaseException message).

End RealtimeSTT.

(* ================================================================== *)
(** * utils/settings.py *)
(* ================================================================== *)

Module Settings.

Local Open Scope string_scope.
Local Open Scope list_scope.

(** What [json.load] gives: [None], a [bool], an [int], a [float], a [str],
    a [list] or a [dict] with [str] keys.  A [dict] is the list of its items
    in insertion order; its keys are distinct. *)
#[warnings="-register-all"] Inductive json : Type :=
| JNone
| JBool (b : bool)
| JInt (n : Z)
| JFloat (x : Q)
| JStr (s : string)
| JList (items : list json)
| JDict (items : list (string * json)).

Definition dict := list (string * json).

(** [d.get(key)]: the value of [key], [None] for a key that [d] lacks. *)
Fixpoint lookup (key : string) (d : dict) : option json :=
  match d with
  | [] => None
  | (k, v) :: d' => if String.eqb k key then Some v else lookup key d'
  end.

(** [d[key] = value]: the value of an old key is replaced where it stands,
    a new key comes last. *)
Fixpoint setitem (key : string) (value : json) (d : dict) : dict :=
  match d with
  | [] => [(key, value)]
  | (k, v) :: d' =>
      if String.eqb k key then (k, value) :: d'
      else (k, v) :: setitem key value d'
  end.

(** [_deep_merge(base, override)], which changes [base] in place: the
    result is [base] after the call.  [merge_into override base] does the
    loop over the items of the dict [override]. *)
Fixpoint merge_into (override : json) (base : dict) {struct override} : dict :=
  match override with
  | JDict items =>
      (fix loop (items : list (string * json)) (base : dict) : dict :=
         match items with
         | [] => base
         | (key, value) :: items' =>
             loop items'
               (match lookup key base, value with
                | Some (JDict b), JDict _ =>
                    setitem key (JDict (merge_into value b)) base
                | _, _ => setitem key value base
                end)
         end) items base
  | _ => base
  end.

Definition _deep_merge (base override : dict) : dict :=
  merge_into (JDict override) base.

(** What the [with open(...)] block of [_load] ends in: the value read, or
    an exception; of the exceptions, [json.JSONDecodeError] and [IOError]
    are the ones that [_load] handles. *)
Inductive read : Type :=
| loaded (saved : json)
| JSONDecodeError
| IOError
| other_error (message : string).

(** The file at [_config_path]. *)
Inductive file : Type :=
| absent
| present (content : read).

(** [_load], with [defaults] for [DEFAULT_CONFIG]: the configuration, and
    the dicts handed to [_save].  A saved value that is no dict has no
    [items], which is an [AttributeError]. *)
Definition _load (defaults : dict) (f : file) : outcome dict * list dict :=
  match f with
  | present (loaded (JDict saved)) =>
      (Returns (_deep_merge defaults saved), [])
  | present (loaded _) =>
      (Raises (Exception "AttributeError"), [])
  | present JSONDecodeError => (Returns defaults, [])
  | present IOError => (Returns defaults, [])
  | present (other_error message) => (Raises (Exception message), [])
  | absent => (Returns defaults, [defaults])
  end.

(** The keys of every dict are distinct, as far as [_deep_merge] looks:
    in the dict and in the dicts that are values of its keys. *)
Fixpoint distinct_keys (j : json) : Prop :=
  match j with
  | JDict items =>
      NoDup (map fst items)
      /\ (fix values (items : list (string * json)) : Prop :=
            match items with
            | [] => True
            | (_, value) :: items' => distinct_keys value /\ values items'
            end) items
  | _ => True
  end.

(** The value that [key] has after the merge, from the values it has in
    [base] and in [override]. *)
Definition merged (base override : option json) : option json :=
  match override with
  | None => base
  | Some value =>
      match base, value with
      | Some (JDict b), JDict v => Some (JDict (_deep_merge b v))
      | _, _ => Some value
      end
  end.

Section Induction.

Variable P : json -> Prop.

Hypothesis P_None : P JNone.
Hypothesis P_Bool : forall b, P (JBool b).
Hypothesis P_Int : forall n, P (JInt n).
Hypothesis P_Float : forall x, P (JFloat x).
Hypothesis P_Str : forall s, P (JStr s).
Hypothesis P_List : forall items, P (JList items).
Hypothesis P_Dict :
  forall items, Forall (fun item => P (snd item)) items -> P (JDict items).

(** Induction on a value, with the values of a dict as the smaller ones. *)
Fixpoint json_values_ind (j : json) : P j :=
  match j with
  | JNone => P_None
  | JBool b => P_Bool b
  | JInt n => P_Int n
  | JFloat x => P_Float x
  | JStr s => P_Str s
  | JList items => P_List items
  | JDict items =>
      P_Dict items
        ((fix values (items : list (string * json))
            : Forall (fun item => P (snd item)) items :=
            match items with
            | [] => Forall_nil _
            | item :: items' =>
                Forall_cons item (json_values_ind (snd item)) (values items')
            end) items)
  end.

End Induction.

End Settings.

(* ================================================================== *)
(** * Properties of core/input_manager.py *)
(* ================================================================== *)

Module InputManagerProofs.

Import InputManager.
Local Open Scope Q_scope.

Lemma deliver_all_app ds1 ds2 self :
  deliver_all (ds1 ++ ds2) self =
  let (self1, out1) := deliver_all ds1 self in
  let (self2, out2) := deliver_all ds2 self1 in
  (self2, out1 ++ out2).
Proof.
  revert self; induction ds1 as [|d ds1 IH]; intros self; simpl.
  - destruct (deliver_all ds2 self); reflexivity.
  - destruct (handle d self) as [s1 o1]. rewrite IH.
    destruct (deliver_all ds1 s1) as [s2 o2].
    destruct (deliver_all ds2 s2) as [s3 o3].
    now rewrite app_assoc.
Qed.

(** Key repeat: further key-downs of the push-to-talk key while it records. *)
Lemma ptt_repeat n self :
  _state self = RECORDING_PTT ->
  deliver_all (repeat (PTT down) n) self = (self, []).
Proof.
  intros H; induction n as [|n IH]; simpl; [reflexivity|].
  unfold _on_ptt_event; rewrite H, IH; reflexivity.
Qed.

(** C5: from Idle, a push-to-talk key-down followed by a key-up fires exactly
    one start and then one stop and is back in Idle, whatever number of
    repeated key-downs arrive in between; a key-down received in
    RecordingPTT changes nothing and fires nothing. *)
Theorem ptt_down_up_once (self : t) (repeats : nat) :
  (_state self = IDLE ->
     deliver_all ([PTT down] ++ repeat (PTT down) repeats ++ [PTT up]) self
     = (self, [on_recording_start; on_recording_stop]))
  /\ (_state self = RECORDING_PTT -> _on_ptt_event down self = (self, [])).
Proof.
  split; intros H.
  - destruct self as [st last]; simpl in H; subst st.
    cbn [app deliver_all handle _on_ptt_event _state _last_hf_time].
    rewrite deliver_all_app, ptt_repeat by reflexivity.
    reflexivity.
  - unfold _on_ptt_event; rewrite H; reflexivity.
Qed.

Lemma ptt_down_up_once_witness :
  deliver_all ([PTT down] ++ repeat (PTT down) 3 ++ [PTT up]) init
  = (init, [on_recording_start; on_recording_stop])
  /\ _on_ptt_event down (mk RECORDING_PTT 0) = (mk RECORDING_PTT 0, []).
Proof.
  split.
  - apply (proj1 (ptt_down_up_once init 3)). reflexivity.
  - apply (proj2 (ptt_down_up_once (mk RECORDING_PTT 0) 0)). reflexivity.
Defined.

(** The debounce test of [_on_hf_event], decided. *)
Lemma hf_inside_window now self :
  now - _last_hf_time self < 3 # 10 ->
  _on_hf_event now down self = (self, []).
Proof.
  intros H; unfold _on_hf_event.
  destruct (Qlt_le_dec (now - _last_hf_time self) (3 # 10)) as [_|Hge];
    [reflexivity | lra].
Qed.

Lemma hf_outside_window now self :
  3 # 10 <= now - _last_hf_time self ->
  _on_hf_event now down self =
  match _state self with
  | IDLE => (mk RECORDING_HF now, [on_recording_start])
  | RECORDING_HF => (mk IDLE now, [on_recording_stop])
  | RECORDING_PTT => (mk RECORDING_PTT now, [])
  end.
Proof.
  intros H; unfold _on_hf_event.
  destruct (Qlt_le_dec (now - _last_hf_time self) (3 # 10)) as [Hlt|_];
    [lra | reflexivity].
Qed.

(** C6: a hands-free key-down less than 300 ms after the previous accepted
    one is discarded, with no state change and no callback; one that comes
    300 ms or more after it toggles between Idle and RecordingHandsFree and
    fires start, respectively stop.  In particular, of two key-downs [gap]
    seconds apart, the second is dropped when [gap < 0.3] and toggles back
    when [0.3 <= gap]. *)
Theorem hf_debounce (self : t) (now gap : Q) :
  (now - _last_hf_time self < 3 # 10 ->
     _on_hf_event now down self = (self, []))
  /\ (3 # 10 <= now - _last_hf_time self ->
      (_state self = IDLE ->
         _on_hf_event now down self
         = (mk RECORDING_HF now, [on_recording_start]))
      /\ (_state self = RECORDING_HF ->
         _on_hf_event now down self
         = (mk IDLE now, [on_recording_stop]))
      /\ (_state self = IDLE -> gap < 3 # 10 ->
         deliver_all [HF now down; HF (now + gap) down] self
         = (mk RECORDING_HF now, [on_recording_start]))
      /\ (_state self = IDLE -> 3 # 10 <= gap ->
         deliver_all [HF now down; HF (now + gap) down] self
         = (mk IDLE (now + gap),
            [on_recording_start; on_recording_stop]))).
Proof.
  split; [apply hf_inside_window|].
  intros Hout; repeat split; intros Hst.
  - rewrite hf_outside_window, Hst by assumption; reflexivity.
  - rewrite hf_outside_window, Hst by assumption; reflexivity.
  - intros Hgap. cbn [deliver_all handle].
    rewrite hf_outside_window, Hst by assumption.
    rewrite hf_inside_window by (cbn [_last_hf_time]; lra).
    reflexivity.
  - intros Hgap. cbn [deliver_all handle].
    rewrite hf_outside_window, Hst by assumption.
    rewrite hf_outside_window by (cbn [_last_hf_time]; lra).
    reflexivity.
Qed.

Lemma hf_debounce_witness :
  _on_hf_event (1 # 10) down (mk RECORDING_HF 0) = (mk RECORDING_HF 0, [])
  /\ deliver_all [HF 1000 down; HF (1000 + (1 # 10)) down] init
     = (mk RECORDING_HF 1000, [on_recording_start])
  /\ deliver_all [HF 1000 down; HF (1000 + (5 # 10)) down] init
     = (mk IDLE (1000 + (5 # 10)), [on_recording_start; on_recording_stop]).
Proof.
  split; [|split].
  - apply (proj1 (hf_debounce (mk RECORDING_HF 0) (1 # 10) 0)).
    vm_compute; reflexivity.
  - apply (proj2 (hf_debounce init 1000 (1 # 10)));
      [vm_compute; discriminate | reflexivity | vm_compute; reflexivity].
  - apply (proj2 (hf_debounce init 1000 (5 # 10)));
      [vm_compute; discriminate | reflexivity | vm_compute; discriminate].
Defined.

(** C7, as the specification words it, does not hold: a hands-free key-down
    handled in RecordingPTT moves the debounce stamp, so a hands-free
    key-down that follows the release of the push-to-talk key within 300 ms
    is dropped, where it would have started a recording. *)
Lemma hf_in_ptt_is_observable :
  ~ (forall (self : t) (now : Q) (later : list delivery),
       _state self = RECORDING_PTT ->
       observe (deliver_all (HF now down :: later) self)
       = observe (deliver_all later self)).
Proof.
  intros H.
  specialize (H (mk RECORDING_PTT 0) 1000
                [PTT up; HF (1000 + (2 # 10)) down] eq_refl).
  vm_compute in H. discriminate H.
Qed.

(** Events of the push-to-talk key leave the debounce stamp as it is. *)
Lemma ptt_keeps_stamp (events : list event_type) : forall self,
  _last_hf_time (fst (deliver_all (map PTT events) self))
  = _last_hf_time self.
Proof.
  induction events as [|event events IH]; intros self; [reflexivity|].
  cbn [map deliver_all handle].
  assert (Hone : _last_hf_time (fst (_on_ptt_event event self))
                 = _last_hf_time self)
    by (unfold _on_ptt_event; destruct event, (_state self); reflexivity).
  destruct (_on_ptt_event event self) as [self1 out1].
  specialize (IH self1).
  destruct (deliver_all (map PTT events) self1) as [self2 out2].
  cbn [fst] in *. congruence.
Qed.

(** A key-down of the hands-free key inside the window is discarded, in
    every state. *)
Lemma hf_down_discarded (now : Q) (self : t) :
  now - _last_hf_time self < 3 # 10 ->
  _on_hf_event now down self = (self, []).
Proof.
  intros H. unfold _on_hf_event.
  destruct (Qlt_le_dec (now - _last_hf_time self) (3 # 10)) as [_|Hge];
    [reflexivity | lra].
Qed.

(** C7 (amended): a hands-free key event handled in RecordingPTT leaves the
    state RecordingPTT and fires no callback.  A key-up, and a key-down
    inside the 300 ms window, leave the whole object as it is.  A key-down
    outside the window is not without effect: it sets the debounce stamp to
    its own time and so becomes the previous accepted key-down, and a
    hands-free key-down that follows it within 300 ms is discarded, also
    after events of the push-to-talk key between the two. *)
Theorem hf_in_ptt_keeps_state (self : t) (now : Q) (event : event_type) :
  _state self = RECORDING_PTT ->
  let r := _on_hf_event now event self in
  _state (fst r) = RECORDING_PTT
  /\ snd r = []
  /\ is_recording (fst r) = true
  /\ (event = up \/ now - _last_hf_time self < 3 # 10 -> fst r = self)
  /\ (event = down -> 3 # 10 <= now - _last_hf_time self ->
      fst r = mk RECORDING_PTT now
      /\ forall (between : list event_type) (now' : Q),
           now' - now < 3 # 10 ->
           let self' := fst (deliver_all (map PTT between) (fst r)) in
           _on_hf_event now' down self' = (self', [])).
Proof.
  intros Hst; unfold is_recording. cbn zeta.
  assert (Hcases :
    (event = up \/ now - _last_hf_time self < 3 # 10) /\
    _on_hf_event now event self = (self, [])
    \/ (event = down /\ 3 # 10 <= now - _last_hf_time self) /\
       _on_hf_event now event self = (mk RECORDING_PTT now, [])).
  { unfold _on_hf_event. destruct event; [|left; auto].
    destruct (Qlt_le_dec (now - _last_hf_time self) (3 # 10)) as [Hlt|Hge];
      [left; auto | right; rewrite Hst; auto]. }
  destruct Hcases as [[Hleft ->] | [[-> Hge] ->]]; cbn [fst snd _state].
  - rewrite Hst. do 4 (split; [reflexivity|]).
    intros Hdown Hge. exfalso.
    destruct Hleft as [Hup | Hlt]; [congruence | lra].
  - do 3 (split; [reflexivity|]). split.
    + intros [Hup | Hlt]; [discriminate | lra].
    + intros _ _. split; [reflexivity|].
      intros between now' Hnear. apply hf_down_discarded.
      rewrite ptt_keeps_stamp. exact Hnear.
Qed.

Lemma hf_in_ptt_keeps_state_witness :
  let r := _on_hf_event 1000 down (mk RECORDING_PTT 0) in
  _state (fst r) = RECORDING_PTT
  /\ snd r = []
  /\ is_recording (fst r) = true
  /\ fst r = mk RECORDING_PTT 1000
  /\ _on_hf_event (1000 + (2 # 10)) down
       (fst (deliver_all (map PTT [up]) (fst r)))
     = (fst (deliver_all (map PTT [up]) (fst r)), []).
Proof.
  destruct (hf_in_ptt_keeps_state (mk RECORDING_PTT 0) 1000 down eq_refl)
    as (H1 & H2 & H3 & _ & H5).
  destruct (H5 eq_refl) as [H6 H7]; [vm_compute; discriminate|].
  split; [exact H1|]. split; [exact H2|]. split; [exact H3|].
  split; [exact H6|].
  apply (H7 [up] (1000 + (2 # 10))). reflexivity.
Defined.

End InputManagerProofs.

(* ================================================================== *)
(** * Properties of core/audio_capture.py *)
(* ================================================================== *)

Module AudioCaptureProofs.

Import AudioCapture.
Local Open Scope Z_scope.

(** ** Bytes and little-endian fields *)

Lemma Z_of_byte_of_Z z : Z_of_byte (byte_of_Z z) = z mod 256.
Proof.
  unfold Z_of_byte, byte_of_Z.
  assert (Hr : 0 <= z mod 256 < 256) by (apply Z.mod_pos_bound; lia).
  destruct (Byte.of_N (Z.to_N (z mod 256))) as [b|] eqn:E.
  - apply Byte.to_of_N in E. rewrite E. lia.
  - apply Byte.of_N_None_iff in E. lia.
Qed.

Lemma length_pack_le w v : length (pack_le w v) = w.
Proof. revert v; induction w; intros; simpl; auto. Qed.

Lemma unpack_pack_le w v :
  0 <= v < 256 ^ Z.of_nat w -> unpack_le (pack_le w v) = v.
Proof.
  revert v; induction w as [|w IH]; intros v Hv.
  - simpl in *. lia.
  - cbn [pack_le unpack_le]. rewrite Z_of_byte_of_Z.
    rewrite Nat2Z.inj_succ, Z.pow_succ_r in Hv by lia.
    rewrite IH.
    + pose proof (Z.div_mod v 256). lia.
    + split; [apply Z.div_pos; lia|].
      apply Z.div_lt_upper_bound; lia.
Qed.

Lemma struct_pack_in_range w v :
  0 <= v < 256 ^ Z.of_nat w -> struct_pack w v = Some (pack_le w v).
Proof.
  intros [H0 H1]; unfold struct_pack.
  apply Z.leb_le in H0; apply Z.ltb_lt in H1. now rewrite H0, H1.
Qed.

(** A sample in the [int16] range is read back from its two bytes. *)
Lemma frombuffer_tobytes samples :
  Forall int16 samples -> frombuffer (tobytes samples) = samples.
Proof.
  induction 1 as [|s samples Hs _ IH]; [reflexivity|].
  change (tobytes (s :: samples))
    with (byte_of_Z s :: byte_of_Z (s / 256) :: tobytes samples).
  cbn [frombuffer unpack_le]. rewrite IH. f_equal.
  rewrite !Z_of_byte_of_Z. unfold int16 in Hs. unfold to_signed16.
  pose proof (Z.div_mod s 256 ltac:(lia)) as Hs1.
  pose proof (Z.div_mod (s / 256) 256 ltac:(lia)) as Hs2.
  pose proof (Z.mod_pos_bound s 256 ltac:(lia)).
  pose proof (Z.mod_pos_bound (s / 256) 256 ltac:(lia)).
  assert (-128 <= s / 256 < 128).
  { split; [apply Z.div_le_lower_bound; lia
           | apply Z.div_lt_upper_bound; lia]. }
  assert (Hq : (s / 256) / 256 = 0 \/ (s / 256) / 256 = -1) by lia.
  destruct (_ <? _) eqn:E; [apply Z.ltb_lt in E | apply Z.ltb_ge in E]; lia.
Qed.

Lemma length_tobytes samples :
  Z.of_nat (length (tobytes samples)) = 2 * Z.of_nat (length samples).
Proof.
  induction samples as [|s samples IH]; [reflexivity|].
  change (tobytes (s :: samples))
    with (byte_of_Z s :: byte_of_Z (s / 256) :: tobytes samples).
  cbn [length]. rewrite !Nat2Z.inj_succ. lia.
Qed.

Lemma tobytes_app xs ys : tobytes (xs ++ ys) = tobytes xs ++ tobytes ys.
Proof. apply flat_map_app. Qed.

(** The bytes of the concatenated blocks are the blocks' bytes, in order. *)
Lemma tobytes_concatenate blocks :
  tobytes (flatten (concat blocks)) = concat (map block_bytes blocks).
Proof.
  induction blocks as [|a blocks IH]; [reflexivity|].
  unfold flatten in *. cbn [concat map].
  now rewrite concat_app, tobytes_app, IH.
Qed.

Lemma length_flatten channels a :
  has_channels channels a ->
  Z.of_nat (length (flatten a)) = channels * Z.of_nat (length a).
Proof.
  induction 1 as [|row a Hrow _ IH]; [simpl; lia|].
  unfold flatten in *; cbn [concat length].
  rewrite length_app, Nat2Z.inj_add, IH, Hrow, Nat2Z.inj_succ. lia.
Qed.

(** Blocks of [channels] columns hold whole sample frames. *)
Lemma length_blocks channels blocks :
  Forall (has_channels channels) blocks ->
  exists rows,
    Z.of_nat (length (concat (map block_bytes blocks))) = channels * 2 * rows.
Proof.
  induction 1 as [|a blocks Ha _ [rows IH]].
  - exists 0; simpl; lia.
  - exists (Z.of_nat (length a) + rows). cbn [map concat].
    rewrite length_app, Nat2Z.inj_add, IH. unfold block_bytes.
    rewrite length_tobytes, (length_flatten channels) by assumption. lia.
Qed.

(** ** The reader on what the writer wrote *)

Lemma take_app n a rest :
  length a = n -> wave.take n (a ++ rest) = Some (a, rest).
Proof.
  intros <-; unfold wave.take.
  rewrite length_app, (proj2 (Nat.leb_le _ _)) by lia.
  now rewrite firstn_app, firstn_all, Nat.sub_diag, app_nil_r,
    skipn_app, skipn_all, Nat.sub_diag.
Qed.

Lemma uint_pack w v rest :
  0 <= v < 256 ^ Z.of_nat w ->
  wave.uint w (pack_le w v ++ rest) = Some (v, rest).
Proof.
  intros Hv; unfold wave.uint.
  rewrite take_app by apply length_pack_le.
  cbn [wave.bind fst snd]. now rewrite unpack_pack_le.
Qed.

Lemma tag_app name rest : wave.tag name (name ++ rest) = Some rest.
Proof.
  unfold wave.tag. rewrite take_app by reflexivity. cbn [wave.bind fst snd].
  destruct (list_eq_dec Byte.byte_eq_dec name name); congruence.
Qed.

Lemma guard_true b : b = true -> wave.guard b = Some tt.
Proof. now intros ->. Qed.

Ltac in_range :=
  change (256 ^ Z.of_nat 4) with 4294967296;
  change (256 ^ Z.of_nat 2) with 65536;
  unfold wave.WAVE_FORMAT_PCM; nia.

(** A file written from whole sample frames is read back with the
    parameters it was written with and the same run of bytes. *)
Lemma read_write nch rate data rows :
  1 <= nch -> nch * 2 < 2 ^ 16 ->
  1 <= rate -> nch * rate * 2 < 2 ^ 32 ->
  36 + Z.of_nat (length data) < 2 ^ 32 ->
  Z.of_nat (length data) = nch * 2 * rows ->
  exists wav,
    wave.write nch 2 rate data = Some wav
    /\ wave.read wav = Some (wave.mk_params nch 2 rate, data).
Proof.
  intros Hnch Hblock Hrate Hbyterate Hlen Hrows.
  assert (Hlen0 : 0 <= Z.of_nat (length data)) by lia.
  change (2 ^ 16) with 65536 in *. change (2 ^ 32) with 4294967296 in *.
  unfold wave.write, wave.file.
  rewrite (proj2 (Z.ltb_ge nch 1)), (proj2 (Z.leb_gt rate 0)) by lia.
  cbn [orb].
  rewrite !struct_pack_in_range by in_range.
  cbn [wave.bind]. eexists; split; [reflexivity|].
  unfold wave.read.
  rewrite tag_app; cbn [wave.bind].
  rewrite uint_pack by in_range; cbn [wave.bind].
  rewrite guard_true; cbn [wave.bind].
  2:{ apply Z.eqb_eq. rewrite !length_app, !length_pack_le.
      cbn [wave.WAVE wave.fmt_ wave.data_ length]. lia. }
  rewrite tag_app; cbn [wave.bind].
  rewrite tag_app; cbn [wave.bind].
  rewrite uint_pack by in_range; cbn [wave.bind].
  rewrite guard_true by reflexivity; cbn [wave.bind].
  rewrite uint_pack by in_range; cbn [wave.bind].
  rewrite guard_true by reflexivity; cbn [wave.bind].
  rewrite uint_pack by in_range; cbn [wave.bind].
  rewrite uint_pack by in_range; cbn [wave.bind].
  rewrite uint_pack by in_range; cbn [wave.bind].
  rewrite uint_pack by in_range; cbn [wave.bind].
  rewrite uint_pack by in_range; cbn [wave.bind].
  change (2 * 8 / 8) with 2. change (2 * 8 mod 8) with 0.
  rewrite guard_true; cbn [wave.bind].
  2:{ rewrite !andb_true_iff, !Z.leb_le, !Z.eqb_eq. lia. }
  rewrite tag_app; cbn [wave.bind].
  rewrite uint_pack by in_range; cbn [wave.bind].
  rewrite guard_true; cbn [wave.bind]; [reflexivity|].
  rewrite andb_true_iff, !Z.eqb_eq. split; [reflexivity|].
  rewrite Hrows, (Z.mul_comm (nch * 2) rows). apply Z.mod_mul. lia.
Qed.

Lemma capture_frames blocks self :
  is_recording self = true ->
  capture blocks self
  = mk (sample_rate self) (channels self) true (_frames self ++ blocks).
Proof.
  revert self; induction blocks as [|a blocks IH]; intros self Hrec.
  - cbn [capture fold_left]. rewrite app_nil_r.
    destruct self; cbn in *; now subst.
  - change (capture (a :: blocks) self)
      with (capture blocks (_audio_callback a self)).
    unfold _audio_callback; rewrite Hrec, IH by reflexivity.
    cbn [sample_rate channels _frames]. now rewrite <- app_assoc.
Qed.

(** Blocks of the configured width go together. *)
Lemma concatenate_has_channels channels blocks :
  blocks <> [] ->
  Forall (has_channels channels) blocks ->
  concatenate blocks = Some (concat blocks).
Proof.
  intros Hne Hshape. unfold concatenate.
  destruct blocks as [|a blocks]; [congruence|].
  assert (Hrows : Forall (fun row => Z.of_nat (length row) = channels)
                    (concat (a :: blocks)))
    by (apply Forall_concat; exact Hshape).
  destruct (concat (a :: blocks)) as [|row rows]; [reflexivity|].
  unfold same_width.
  inversion Hrows as [|? ? Hrow Hrest]; subst.
  rewrite (proj2 (forallb_forall _ rows)); [reflexivity|].
  intros r Hr. rewrite Forall_forall in Hrest.
  apply Nat.eqb_eq. specialize (Hrest r Hr). lia.
Qed.

(** C10: after [start], the capture of [blocks] and [stop], the snapshot of
    the whole recording is [None] when no block was appended; otherwise it
    is a RIFF/WAVE file that reads back with the configured channel count
    and sample rate and a sample width of two bytes, whose data chunk is the
    blocks' bytes one after the other in arrival order, and these bytes
    read as 16-bit little-endian samples are the captured samples.  The
    header fields are 16 and 32 bits wide, which bounds the parameters and
    the length that a file can carry. *)
Theorem snapshot_is_wav_of_frames (self0 : t) (blocks : list ndarray) :
  let self := stop (capture blocks (start self0)) in
  let pcm := concat (map block_bytes blocks) in
  (blocks = [] -> get_audio_data self = Returns None)
  /\ (blocks <> [] ->
      1 <= channels self0 -> channels self0 * 2 < 2 ^ 16 ->
      1 <= sample_rate self0 ->
      channels self0 * sample_rate self0 * 2 < 2 ^ 32 ->
      36 + Z.of_nat (length pcm) < 2 ^ 32 ->
      Forall (has_channels (channels self0)) blocks ->
      exists wav,
        get_audio_data self = Returns (Some wav)
        /\ wave.read wav
           = Some (wave.mk_params (channels self0) 2 (sample_rate self0), pcm)
        /\ (Forall (Forall (Forall int16)) blocks ->
            frombuffer pcm = flatten (concat blocks))).
Proof.
  intros self pcm; subst self pcm.
  rewrite capture_frames by reflexivity.
  unfold stop, start, get_audio_data, _to_wav;
    cbn [sample_rate channels _frames app].
  split; [intros ->; reflexivity|].
  intros Hne Hch Hblock Hrate Hbyterate Hlen Hshape.
  destruct (length_blocks _ _ Hshape) as [rows Hrows].
  destruct (read_write (channels self0) (sample_rate self0) _ rows
              Hch Hblock Hrate Hbyterate Hlen Hrows) as (wav & Hw & Hr).
  destruct blocks as [|a blocks]; [congruence|].
  rewrite (concatenate_has_channels (channels self0)) by assumption.
  cbn zeta. rewrite tobytes_concatenate, Hw.
  exists wav; repeat split; [exact Hr|].
  intros Hint. rewrite <- tobytes_concatenate.
  apply frombuffer_tobytes.
  unfold flatten. apply Forall_concat, Forall_concat. exact Hint.
Qed.

Lemma snapshot_is_wav_of_frames_witness :
  let blocks := [[[1]; [-2]]; [[3]]] in
  let self := stop (capture blocks (start (init 16000 1))) in
  let pcm := concat (map block_bytes blocks) in
  exists wav,
    get_audio_data self = Returns (Some wav)
    /\ wave.read wav = Some (wave.mk_params 1 2 16000, pcm)
    /\ frombuffer pcm = [1; -2; 3].
Proof.
  cbn zeta.
  destruct (proj2 (snapshot_is_wav_of_frames (init 16000 1)
                     [[[1]; [-2]]; [[3]]])) as (wav & H1 & H2 & H3).
  - discriminate.
  - cbn; lia.
  - cbn; lia.
  - cbn; lia.
  - cbn; lia.
  - cbn; lia.
  - repeat constructor.
  - exists wav. split; [exact H1|]. split; [exact H2|].
    apply H3. repeat constructor; unfold int16; lia.
Defined.

End AudioCaptureProofs.

(* ================================================================== *)
(** * Properties of llm/gemini_formatter.py *)
(* ================================================================== *)

Module GeminiFormatterProofs.

Import GeminiFormatter GeminiFormatterSpec.
Local Open Scope string_scope.
Local Open Scope Q_scope.

(** ** Runs of digits and their values *)

Lemma span_spec p s :
  all p (fst (Str.span p s)) = true
  /\ stops p (snd (Str.span p s)) = true
  /\ s = fst (Str.span p s) ++ snd (Str.span p s).
Proof.
  induction s as [|c s (Hall & Hstop & Heq)]; cbn [Str.span]; auto.
  destruct (p c) eqn:Hc.
  - destruct (Str.span p s) as [run rest]; cbn [fst snd all append] in *.
    rewrite Hc, Hall. repeat split; congruence.
  - cbn [fst snd all stops append]. rewrite Hc. auto.
Qed.

Lemma span_app p run rest :
  all p run = true -> stops p rest = true ->
  Str.span p (run ++ rest) = (run, rest).
Proof.
  intros Hall Hstop; induction run as [|c run IH]; cbn [append].
  - destruct rest as [|c rest]; [reflexivity|].
    cbn [stops Str.span] in *.
    now destruct (p c).
  - cbn [all] in Hall. apply andb_true_iff in Hall as [Hc Hall].
    cbn [Str.span]. now rewrite Hc, IH.
Qed.

Lemma digit_value c : Str.isdigit c = true -> (0 <= Z.of_nat (Str.code c) - 48)%Z.
Proof.
  unfold Str.isdigit, Str.between. intros H.
  apply andb_true_iff in H as [H _]. apply Nat.leb_le in H. lia.
Qed.

Lemma int_from_nonneg digits : forall acc,
  all Str.isdigit digits = true -> (0 <= acc)%Z ->
  (0 <= Str.int_from acc digits)%Z.
Proof.
  induction digits as [|c digits IH]; intros acc Hall Hacc; cbn; [assumption|].
  cbn [all] in Hall. apply andb_true_iff in Hall as [Hc Hall].
  apply IH; [assumption|]. pose proof (digit_value c Hc). lia.
Qed.

Lemma int_nonneg digits :
  all Str.isdigit digits = true -> (0 <= Str.int digits)%Z.
Proof. intros H; apply int_from_nonneg; [assumption | lia]. Qed.

Lemma append_empty s : s ++ "" = s.
Proof. induction s as [|c s IH]; cbn; congruence. Qed.

(** [float] of a run of digits is its integer value. *)
Lemma float_digits digits :
  all Str.isdigit digits = true ->
  Str.float digits = inject_Z (Str.int digits).
Proof.
  intros H. unfold Str.float.
  rewrite <- (append_empty digits) at 1.
  now rewrite span_app.
Qed.

Lemma float_decimal whole fraction :
  all Str.isdigit whole = true ->
  Str.float (whole ++ "." ++ fraction)
  = inject_Z (Str.int whole)
    + (Str.int fraction # Z.to_pos (10 ^ Z.of_nat (String.length fraction))).
Proof.
  intros H. unfold Str.float. now rewrite span_app.
Qed.

Lemma Qnonneg_make n d : (0 <= n)%Z -> 0 <= n # d.
Proof. intros H; unfold Qle; cbn; lia. Qed.

Lemma float_decimal_nonneg whole fraction :
  all Str.isdigit whole = true -> all Str.isdigit fraction = true ->
  0 <= Str.float (whole ++ "." ++ fraction).
Proof.
  intros Hw Hf. rewrite float_decimal by assumption.
  pose proof (int_nonneg _ Hw) as H1.
  pose proof (Qnonneg_make (Str.int fraction)
                (Z.to_pos (10 ^ Z.of_nat (String.length fraction)))
                (int_nonneg _ Hf)) as H2.
  assert (H3 : 0 <= inject_Z (Str.int whole))
    by (unfold Qle; cbn; lia).
  lra.
Qed.

(** ** What the two patterns capture *)

Lemma decimal_nonneg text : decimal text -> 0 <= Str.float text.
Proof.
  intros [H | (whole & fraction & -> & Hw & Hf)].
  - rewrite float_digits by assumption.
    pose proof (int_nonneg _ H). unfold Qle; cbn; lia.
  - now apply float_decimal_nonneg.
Qed.

Lemma match_retry_in_decimal s group :
  match_retry_in s = Some group -> decimal group.
Proof.
  unfold match_retry_in.
  destruct (Str.prefix_ignorecase "retry in " s); [|discriminate].
  pose proof (span_spec Str.isdigit (Str.drop 9 s)) as (Hw & _ & _).
  destruct (Str.span Str.isdigit (Str.drop 9 s)) as [whole rest].
  cbn [fst snd] in Hw.
  destruct whole as [|c whole]; [discriminate|].
  assert (Hplain :
    (if Str.prefix_ignorecase "s" rest then Some (String c whole) else None)
    = Some group -> decimal group).
  { destruct (Str.prefix_ignorecase "s" rest); [|discriminate].
    intros [= <-]. now left. }
  destruct rest as [|r rest]; [exact Hplain|].
  destruct (ascii_dec r ".") as [->|Hr].
  - pose proof (span_spec Str.isdigit rest) as (Hf & _ & _).
    destruct (Str.span Str.isdigit rest) as [fraction rest''].
    cbn [fst snd] in Hf.
    destruct fraction as [|f fraction]; [discriminate|].
    destruct (Str.prefix_ignorecase "s" rest''); [|discriminate].
    intros [= <-]. right. now exists (String c whole), (String f fraction).
  - intros H; apply Hplain; revert H.
    destruct r as [[] [] [] [] [] [] [] []]; try exact (fun H => H).
    now contradiction Hr.
Qed.

Lemma match_retryDelay_digits s group :
  match_retryDelay s = Some group -> all Str.isdigit group = true.
Proof.
  unfold match_retryDelay.
  destruct (prefix "retryDelay" s); [|discriminate].
  destruct (Str.lstrip _) as [|c s2]; [discriminate|].
  destruct (_ || _); [|discriminate].
  pose proof (span_spec Str.isdigit (skip_quote (Str.lstrip s2))) as (Hd & _).
  destruct (Str.span _ _) as [digits rest]. cbn [fst] in Hd.
  destruct digits; [discriminate|]. now intros [= <-].
Qed.

Lemma search_found at_head s group :
  search at_head s = Some group -> exists s', at_head s' = Some group.
Proof.
  induction s as [|c s IH]; cbn [search].
  - destruct (at_head "") eqn:E; [intros [= <-]; eauto | discriminate].
  - destruct (at_head (String c s)) eqn:E; [intros [= <-]; eauto | exact IH].
Qed.

Lemma parse_retry_delay_suggested error_msg :
  match suggested error_msg with
  | Some seconds =>
      _parse_retry_delay error_msg = seconds + 2 /\ 0 <= seconds
  | None => _parse_retry_delay error_msg = 0
  end.
Proof.
  unfold suggested, _parse_retry_delay.
  destruct (search match_retry_in error_msg) as [numeral|] eqn:E1.
  - apply search_found in E1 as [s' E1].
    apply match_retry_in_decimal, decimal_nonneg in E1. auto.
  - destruct (search match_retryDelay error_msg) as [digits|] eqn:E2;
      [|reflexivity].
    apply search_found in E2 as [s' E2].
    apply match_retryDelay_digits in E2.
    rewrite float_digits by assumption. split; [reflexivity|].
    pose proof (int_nonneg _ E2). unfold Qle; cbn; lia.
Qed.

(** ** One attempt of the loop *)

Local Open Scope list_scope.

Section OneModel.

Variable w : world.
Variables prompt model : string.

Lemma attempts_success attempt range delay st text :
  service w (requests st) model prompt = generated (Some text) ->
  attempts w (attempt :: range) delay prompt model st
  = (Returns (Some (Str.strip text)), called model prompt st).
Proof.
  intros H. cbn [attempts]. unfold bind, client_generate_content.
  now rewrite H.
Qed.

Lemma attempts_abort attempt range delay st error_msg :
  error_of (service w (requests st) model prompt) = Some error_msg ->
  is_rate_limit error_msg = false ->
  attempts w (attempt :: range) delay prompt model st
  = (Returns None, called model prompt st).
Proof.
  intros He Hr. cbn [attempts]. unfold bind, client_generate_content.
  destruct (service w (requests st) model prompt) as [[text|]|msg];
    cbn [error_of] in He; [discriminate| |];
    injection He as <-; try unfold NoneType_error in *; rewrite Hr;
    repeat match goal with |- context [if ?b then _ else _] => destruct b end;
    reflexivity.
Qed.

Lemma attempts_exhausted attempt range delay st error_msg :
  error_of (service w (requests st) model prompt) = Some error_msg ->
  is_rate_limit error_msg = true ->
  (MAX_RETRIES <= attempt)%nat ->
  attempts w (attempt :: range) delay prompt model st
  = (Returns None, called model prompt st).
Proof.
  intros He Hr Ha. apply Nat.leb_le in Ha.
  cbn [attempts]. unfold bind, client_generate_content.
  destruct (service w (requests st) model prompt) as [[text|]|msg];
    cbn [error_of] in He; [discriminate| |];
    injection He as <-; try unfold NoneType_error in *; rewrite Hr, Ha; reflexivity.
Qed.

(** A rate-limit error before the last attempt: the wait is found, and
    [time.sleep] is called with it; where the call returns the loop goes
    on, and where it raises the run ends with its exception. *)
Lemma attempts_retry attempt range delay st error_msg :
  error_of (service w (requests st) model prompt) = Some error_msg ->
  is_rate_limit error_msg = true ->
  (attempt < MAX_RETRIES)%nat ->
  attempts w (attempt :: range) delay prompt model st
  = let (wait, st') := retry_wait w delay error_msg (called model prompt st) in
    match sleep_outcome w wait with
    | Returns _ =>
        attempts w range (next_delay delay) prompt model (slept wait st')
    | Raises e => (Raises e, slept wait st')
    end.
Proof.
  intros He Hr Ha. apply Nat.leb_gt in Ha.
  cbn [attempts]. unfold bind at 1. unfold client_generate_content.
  destruct (service w (requests st) model prompt) as [[text|]|msg];
    cbn [error_of] in He; [discriminate| |];
    injection He as <-; try unfold NoneType_error in *; rewrite Hr, Ha;
    unfold bind, time_sleep, called;
    destruct (retry_wait w delay _ _) as [wait st'];
    destruct (sleep_outcome w wait); reflexivity.
Qed.

(** An attempt ends in a text or in an error. *)
Lemma attempt_cases (r : response) :
  (exists text, r = generated (Some text))
  \/ (exists error_msg, error_of r = Some error_msg).
Proof. destruct r as [[text|]|msg]; cbn; eauto. Qed.

(** [time.sleep] returns for the delays it takes, and raises for the
    others. *)
Lemma sleep_outcome_cases wait :
  (accepted w wait /\ sleep_outcome w wait = Returns tt)
  \/ (~ accepted w wait
      /\ exists message, sleep_outcome w wait = Raises (Exception message)).
Proof.
  unfold accepted, sleep_outcome.
  destruct (Qlt_le_dec wait 0) as [Hneg|Hpos].
  - right. split; [intros [H _]; lra | eauto].
  - destruct (Qlt_le_dec (sleep_max w) wait) as [Hlong|Hshort].
    + right. split; [intros [_ H]; lra | eauto].
    + left. auto.
Qed.

Lemma sleep_accepted wait :
  accepted w wait -> sleep_outcome w wait = Returns tt.
Proof.
  intros H. destruct (sleep_outcome_cases wait) as [[_ E]|[Hn _]];
    [exact E | contradiction].
Qed.

(** The wait of a retried attempt: the server's number and the margin, or
    the randomised delay under its cap; only the second draws a number. *)
Lemma retry_wait_spec delay error_msg st :
  match suggested error_msg with
  | Some seconds => retry_wait w delay error_msg st = (seconds + 2, st)
  | None =>
      retry_wait w delay error_msg st
      = (min (delay * uniform w (draws st)) MAX_DELAY,
         mk_state (requests st) (S (draws st)) (log st))
  end.
Proof.
  pose proof (parse_retry_delay_suggested error_msg) as H.
  unfold retry_wait.
  destruct (suggested error_msg) as [seconds|].
  - destruct H as [-> Hpos].
    destruct (Qlt_le_dec 0 (seconds + 2)) as [_|Hle]; [reflexivity | lra].
  - rewrite H.
    destruct (Qlt_le_dec 0 0) as [Hlt|_]; [lra | reflexivity].
Qed.

Lemma retry_wait_state delay error_msg st :
  requests (snd (retry_wait w delay error_msg st)) = requests st
  /\ log (snd (retry_wait w delay error_msg st)) = log st.
Proof.
  pose proof (retry_wait_spec delay error_msg st) as H.
  destruct (suggested error_msg); rewrite H; auto.
Qed.

(** A run only adds to the log, and what it adds begins with a request. *)
Lemma attempts_log range : forall delay st,
  exists more,
    log (snd (attempts w range delay prompt model st)) = log st ++ more
    /\ (range <> [] ->
        exists more', more = generate_content model prompt :: more').
Proof.
  induction range as [|attempt range IH]; intros delay st.
  - exists []. cbn. rewrite app_nil_r. split; [reflexivity | congruence].
  - assert (Hdone :
      (exists r, attempts w (attempt :: range) delay prompt model st
                 = (r, called model prompt st))
      -> exists more,
        log (snd (attempts w (attempt :: range) delay prompt model st))
        = log st ++ more
        /\ (attempt :: range <> [] ->
            exists more', more = generate_content model prompt :: more')).
    { intros [r ->]; exists [generate_content model prompt]; cbn; eauto. }
    destruct (attempt_cases (service w (requests st) model prompt))
      as [[text Hs] | [error_msg He]].
    + apply Hdone. eexists. exact (attempts_success _ _ _ _ text Hs).
    + destruct (is_rate_limit error_msg) eqn:Hr.
      * destruct (le_lt_dec MAX_RETRIES attempt) as [Ha|Ha].
        -- apply Hdone. eexists.
           now apply (attempts_exhausted _ _ _ _ error_msg).
        -- rewrite (attempts_retry _ _ _ _ error_msg) by assumption.
           pose proof (retry_wait_state delay error_msg (called model prompt st))
             as [_ Hlog].
           destruct (retry_wait w delay error_msg (called model prompt st))
             as [wait st']. cbn [snd] in Hlog.
           destruct (sleep_outcome w wait) as [[]|e].
           ++ destruct (IH (next_delay delay) (slept wait st'))
                as (more & -> & _).
              cbn [slept log]. rewrite Hlog. cbn [called log].
              exists (generate_content model prompt :: sleep wait :: more).
              rewrite <- !app_assoc. cbn. eauto.
           ++ cbn [snd slept log]. rewrite Hlog. cbn [called log].
              exists [generate_content model prompt; sleep wait].
              rewrite <- !app_assoc. cbn. eauto.
      * apply Hdone. eexists. now apply (attempts_abort _ _ _ _ error_msg).
Qed.

(** A text that a run returns is the stripped text of an answer. *)
Lemma attempts_text range : forall delay st t,
  fst (attempts w range delay prompt model st) = Returns (Some t) ->
  exists n text,
    service w n model prompt = generated (Some text) /\ t = Str.strip text.
Proof.
  induction range as [|attempt range IH]; intros delay st t; [discriminate|].
  destruct (attempt_cases (service w (requests st) model prompt))
    as [[text Hs] | [error_msg He]].
  - rewrite (attempts_success _ _ _ _ text) by assumption.
    intros [= <-]. eauto.
  - destruct (is_rate_limit error_msg) eqn:Hr.
    + destruct (le_lt_dec MAX_RETRIES attempt) as [Ha|Ha].
      * now rewrite (attempts_exhausted _ _ _ _ error_msg).
      * rewrite (attempts_retry _ _ _ _ error_msg) by assumption.
        destruct (retry_wait w delay error_msg (called model prompt st))
          as [wait st'].
        destruct (sleep_outcome w wait); [apply IH | discriminate].
    + now rewrite (attempts_abort _ _ _ _ error_msg).
Qed.

(** An exception that a run ends in is that of a call of [time.sleep] with
    a delay it does not take. *)
Lemma attempts_raises range : forall delay st e,
  fst (attempts w range delay prompt model st) = Raises e ->
  exists wait, ~ accepted w wait /\ sleep_outcome w wait = Raises e.
Proof.
  induction range as [|attempt range IH]; intros delay st e; [discriminate|].
  destruct (attempt_cases (service w (requests st) model prompt))
    as [[text Hs] | [error_msg He]].
  - now rewrite (attempts_success _ _ _ _ text).
  - destruct (is_rate_limit error_msg) eqn:Hr.
    + destruct (le_lt_dec MAX_RETRIES attempt) as [Ha|Ha].
      * now rewrite (attempts_exhausted _ _ _ _ error_msg).
      * rewrite (attempts_retry _ _ _ _ error_msg) by assumption.
        destruct (retry_wait w delay error_msg (called model prompt st))
          as [wait st'].
        destruct (sleep_outcome_cases wait) as [[_ E]|[Hn [message E]]];
          rewrite E; [apply IH|].
        cbn [fst]. intros [= <-]. eauto.
    + now rewrite (attempts_abort _ _ _ _ error_msg).
Qed.

(** ** A run of rate-limited attempts *)

Lemma length_waits_of errors : forall delay drawn,
  length (waits_of w delay drawn errors) = length errors.
Proof.
  induction errors as [|e errors IH]; intros; cbn; [reflexivity|].
  destruct (suggested e); cbn; now rewrite IH.
Qed.

Lemma sleeps_of_retries waits :
  sleeps_of (retries prompt model waits) = waits.
Proof.
  unfold sleeps_of, retries.
  induction waits as [|x waits IH]; simpl; congruence.
Qed.

Lemma requests_of_retries waits :
  requests_of (retries prompt model waits) = repeat (model, prompt) (length waits).
Proof.
  unfold requests_of, retries.
  induction waits as [|x waits IH]; simpl; congruence.
Qed.

Lemma attempts_throttled n : forall attempt delay st range,
  (attempt + n <= MAX_RETRIES)%nat ->
  (forall i, (requests st <= i < requests st + n)%nat ->
             rate_limited (service w i model prompt)) ->
  Forall (accepted w)
    (waits_of w delay (draws st)
       (errors_from w prompt model (requests st) n)) ->
  attempts w (seq attempt n ++ range) delay prompt model st
  = attempts w range (delay_after n delay) prompt model
      (mk_state (requests st + n)
                (draws_of (draws st) (errors_from w prompt model (requests st) n))
                (log st
                 ++ retries prompt model (waits_of w delay (draws st)
                               (errors_from w prompt model (requests st) n)))).
Proof.
  induction n as [|n IH]; intros attempt delay st range Hmax Hall Hacc.
  - destruct st; cbn. now rewrite Nat.add_0_r, app_nil_r.
  - destruct (Hall (requests st)) as (error_msg & He & Hr); [lia|].
    cbn [seq app].
    rewrite (attempts_retry _ _ _ _ error_msg) by (assumption || lia).
    revert Hacc.
    change (errors_from w prompt model (requests st) (S n))
      with (the_error (service w (requests st) model prompt)
            :: errors_from w prompt model (S (requests st)) n).
    unfold the_error at 1 2 3. rewrite He. cbn [waits_of draws_of].
    pose proof (retry_wait_spec delay error_msg (called model prompt st)) as Hw.
    destruct (suggested error_msg) as [seconds|]; rewrite Hw;
      intros Hacc; inversion Hacc as [|? ? Hfirst Hrest]; subst;
      change (draws (called model prompt st)) with (draws st);
      rewrite (sleep_accepted _ Hfirst);
      (rewrite IH;
       [ cbn [slept called requests draws log retries flat_map delay_after];
         rewrite <- !app_assoc, <- plus_n_Sm; reflexivity
       | lia
       | intros i Hi; apply Hall; cbn [slept called requests] in Hi; lia
       | exact Hrest ]).
Qed.

(** The waits of a run are delays that [time.sleep] takes, when it takes
    the computed waits and those that the service suggests. *)
Lemma waits_of_accepted k n :
  (forall i, 0 <= random w i <= 1) ->
  sleeps_accepted w prompt model ->
  forall delay drawn,
    0 <= delay ->
    Forall (accepted w)
      (waits_of w delay drawn (errors_from w prompt model k n)).
Proof.
  intros Hrandom [Hmax Hserver]. revert k.
  induction n as [|n IH]; intros k delay drawn Hdelay; [constructor|].
  change (errors_from w prompt model k (S n))
    with (the_error (service w k model prompt)
          :: errors_from w prompt model (S k) n).
  cbn [waits_of].
  assert (Hnext : 0 <= next_delay delay).
  { unfold next_delay, min, DELAY_MULTIPLIER, MAX_DELAY.
    destruct (Qlt_le_dec 60 (delay * 2)); lra. }
  pose proof (parse_retry_delay_suggested
                (the_error (service w k model prompt))) as Hs.
  destruct (suggested (the_error (service w k model prompt)))
    as [seconds|] eqn:E.
  - constructor; [|now apply IH].
    split; [destruct Hs as [_ Hs]; lra | now apply (Hserver k)].
  - constructor; [|now apply IH].
    pose proof (Hrandom drawn) as Hr.
    assert (Hu : 0 <= uniform w drawn) by (unfold uniform; lra).
    assert (Hprod : 0 <= delay * uniform w drawn)
      by now apply Qmult_le_0_compat.
    unfold accepted, min, MAX_DELAY.
    destruct (Qlt_le_dec 60 (delay * uniform w drawn)); split; lra.
Qed.

End OneModel.

(** C2: for a model whose every answer reports a rate limit the backoff
    procedure is to make six requests, sleep after each of the first five
    and give the model up.  The formatter misses it where the service
    suggests a wait that [time.sleep] does not take: the suggested wait is
    not held under any cap, the call of [time.sleep] raises in the [except]
    block, and the run ends after one request with that exception, not with
    failure after the sixth. *)
Lemma throttled_run_ends_in_sleep_error :
  let w := mk_world (fun _ _ _ => failed "429 retry in 99999999999s")
                    (fun _ => 0) 9223372036 in
  (forall i, rate_limited (service w i "m" "p"))
  /\ exists wait,
       _send_with_exponential_backoff w "p" "m" initial
       = (Raises (Exception "OverflowError"),
          mk_state 1 0 [generate_content "m" "p"; sleep wait])
       /\ wait == 100000000001.
Proof.
  cbn zeta. split.
  - intros i. eexists. split; reflexivity.
  - eexists. split; [vm_compute; reflexivity | reflexivity].
Qed.

(** Where [time.sleep] takes the waits, the count is as it is to be: when
    every answer of a model reports a rate limit, the backoff procedure
    sends six requests, sleeps after each of the first five and gives the
    model up on the sixth answer, without a further sleep. *)
Theorem throttled_model_gives_up (w : world) (prompt model : string)
    (st : state) :
  (forall i, rate_limited (service w i model prompt)) ->
  (forall i, 0 <= random w i <= 1) ->
  sleeps_accepted w prompt model ->
  exists waits drawn,
    let new := retries prompt model waits ++ [generate_content model prompt] in
    _send_with_exponential_backoff w prompt model st
    = (Returns None, mk_state (requests st + 6) drawn (log st ++ new))
    /\ length waits = 5%nat
    /\ sleeps_of new = waits
    /\ requests_of new = repeat (model, prompt) 6.
Proof.
  intros Hall Hrandom Haccepted.
  set (errors := errors_from w prompt model (requests st) 5).
  exists (waits_of w INITIAL_DELAY (draws st) errors),
         (draws_of (draws st) errors).
  assert (Hlen : length (waits_of w INITIAL_DELAY (draws st) errors) = 5%nat)
    by (rewrite length_waits_of; unfold errors, errors_from;
        now rewrite length_map, length_seq).
  cbn zeta. repeat split.
  - unfold _send_with_exponential_backoff.
    change (seq 0 (MAX_RETRIES + 1)) with (seq 0 5 ++ [5%nat]).
    rewrite attempts_throttled
      by first [ unfold MAX_RETRIES; lia
               | intros; apply Hall
               | apply waits_of_accepted;
                 first [assumption | unfold INITIAL_DELAY; lra] ].
    destruct (Hall (requests st + 5)%nat) as (error_msg & He & Hr).
    rewrite (attempts_exhausted _ _ _ _ _ _ _ error_msg)
      by first [assumption | unfold MAX_RETRIES; lia].
    unfold called; cbn [requests draws log]. fold errors.
    now rewrite <- app_assoc, <- !plus_n_Sm, <- plus_n_O.
  - exact Hlen.
  - unfold sleeps_of. rewrite flat_map_app. fold (sleeps_of (retries prompt model
      (waits_of w INITIAL_DELAY (draws st) errors))).
    rewrite sleeps_of_retries. cbn. apply app_nil_r.
  - unfold requests_of. rewrite flat_map_app.
    fold (requests_of (retries prompt model
      (waits_of w INITIAL_DELAY (draws st) errors))).
    rewrite requests_of_retries, Hlen. reflexivity.
Qed.

Lemma throttled_model_gives_up_witness :
  let w := mk_world (fun _ _ _ => failed "429 RESOURCE_EXHAUSTED") (fun _ => 0)
                    9223372036 in
  exists waits drawn,
    let new := retries "p" "m" waits ++ [generate_content "m" "p"] in
    _send_with_exponential_backoff w "p" "m" initial
    = (Returns None, mk_state (0 + 6) drawn ([] ++ new))
    /\ length waits = 5%nat
    /\ sleeps_of new = waits
    /\ requests_of new = repeat ("m", "p") 6.
Proof.
  apply (throttled_model_gives_up
           (mk_world (fun _ _ _ => failed "429 RESOURCE_EXHAUSTED") (fun _ => 0)
                     9223372036)
           "p" "m" initial).
  - intros i. exists "429 RESOURCE_EXHAUSTED". split; reflexivity.
  - intros i. vm_compute. split; discriminate.
  - split; [vm_compute; discriminate | intros i seconds; discriminate].
Defined.

(** ** The wait before a retry *)

Lemma waits_of_follow (w : world) errors :
  (forall n, 0 <= random w n <= 1) ->
  forall delay drawn,
    waits_follow delay errors (waits_of w delay drawn errors).
Proof.
  intros Hrandom.
  induction errors as [|error_msg errors IH]; intros delay drawn;
    cbn [waits_of]; [constructor|].
  assert (Hrule : wait_rule delay error_msg
            match suggested error_msg with
            | Some seconds => seconds + 2
            | None => min (delay * uniform w drawn) MAX_DELAY
            end).
  { unfold suggested, wait_rule.
    destruct (search match_retry_in error_msg); [reflexivity|].
    destruct (search match_retryDelay error_msg); [reflexivity|].
    exists (uniform w drawn). split; [|reflexivity].
    unfold uniform. pose proof (Hrandom drawn). lra. }
  destruct (suggested error_msg); constructor; auto; apply IH.
Qed.

(** C3: the wait after a rate-limit error that carries a suggested wait is
    to be that wait and two seconds.  The formatter misses it for a
    retryDelay field with a fraction: the second pattern reads the digits
    before the dot only, where the first pattern reads a decimal numeral.
    For the suggested wait of 1.5 seconds it sleeps 3 seconds, not 3.5. *)
Lemma retryDelay_fraction_not_read :
  let error_msg := "429 RESOURCE_EXHAUSTED 'retryDelay': '1.5s'"%string in
  let w := mk_world (fun n _ _ => match n with
                                  | O => failed error_msg
                                  | S _ => generated (Some "ok"%string)
                                  end) (fun _ => 0) 9223372036 in
  exists suggested_wait wait,
    option_map Str.float (search retryDelay_numeral error_msg)
    = Some suggested_wait
    /\ suggested_wait == 3 # 2
    /\ is_rate_limit error_msg = true
    /\ sleeps_of (log (snd (_send_with_exponential_backoff w "p" "m" initial)))
       = [wait]
    /\ wait == 3
    /\ ~ wait == suggested_wait + 2.
Proof.
  cbn zeta. eexists; eexists.
  split; [vm_compute; reflexivity|].
  split; [reflexivity|].
  split; [reflexivity|].
  split; [vm_compute; reflexivity|].
  split; [reflexivity|].
  intros H; vm_compute in H; discriminate H.
Qed.

(** The waits as the formatter makes them: in a run of the backoff
    procedure whose first [n] answers, [n] at most 5, report a rate limit,
    the first [n] sleeps obey the rule [wait_rule]: the numeral of a
    retry-in phrase and exactly two seconds, or else the whole seconds of a
    retryDelay field and exactly two seconds, in place of the computed
    delay; without either, the base delay times a random factor from 0.5 to
    1.5, capped at 60.  The base delay starts at 1 and is doubled, under the
    cap of 60, after every such answer.  The waits are delays that
    [time.sleep] takes. *)
Theorem retry_waits (w : world) (prompt model : string) (st : state)
    (n : nat) :
  (forall k, 0 <= random w k <= 1) ->
  sleeps_accepted w prompt model ->
  (n <= MAX_RETRIES)%nat ->
  (forall i, (requests st <= i < requests st + n)%nat ->
             rate_limited (service w i model prompt)) ->
  exists waits more,
    log (snd (_send_with_exponential_backoff w prompt model st))
    = log st ++ more
    /\ firstn n (sleeps_of more) = waits
    /\ length waits = n
    /\ waits_follow INITIAL_DELAY
         (errors_from w prompt model (requests st) n) waits.
Proof.
  intros Hrandom Haccepted Hn Hall.
  set (errors := errors_from w prompt model (requests st) n).
  set (waits := waits_of w INITIAL_DELAY (draws st) errors).
  assert (Hlen : length waits = n).
  { unfold waits. rewrite length_waits_of. unfold errors, errors_from.
    now rewrite length_map, length_seq. }
  unfold _send_with_exponential_backoff.
  replace (seq 0 (MAX_RETRIES + 1))
    with (seq 0 n ++ seq n (MAX_RETRIES + 1 - n))
    by (rewrite <- seq_app; f_equal; lia).
  rewrite attempts_throttled
    by first [ assumption | lia
             | apply waits_of_accepted;
               first [assumption | unfold INITIAL_DELAY; lra] ].
  fold errors; fold waits.
  match goal with
  | |- context [attempts w ?range ?delay prompt model ?st'] =>
      destruct (attempts_log w prompt model range delay st')
        as (more & Hlog & _)
  end.
  exists waits, (retries prompt model waits ++ more).
  repeat split.
  - rewrite Hlog. cbn [log]. now rewrite app_assoc.
  - unfold sleeps_of. rewrite flat_map_app.
    fold (sleeps_of (retries prompt model waits)).
    rewrite sleeps_of_retries, <- Hlen, firstn_app, firstn_all, Nat.sub_diag.
    cbn. apply app_nil_r.
  - exact Hlen.
  - now apply waits_of_follow.
Qed.

Lemma retry_waits_witness :
  let w := mk_world (fun n _ _ => match n with
                                  | O => failed "429 Please retry in 1.5s"%string
                                  | S O => failed "429 quota"%string
                                  | _ => generated (Some "ok"%string)
                                  end) (fun _ => 1 # 2) 9223372036 in
  exists waits more,
    log (snd (_send_with_exponential_backoff w "p" "m" initial))
    = log initial ++ more
    /\ firstn 2 (sleeps_of more) = waits
    /\ length waits = 2%nat
    /\ waits_follow INITIAL_DELAY (errors_from w "p" "m" 0 2) waits.
Proof.
  apply (retry_waits
           (mk_world (fun n _ _ => match n with
                                   | O => failed "429 Please retry in 1.5s"%string
                                   | S O => failed "429 quota"%string
                                   | _ => generated (Some "ok"%string)
                                   end) (fun _ => 1 # 2) 9223372036)
           "p" "m" initial 2).
  - intros k. vm_compute. split; discriminate.
  - split; [vm_compute; discriminate|].
    intros [|[|i]] seconds; cbn [service]; intros H; vm_compute in H;
      try discriminate H.
    injection H as <-. vm_compute. discriminate.
  - vm_compute. lia.
  - intros i Hi. cbn in Hi.
    destruct i as [|[|i]]; [| |lia]; eexists; split; reflexivity.
Defined.

(** ** Fallback models *)

Section Fallbacks.

Variable w : world.
Variables primary full_prompt : string.

Lemma fallbacks_all_fail models : forall st st',
  all_fail w full_prompt (filter (fun f => negb (String.eqb f primary)) models) st st' ->
  fallbacks w models primary full_prompt st = (Returns None, st').
Proof.
  induction models as [|model models IH]; intros st st' H; cbn [fallbacks filter] in *.
  - inversion H; reflexivity.
  - destruct (String.eqb model primary); cbn [negb] in H; [now apply IH|].
    inversion H as [|? ? ? st1 ? Hrun Hrest]; subst.
    unfold bind. rewrite Hrun. now apply IH.
Qed.


Lemma fallbacks_text models : forall st t,
  fst (fallbacks w models primary full_prompt st) = Returns (Some t) ->
  exists n model text,
    service w n model full_prompt = generated (Some text)
    /\ t = Str.strip text.
Proof.
  induction models as [|model models IH]; intros st t; cbn [fallbacks];
    [discriminate|].
  destruct (String.eqb model primary); [apply IH|].
  unfold bind, _send_with_exponential_backoff.
  pose proof (attempts_text w full_prompt model (seq 0 (MAX_RETRIES + 1))
                INITIAL_DELAY st) as Ht.
  destruct (attempts w _ _ _ _ st) as [[[text|]|e] st1]; cbn [fst] in Ht.
  - cbn. intros [= <-]. destruct (Ht text eq_refl) as (n & text' & H1 & H2).
    eauto.
  - apply IH.
  - discriminate.
Qed.

Lemma fallbacks_raises models : forall st e,
  fst (fallbacks w models primary full_prompt st) = Raises e ->
  exists wait, ~ accepted w wait /\ sleep_outcome w wait = Raises e.
Proof.
  induction models as [|model models IH]; intros st e; cbn [fallbacks];
    [discriminate|].
  destruct (String.eqb model primary); [apply IH|].
  unfold bind, _send_with_exponential_backoff.
  pose proof (attempts_raises w full_prompt model (seq 0 (MAX_RETRIES + 1))
                INITIAL_DELAY st) as Hr.
  destruct (attempts w _ _ _ _ st) as [[[text|]|e'] st1]; cbn [fst] in Hr.
  - discriminate.
  - apply IH.
  - cbn. intros [= <-]. now apply Hr.
Qed.

End Fallbacks.

(** C1: [format_text] is to hand back a text whatever happens, and no
    error is to come to the caller.  The formatter misses it where the
    service suggests a wait that [time.sleep] does not take: the computed
    wait is held under the cap of 60 seconds, the suggested wait under none;
    the call of [time.sleep] raises in the [except] block, which nothing
    handles, and [format_text] ends with that exception after one request,
    where it is to go on and at last return the raw text. *)
Lemma sleep_error_comes_to_caller :
  let w := mk_world (fun _ _ _ => failed "429 retry in 99999999999s")
                    (fun _ => 0) 9223372036 in
  exists wait,
    format_text w "gemini-2.0-flash-lite" "raw" "fix: {raw_text}" initial
    = (Raises (Exception "OverflowError"),
       mk_state 1 0 [generate_content "gemini-2.0-flash-lite" "fix: raw";
                     sleep wait])
    /\ wait == 100000000001.
Proof.
  cbn zeta. eexists. split; [vm_compute; reflexivity | reflexivity].
Qed.

(** Apart from that, [format_text] does hand back a text.  When the run of
    the primary model and the run of every fallback model that is not the
    primary one end in failure, the text is [raw_text] as it was given; in
    every case [format_text] returns [raw_text] or the stripped text of an
    answer of the service, or ends with the exception of a call of
    [time.sleep] with a delay that it does not take. *)
Theorem format_text_degrades_to_raw (w : world)
    (primary raw_text prompt_template : string) (st st' : state) :
  let full_prompt := Str.replace "{raw_text}" raw_text prompt_template in
  (all_fail w full_prompt (primary :: distinct_fallbacks primary) st st' ->
   format_text w primary raw_text prompt_template st
   = (Returns raw_text, st'))
  /\ (fst (format_text w primary raw_text prompt_template st)
      = Returns raw_text
      \/ (exists n model text,
            service w n model full_prompt = generated (Some text)
            /\ fst (format_text w primary raw_text prompt_template st)
               = Returns (Str.strip text))
      \/ (exists wait e,
            ~ accepted w wait
            /\ sleep_outcome w wait = Raises e
            /\ fst (format_text w primary raw_text prompt_template st)
               = Raises e)).
Proof.
  cbn zeta. split.
  - intros H. inversion H as [|? ? ? st1 ? Hrun Hrest]; subst.
    unfold format_text, bind. rewrite Hrun.
    now rewrite (fallbacks_all_fail _ _ _ _ _ _ Hrest).
  - unfold format_text, bind, _send_with_exponential_backoff.
    pose proof (attempts_text w (Str.replace "{raw_text}" raw_text prompt_template)
                  primary (seq 0 (MAX_RETRIES + 1)) INITIAL_DELAY st) as Ht.
    pose proof (attempts_raises w (Str.replace "{raw_text}" raw_text prompt_template)
                  primary (seq 0 (MAX_RETRIES + 1)) INITIAL_DELAY st) as Hr.
    destruct (attempts w _ _ _ _ st) as [[[text|]|e] st1]; cbn [fst] in Ht, Hr.
    + right. left. destruct (Ht text eq_refl) as (n & text' & H1 & H2).
      exists n, primary, text'. split; [assumption|]. cbn. now rewrite H2.
    + pose proof (fallbacks_text w primary
                    (Str.replace "{raw_text}" raw_text prompt_template)
                    FALLBACK_MODELS st1) as Hf.
      pose proof (fallbacks_raises w primary
                    (Str.replace "{raw_text}" raw_text prompt_template)
                    FALLBACK_MODELS st1) as Hfr.
      destruct (fallbacks w _ _ _ st1) as [[[text|]|e] st2];
        cbn [fst] in Hf, Hfr.
      * right. left.
        destruct (Hf text eq_refl) as (n & model & text' & H1 & H2).
        exists n, model, text'. split; [assumption|]. cbn. now rewrite H2.
      * left. reflexivity.
      * right. right. destruct (Hfr e eq_refl) as (wait & Hn & He).
        exists wait, e. auto.
    + right. right. destruct (Hr e eq_refl) as (wait & Hn & He).
      exists wait, e. auto.
Qed.

Lemma format_text_degrades_to_raw_witness :
  let w := mk_world (fun _ _ _ => failed "429 RESOURCE_EXHAUSTED"%string)
                    (fun _ => 0) 9223372036 in
  exists st',
    format_text w "gemini-2.0-flash-lite" "raw" "fix: {raw_text}" initial
    = (Returns "raw"%string, st').
Proof.
  cbn zeta. eexists.
  apply (proj1 (format_text_degrades_to_raw
                  (mk_world (fun _ _ _ => failed "429 RESOURCE_EXHAUSTED"%string)
                            (fun _ => 0) 9223372036)
                  "gemini-2.0-flash-lite" "raw" "fix: {raw_text}" initial _)).
  change (distinct_fallbacks "gemini-2.0-flash-lite")
    with ["gemini-2.0-flash"%string; "gemini-1.5-flash"%string].
  eapply fail_cons; [vm_compute; reflexivity|].
  eapply fail_cons; [vm_compute; reflexivity|].
  eapply fail_cons; [vm_compute; reflexivity|].
  apply fail_nil.
Defined.




(** ** The model at work *)

Example parse_retry_in :
  _parse_retry_delay "429 Please retry in 42.327s." == 44327 # 1000.
Proof. reflexivity. Qed.

Example parse_retryDelay :
  _parse_retry_delay "429 'retryDelay': '42s'" == 44.
Proof. reflexivity. Qed.

Example parse_nothing : _parse_retry_delay "429 quota exceeded" = 0.
Proof. reflexivity. Qed.

(** A primary model that is rate-limited once and then answers: its text
    comes back, stripped, after one sleep. *)
Example throttled_once_then_success :
  let w := mk_world (fun n _ _ => match n with
                                  | O => failed "429 quota exceeded"
                                  | S _ => generated (Some " Hello. ")
                                  end) (fun _ => 1 # 2) 9223372036 in
  format_text w "gemini-2.0-flash-lite" "hello" "Fix: {raw_text}" initial
  = (Returns "Hello."%string,
     mk_state 2 1
       [generate_content "gemini-2.0-flash-lite" "Fix: hello";
        sleep (1 * ((1 # 2) + ((3 # 2) - (1 # 2)) * (1 # 2)));
        generate_content "gemini-2.0-flash-lite" "Fix: hello"]).
Proof. reflexivity. Qed.

End GeminiFormatterProofs.

(* ================================================================== *)
(** * Properties of main.py *)
(* ================================================================== *)

Module YubiIrazuProofs.

Import YubiIrazu YubiIrazuSpec.
Local Open Scope string_scope.
Local Open Scope Q_scope.
Local Open Scope list_scope.

(** ** The processing task *)

(** The [try] block writes neither the flag nor the tray icon, and only
    adds to the calls. *)
Lemma try_block_frame (a : answers) (self : t) :
  let self' := snd (try_block a self) in
  _is_processing self' = _is_processing self
  /\ tray self' = tray self
  /\ exists new, calls self' = calls self ++ new.
Proof.
  unfold try_block, bind, read, invoke, ret, indicator_hide.
  destruct (get_duration a) as [duration|e];
    [|cbn; repeat split; exists []; now rewrite app_nil_r].
  destruct (Qlt_le_dec duration (3 # 10));
    [cbn; repeat split; exists []; now rewrite app_nil_r|].
  destruct (get_audio_data a) as [[audio|]|e];
    try (cbn; repeat split; exists []; now rewrite app_nil_r).
  destruct (transcribe a audio) as [raw_text|e];
    [|cbn; repeat split; eexists; reflexivity].
  destruct (String.eqb raw_text ""); [cbn; repeat split; eexists; reflexivity|].
  destruct (llm a) as [format_text|].
  - destruct (format_text raw_text (prompt a)) as [formatted_text|e].
    + destruct (output_text a formatted_text); cbn; repeat split;
        rewrite <- !app_assoc; eexists; reflexivity.
    + cbn; repeat split; rewrite <- !app_assoc; eexists; reflexivity.
  - destruct (output_text a raw_text); cbn; repeat split;
      rewrite <- !app_assoc; eexists; reflexivity.
Qed.

Lemma process_recording_clears_flag (a : answers) (self : t) :
  _is_processing (snd (_process_recording a self)) = false.
Proof.
  unfold _process_recording. now destruct (try_block a self).
Qed.

(** C9: however the processing task ends (the recording was too short,
    there was no audio, no text came back, every stage was run, or a call
    raised, an [Exception] or not), its last state has the single-flight
    flag cleared and the user interface idle: the indicator hidden, the tray
    icon not recording and, where there is an icon, with the waiting
    title. *)
Theorem processing_always_cleans_up (a : answers) (self : t) :
  let self' := snd (_process_recording a self) in
  _is_processing self' = false
  /\ RecordingIndicator._is_visible (indicator self') = false
  /\ TrayIcon._is_recording (tray self') = false
  /\ TrayIcon._icon (tray self')
     = option_map (fun _ => TrayIcon.title_waiting) (TrayIcon._icon (tray self)).
Proof.
  unfold _process_recording.
  pose proof (try_block_frame a self) as (_ & Htray & _).
  destruct (try_block a self) as [result self1]. cbn [snd] in *.
  unfold finally_block; cbn. rewrite Htray.
  repeat split.
Qed.

Lemma processing_threads_app cs cs' :
  processing_threads (cs ++ cs')
  = (processing_threads cs + processing_threads cs')%nat.
Proof. unfold processing_threads. now rewrite filter_app, length_app. Qed.

Lemma deliveries_app cs cs' :
  deliveries (cs ++ cs') = deliveries cs ++ deliveries cs'.
Proof. apply flat_map_app. Qed.

Ltac same_answers :=
  repeat match goal with
         | H : ?x = Returns _, H' : ?x = _ |- _ =>
             rewrite H in H'; try discriminate H';
             injection H' as H'; subst
         end.

Ltac check_adds :=
  unfold adds; cbn; repeat split;
  try solve [lia];
  try solve [intros text [duration' audio' raw' Hd Hge Ha Ht Hraw Hl];
             same_answers;
             try match goal with H : llm _ = _ |- _ => rewrite H in Hl end;
             same_answers; try lra; try congruence];
  try solve [intros duration' Hd Hlt; same_answers; lra].

Lemma process_recording_calls (a : answers) (self : t) :
  exists new,
    calls (snd (_process_recording a self)) = calls self ++ new /\ adds a new.
Proof.
  unfold _process_recording, try_block, bind, read, invoke, ret,
    indicator_hide.
  destruct (get_duration a) as [duration|e] eqn:Ed;
    [|exists []; cbn; rewrite app_nil_r; split; [reflexivity | check_adds]].
  destruct (Qlt_le_dec duration (3 # 10)) as [Hshort|Hlong];
    [exists []; cbn; rewrite app_nil_r; split; [reflexivity | check_adds]|].
  destruct (get_audio_data a) as [[audio|]|e] eqn:Ea;
    try (exists []; cbn; rewrite app_nil_r; split; [reflexivity | check_adds]).
  destruct (transcribe a audio) as [raw_text|e] eqn:Et;
    [|eexists; cbn; split; [reflexivity | check_adds]].
  destruct (String.eqb raw_text "") eqn:Eraw.
  { apply String.eqb_eq in Eraw.
    eexists; cbn; split; [reflexivity | check_adds]. }
  destruct (llm a) as [format_text|] eqn:El.
  - destruct (format_text raw_text (prompt a)) as [formatted_text|e] eqn:Ef.
    + destruct (output_text a formatted_text); eexists; cbn;
        rewrite <- !app_assoc; (split; [reflexivity | check_adds]).
    + eexists; cbn; rewrite <- !app_assoc; split; [reflexivity | check_adds].
  - destruct (output_text a raw_text); eexists; cbn;
      rewrite <- !app_assoc; (split; [reflexivity | check_adds]).
Qed.

(** A recording shorter than 0.3 seconds: the task calls neither the
    transcription nor the output. *)
Lemma too_short_makes_no_call (a : answers) (self : t) (duration : Q) :
  get_duration a = Returns duration -> duration < 3 # 10 ->
  calls (snd (_process_recording a self)) = calls self.
Proof.
  intros Hd Hshort.
  destruct (process_recording_calls a self) as (new & -> & _ & _ & _ & Hnone).
  rewrite (Hnone duration Hd Hshort). apply app_nil_r.
Qed.

(** ** The single-flight flag *)

Lemma stop_while_processing (self : t) :
  _is_processing self = true ->
  _is_processing (_on_recording_stop self) = true
  /\ calls (_on_recording_stop self)
     = calls self ++ [audio_stop; indicator_update_status].
Proof.
  intros H. unfold _on_recording_stop; cbn. rewrite H. cbn.
  now rewrite <- app_assoc.
Qed.

Lemma stop_while_idle (self : t) :
  _is_processing self = false ->
  _is_processing (_on_recording_stop self) = true
  /\ calls (_on_recording_stop self)
     = calls self ++ [audio_stop; indicator_update_status;
                      Thread_start _process_recording_target].
Proof.
  intros H. unfold _on_recording_stop; cbn. rewrite H. cbn.
  now rewrite <- !app_assoc.
Qed.

Lemma start_calls (self : t) :
  _is_processing (_on_recording_start self) = _is_processing self
  /\ calls (_on_recording_start self)
     = calls self ++ [audio_start; Thread_start periodic_stt_target].
Proof. unfold _on_recording_start; cbn. now rewrite <- app_assoc. Qed.

Lemma run_app steps steps' sys :
  run (steps ++ steps') sys = run steps' (run steps sys).
Proof. apply fold_left_app. Qed.

(** While the flag is set, the hook thread starts no processing thread,
    makes no delivery and leaves the flag set. *)
Lemma hooks_while_processing (hooks : list step) : forall sys,
  Forall hook_step hooks ->
  _is_processing (app sys) = true ->
  let sys' := run hooks sys in
  _is_processing (app sys') = true
  /\ pending sys' = pending sys
  /\ processing_threads (calls (app sys'))
     = processing_threads (calls (app sys))
  /\ deliveries (calls (app sys')) = deliveries (calls (app sys)).
Proof.
  induction hooks as [|s hooks IH]; intros sys Hhooks Hflag; [now cbn|].
  inversion Hhooks as [|? ? Hs Hrest]; subst.
  change (run (s :: hooks) sys) with (run hooks (do_step s sys)).
  destruct s as [| |a]; [| |contradiction]; cbn [do_step].
  - destruct (start_calls (app sys)) as [Hf Hc].
    destruct (IH (mk_system (_on_recording_start (app sys)) (pending sys)))
      as (H1 & H2 & H3 & H4); [assumption | cbn; congruence |].
    cbn [app pending] in *.
    rewrite H1, H2, H3, H4, Hc, processing_threads_app, deliveries_app.
    cbn. now rewrite app_nil_r, Nat.add_0_r.
  - destruct (stop_while_processing (app sys) Hflag) as [Hf Hc].
    match goal with
    | |- context [run hooks ?sys1] =>
        destruct (IH sys1) as (H1 & H2 & H3 & H4);
          [assumption | exact Hf |]
    end.
    cbn [app pending] in *.
    rewrite H1, H2, H3, H4, Hc, processing_threads_app, deliveries_app.
    cbn. rewrite app_nil_r, Nat.add_0_r. repeat split; lia.
Qed.

(** C8: a stop handled while the flag is set starts no processing thread
    and leaves nothing behind to be run later.  From a state with the flag
    clear and no processing thread pending, a stop, then any steps of the
    hook thread (further stops among them) and then the end of the
    processing thread make one processing thread in all, after which none is
    pending and the flag is clear; the deliveries are those of that one
    thread: at most one, and exactly one, of [text], when the thread comes
    to the output stage with [text]. *)
Theorem stop_while_processing_is_dropped (self : t) (hooks : list step)
    (a : answers) :
  (_is_processing self = true ->
   processing_threads (calls (_on_recording_stop self))
   = processing_threads (calls self)
   /\ _is_processing (_on_recording_stop self) = true)
  /\ (_is_processing self = false ->
      Forall hook_step hooks ->
      let sys := run ([recording_stop] ++ hooks ++ [processing_finishes a])
                     (mk_system self 0) in
      processing_threads (calls (app sys))
      = (processing_threads (calls self) + 1)%nat
      /\ pending sys = 0%nat
      /\ _is_processing (app sys) = false
      /\ (length (deliveries (calls (app sys)))
          <= length (deliveries (calls self)) + 1)%nat
      /\ (forall text,
            reaches_output a text ->
            deliveries (calls (app sys))
            = deliveries (calls self) ++ [text])
      /\ forall a', run [processing_finishes a'] sys = sys).
Proof.
  split.
  - intros Hflag. destruct (stop_while_processing self Hflag) as [Hf Hc].
    rewrite Hc, processing_threads_app. cbn. split; [lia | exact Hf].
  - intros Hflag Hhooks sys; subst sys.
    rewrite !run_app.
    destruct (stop_while_idle self Hflag) as [Hf Hc].
    set (sys1 := run [recording_stop] (mk_system self 0)).
    assert (Hp1 : pending sys1 = 1%nat).
    { unfold sys1; cbn [run fold_left do_step pending app].
      rewrite Hc, processing_threads_app. cbn. lia. }
    destruct (hooks_while_processing hooks sys1 Hhooks Hf)
      as (H1 & H2 & H3 & H4).
    change (run [processing_finishes a] (run hooks sys1))
      with (do_step (processing_finishes a) (run hooks sys1)).
    cbn [do_step]. rewrite H2, Hp1.
    destruct (process_recording_calls a (app (run hooks sys1)))
      as (new & Hnew & Hthreads & Hlen & Hreach & _).
    pose proof (process_recording_clears_flag a (app (run hooks sys1)))
      as Hclean.
    cbn [app pending].
    rewrite Hnew, processing_threads_app, deliveries_app, H3, H4, Hthreads.
    change (app sys1) with (_on_recording_stop self).
    rewrite Hc, processing_threads_app, deliveries_app.
    cbn. rewrite app_nil_r, length_app.
    repeat split; try lia; try assumption.
    intros text Hr. now rewrite (Hreach text Hr).
Qed.

Lemma stop_while_processing_is_dropped_witness :
  let a := mk_answers (Returns 2) (Returns (Some [])) (fun _ => Returns "hello")
                      None "{raw_text}" (fun _ => Returns tt) in
  let sys := run ([recording_stop] ++ [recording_start; recording_stop]
                  ++ [processing_finishes a]) (mk_system init 0) in
  processing_threads (calls (_on_recording_stop (_on_recording_stop init)))
  = processing_threads (calls (_on_recording_stop init))
  /\ processing_threads (calls (app sys)) = 1%nat
  /\ pending sys = 0%nat
  /\ deliveries (calls (app sys)) = ["hello"].
Proof.
  cbn zeta. split.
  - apply (proj1 (stop_while_processing_is_dropped (_on_recording_stop init)
                    [] (mk_answers (Returns 2) (Returns (Some []))
                                   (fun _ => Returns "hello") None "{raw_text}"
                                   (fun _ => Returns tt)))).
    reflexivity.
  - destruct (proj2 (stop_while_processing_is_dropped init
                       [recording_start; recording_stop]
                       (mk_answers (Returns 2) (Returns (Some []))
                                   (fun _ => Returns "hello") None "{raw_text}"
                                   (fun _ => Returns tt)))
                eq_refl) as (H1 & H2 & _ & _ & H5 & _).
    + repeat constructor.
    + split; [exact H1|]. split; [exact H2|].
      apply (H5 "hello").
      apply (reaches _ _ 2 [] "hello"); try reflexivity.
      * vm_compute; discriminate.
      * discriminate.
Defined.

End YubiIrazuProofs.

(* ================================================================== *)
(** * Further properties of core/input_manager.py *)
(* ================================================================== *)

Module InputManagerMoreProofs.

Import InputManager InputManagerMore.
Local Open Scope Q_scope.

(** One delivery fires nothing, or starts an idle machine, or stops a
    recording one. *)
Lemma handle_cases (d : delivery) (self : t) :
  let r := handle d self in
  (snd r = [] /\ _state (fst r) = _state self)
  \/ (snd r = [on_recording_start]
      /\ is_recording self = false /\ is_recording (fst r) = true)
  \/ (snd r = [on_recording_stop]
      /\ is_recording self = true /\ is_recording (fst r) = false).
Proof.
  destruct self as [st last]; destruct d as [[]|now []];
    cbn [handle _on_ptt_event _on_hf_event _state _last_hf_time];
    try destruct (Qlt_le_dec _ _); destruct st; cbn; auto.
Qed.

Lemma alternates_app recording fired fired' :
  alternates recording (fired ++ fired')
  = alternates recording fired
    && alternates (recording_after recording fired) fired'.
Proof.
  revert recording; induction fired as [|[] fired IH]; intros recording;
    cbn [app alternates recording_after]; [reflexivity| |];
    rewrite IH, andb_assoc; reflexivity.
Qed.

Lemma recording_after_app recording fired fired' :
  recording_after recording (fired ++ fired')
  = recording_after (recording_after recording fired) fired'.
Proof.
  revert recording; induction fired as [|[] fired IH]; intros recording;
    cbn [app recording_after]; auto.
Qed.

(** X1: whatever the keyboard hook delivers, and from whatever state, the
    callbacks fired start and stop in turn (never two starts without a stop
    between them, never a stop without a recording), and [is_recording] at
    the end is what the last callback left. *)
Theorem callbacks_alternate (ds : list delivery) (self : t) :
  let r := deliver_all ds self in
  alternates (is_recording self) (snd r) = true
  /\ is_recording (fst r) = recording_after (is_recording self) (snd r).
Proof.
  revert self; induction ds as [|d ds IH]; intros self; [now cbn|].
  cbn [deliver_all].
  pose proof (handle_cases d self) as Hd.
  destruct (handle d self) as [self1 out1]. cbn [fst snd] in Hd.
  specialize (IH self1).
  destruct (deliver_all ds self1) as [self2 out2]. cbn [fst snd] in *.
  destruct IH as [IH1 IH2].
  rewrite alternates_app, recording_after_app.
  assert (Hrec : is_recording self1
                 = recording_after (is_recording self) out1
                 /\ alternates (is_recording self) out1 = true).
  { destruct Hd as [[-> Hs] | [(-> & H0 & H1) | (-> & H0 & H1)]].
    - unfold is_recording; rewrite Hs; auto.
    - rewrite H0, H1; auto.
    - rewrite H0, H1; auto. }
  destruct Hrec as [Hrec ->]. rewrite <- Hrec. auto.
Qed.

Lemma handle_stamp (d : delivery) (self : t) :
  _last_hf_time (fst (handle d self)) = _last_hf_time self
  \/ _last_hf_time self + (3 # 10) <= _last_hf_time (fst (handle d self)).
Proof.
  destruct self as [st last]; destruct d as [[]|now []];
    cbn [handle _on_ptt_event _on_hf_event _state _last_hf_time];
    try (destruct st; cbn; auto; fail).
  destruct (Qlt_le_dec (now - last) (3 # 10)) as [Hlt|Hge]; [cbn; auto|].
  right. destruct st; cbn [fst _last_hf_time]; lra.
Qed.

(** X2: the debounce stamp never goes back, whatever the clock readings
    are: one delivery leaves it as it is or moves it forward by 0.3 seconds
    or more, and no run of deliveries lowers it. *)
Theorem debounce_stamp_never_decreases (ds : list delivery) (self : t)
    (d : delivery) :
  (_last_hf_time (fst (handle d self)) = _last_hf_time self
   \/ _last_hf_time self + (3 # 10) <= _last_hf_time (fst (handle d self)))
  /\ _last_hf_time self <= _last_hf_time (fst (deliver_all ds self)).
Proof.
  split; [apply handle_stamp|].
  revert self; induction ds as [|d' ds IH]; intros self;
    [cbn; apply Qle_refl|].
  cbn [deliver_all].
  pose proof (handle_stamp d' self) as Hd.
  destruct (handle d' self) as [self1 out1]. cbn [fst] in Hd.
  specialize (IH self1).
  destruct (deliver_all ds self1) as [self2 out2]. cbn [fst] in *.
  destruct Hd as [Hd|Hd]; [rewrite Hd in IH; exact IH | lra].
Qed.

(** X3: a recording is ended by the key that began it, and by no other
    event.  In RecordingHandsFree everything but a key-down of the
    hands-free key leaves the object as it is and fires nothing; in
    RecordingPTT everything but a key-up of the push-to-talk key leaves the
    state and fires nothing. *)
Theorem recording_ends_with_its_key (ds : list delivery) (self : t) :
  (_state self = RECORDING_HF -> Forall not_hf_down ds ->
   deliver_all ds self = (self, []))
  /\ (_state self = RECORDING_PTT -> Forall not_ptt_up ds ->
      _state (fst (deliver_all ds self)) = RECORDING_PTT
      /\ snd (deliver_all ds self) = []).
Proof.
  split.
  - intros Hst Hds. induction Hds as [|d ds Hd _ IH]; [reflexivity|].
    cbn [deliver_all].
    assert (Hh : handle d self = (self, [])).
    { destruct d as [[]|now []]; cbn in Hd; try contradiction;
        cbn [handle _on_ptt_event _on_hf_event]; now rewrite ?Hst. }
    now rewrite Hh, IH.
  - intros Hst Hds. revert self Hst.
    induction Hds as [|d ds Hd _ IH]; intros self Hst; [now cbn|].
    cbn [deliver_all].
    assert (Hh : _state (fst (handle d self)) = RECORDING_PTT
                 /\ snd (handle d self) = []).
    { destruct d as [[]|now []]; cbn in Hd; try contradiction;
        cbn [handle _on_ptt_event _on_hf_event]; rewrite ?Hst; auto.
      destruct (Qlt_le_dec _ _); rewrite ?Hst; auto. }
    destruct (handle d self) as [self1 out1]. cbn [fst snd] in Hh.
    destruct Hh as [Hs1 ->].
    specialize (IH self1 Hs1).
    destruct (deliver_all ds self1) as [self2 out2]. cbn [fst snd] in *.
    destruct IH as [IH1 ->]. auto.
Qed.

Lemma recording_ends_with_its_key_witness :
  deliver_all [PTT down; PTT up; HF 5 up] (mk RECORDING_HF 1)
  = (mk RECORDING_HF 1, [])
  /\ _state (fst (deliver_all [PTT down; HF 5 down; HF 6 up]
                              (mk RECORDING_PTT 1))) = RECORDING_PTT
  /\ snd (deliver_all [PTT down; HF 5 down; HF 6 up] (mk RECORDING_PTT 1))
     = [].
Proof.
  split.
  - apply (proj1 (recording_ends_with_its_key
                    [PTT down; PTT up; HF 5 up] (mk RECORDING_HF 1)));
      [reflexivity | repeat constructor].
  - apply (proj2 (recording_ends_with_its_key
                    [PTT down; HF 5 down; HF 6 up] (mk RECORDING_PTT 1)));
      [reflexivity | repeat constructor].
Defined.

End InputManagerMoreProofs.

(* ================================================================== *)
(** * Further properties of core/audio_capture.py *)
(* ================================================================== *)

Module AudioCaptureMoreProofs.

Import AudioCapture AudioCaptureProofs.
Local Open Scope Z_scope.

Lemma capture_app blocks blocks' self :
  capture (blocks ++ blocks') self = capture blocks' (capture blocks self).
Proof. apply fold_left_app. Qed.

Lemma capture_idle blocks self :
  is_recording self = false -> capture blocks self = self.
Proof.
  intros H; induction blocks as [|a blocks IH]; [reflexivity|].
  change (capture (a :: blocks) self)
    with (capture blocks (_audio_callback a self)).
  unfold _audio_callback. now rewrite H.
Qed.

(** The object after a recording of [blocks]. *)
Lemma recorded (self0 : t) (blocks : list ndarray) :
  stop (capture blocks (start self0))
  = mk (sample_rate self0) (channels self0) false blocks.
Proof. now rewrite capture_frames. Qed.

Lemma block_bytes_app blocks blocks' :
  concat (map block_bytes (blocks ++ blocks'))
  = concat (map block_bytes blocks) ++ concat (map block_bytes blocks').
Proof. now rewrite map_app, concat_app. Qed.

(** X4: blocks that arrive while the object is not recording (before
    [start], after [stop]) are dropped, and [start] forgets the recording
    before it: after a second recording the snapshot is that of the second
    recording alone. *)
Theorem frames_only_while_recording (self0 : t)
    (first between second late : list ndarray) :
  (is_recording self0 = false -> capture first self0 = self0)
  /\ get_audio_data
       (capture late
          (stop (capture second
                   (start (capture between
                             (stop (capture first (start self0))))))))
     = get_audio_data (stop (capture second (start self0))).
Proof.
  split; [apply capture_idle|].
  rewrite (capture_idle late), (capture_idle between) by reflexivity.
  rewrite !recorded. reflexivity.
Qed.

Lemma frames_only_while_recording_witness :
  capture [[[1]]] (init 16000 1) = init 16000 1.
Proof.
  apply (proj1 (frames_only_while_recording (init 16000 1) [[[1]]] [] [] [])).
  reflexivity.
Defined.

(** X5: a snapshot taken while the recording goes on holds a prefix of what
    the snapshot of the whole recording holds: both read back with the same
    parameters, and the data of the whole is the data of the part followed
    by the bytes of the blocks that came later. *)
Theorem partial_audio_is_prefix (self0 : t) (sofar later : list ndarray) :
  let mid := capture sofar (start self0) in
  let final := stop (capture later mid) in
  let pcm := concat (map block_bytes sofar) in
  let pcm' := concat (map block_bytes later) in
  sofar <> [] ->
  1 <= channels self0 -> channels self0 * 2 < 2 ^ 16 ->
  1 <= sample_rate self0 ->
  channels self0 * sample_rate self0 * 2 < 2 ^ 32 ->
  36 + Z.of_nat (length (pcm ++ pcm')) < 2 ^ 32 ->
  Forall (has_channels (channels self0)) (sofar ++ later) ->
  exists part whole,
    get_partial_audio mid = Returns (Some part)
    /\ get_audio_data final = Returns (Some whole)
    /\ wave.read part
       = Some (wave.mk_params (channels self0) 2 (sample_rate self0), pcm)
    /\ wave.read whole
       = Some (wave.mk_params (channels self0) 2 (sample_rate self0),
               pcm ++ pcm').
Proof.
  intros mid final pcm pcm' Hne Hch Hblock Hrate Hbyterate Hlen Hshape.
  subst mid final.
  rewrite <- capture_app, !capture_frames by reflexivity.
  unfold stop, start, get_audio_data, get_partial_audio, _to_wav;
    cbn [sample_rate channels _frames app].
  apply Forall_app in Hshape as [Hs Hl].
  destruct (length_blocks _ _ Hs) as [rows Hrows].
  destruct (length_blocks _ _ Hl) as [rows' Hrows'].
  assert (Hlen1 : 36 + Z.of_nat (length pcm) < 2 ^ 32)
    by (rewrite length_app in Hlen; lia).
  destruct (read_write (channels self0) (sample_rate self0) pcm rows
              Hch Hblock Hrate Hbyterate Hlen1 Hrows) as (part & Hw & Hr).
  destruct (read_write (channels self0) (sample_rate self0) (pcm ++ pcm')
              (rows + rows') Hch Hblock Hrate Hbyterate Hlen)
    as (whole & Hw' & Hr').
  { rewrite length_app, Nat2Z.inj_add. fold pcm in Hrows.
    fold pcm' in Hrows'. lia. }
  exists part, whole.
  assert (Hall : Forall (has_channels (channels self0)) (sofar ++ later))
    by (apply Forall_app; auto).
  destruct sofar as [|a sofar]; [congruence|].
  cbn [app].
  rewrite (concatenate_has_channels (channels self0) (a :: sofar))
    by assumption.
  change (a :: sofar ++ later) with ((a :: sofar) ++ later).
  rewrite (concatenate_has_channels (channels self0) ((a :: sofar) ++ later))
    by (assumption || discriminate).
  cbn zeta. rewrite !tobytes_concatenate.
  rewrite block_bytes_app. fold pcm pcm'. rewrite Hw, Hw'. auto.
Qed.

Lemma partial_audio_is_prefix_witness :
  let sofar := [[[1]; [-2]]] in
  let later := [[[3]]] in
  let mid := capture sofar (start (init 16000 1)) in
  exists part whole,
    get_partial_audio mid = Returns (Some part)
    /\ get_audio_data (stop (capture later mid)) = Returns (Some whole)
    /\ wave.read part
       = Some (wave.mk_params 1 2 16000, concat (map block_bytes sofar))
    /\ wave.read whole
       = Some (wave.mk_params 1 2 16000,
               concat (map block_bytes sofar)
               ++ concat (map block_bytes later)).
Proof.
  cbn zeta.
  apply (partial_audio_is_prefix (init 16000 1) [[[1]; [-2]]] [[[3]]]).
  - discriminate.
  - cbn; lia.
  - cbn; lia.
  - cbn; lia.
  - cbn; lia.
  - cbn; lia.
  - repeat constructor.
Defined.

(** The sample frames of a list of blocks, [sum(f.shape[0] for f in ...)]. *)
Lemma length_pcm channels blocks :
  Forall (has_channels channels) blocks ->
  Z.of_nat (length (concat (map block_bytes blocks)))
  = 2 * channels
    * fold_right Z.add 0 (map (fun f => Z.of_nat (length f)) blocks).
Proof.
  induction 1 as [|a blocks Ha _ IH]; [cbn; lia|].
  cbn [map concat fold_right].
  rewrite length_app, Nat2Z.inj_add, IH. unfold block_bytes.
  rewrite length_tobytes, (length_flatten channels) by assumption. lia.
Qed.

Lemma duration_of_frames (self0 : t) (blocks : list ndarray) :
  get_duration (stop (capture blocks (start self0)))
  = match blocks with
    | [] => 0%Q
    | _ :: _ =>
        (inject_Z (fold_right Z.add 0%Z
                     (map (fun f => Z.of_nat (length f)) blocks))
         / inject_Z (sample_rate self0))%Q
    end.
Proof.
  rewrite capture_frames by reflexivity.
  unfold get_duration, stop, start; cbn [_frames sample_rate app].
  now destruct blocks.
Qed.

(** X6: for a positive sample rate, the duration of a recording is the
    number of sample frames in its WAV data divided by the rate (the data
    has [2 * channels] bytes to the frame), and the test for a recording
    that is too short, [duration < 0.3], says that ten times the number of
    frames is below three times the rate. *)
Theorem duration_counts_frames (self0 : t) (blocks : list ndarray) :
  let self := stop (capture blocks (start self0)) in
  let frames :=
    fold_right Z.add 0 (map (fun f => Z.of_nat (length f)) blocks) in
  0 < sample_rate self0 ->
  Forall (has_channels (channels self0)) blocks ->
  (get_duration self * inject_Z (sample_rate self0)
   * inject_Z (2 * channels self0)
   == inject_Z (Z.of_nat (length (concat (map block_bytes blocks)))))%Q
  /\ (get_duration self == inject_Z frames / inject_Z (sample_rate self0))%Q
  /\ ((get_duration self < 3 # 10)%Q
      <-> 10 * frames < 3 * sample_rate self0).
Proof.
  intros self frames Hrate Hshape. subst self.
  rewrite duration_of_frames, (length_pcm _ _ Hshape). fold frames.
  assert (Hnz : ~ (inject_Z (sample_rate self0) == 0)%Q).
  { unfold Qeq; cbn. lia. }
  assert (Hd : (match blocks with
                | [] => 0
                | _ :: _ => inject_Z frames / inject_Z (sample_rate self0)
                end == inject_Z frames / inject_Z (sample_rate self0))%Q).
  { destruct blocks; [|reflexivity].
    unfold frames; cbn [map fold_right]. field. exact Hnz. }
  split; [|split].
  - rewrite Hd, !inject_Z_mult. field. exact Hnz.
  - exact Hd.
  - rewrite Hd.
    destruct (sample_rate self0) as [|rate|rate]; try lia.
    unfold Qlt, Qdiv, Qmult, Qinv, inject_Z; cbn [Qnum Qden].
    rewrite ?Z.mul_1_r, ?Pos.mul_1_l. lia.
Qed.

Lemma duration_counts_frames_witness :
  let blocks := [[[1]; [-2]]; [[3]]] in
  let self := stop (capture blocks (start (init 16000 1))) in
  (get_duration self * inject_Z 16000 * inject_Z (2 * 1)
   == inject_Z (Z.of_nat (length (concat (map block_bytes blocks)))))%Q
  /\ (get_duration self == inject_Z 3 / inject_Z 16000)%Q
  /\ ((get_duration self < 3 # 10)%Q <-> 10 * 3 < 3 * 16000).
Proof.
  cbn zeta.
  apply (duration_counts_frames (init 16000 1) [[[1]; [-2]]; [[3]]]).
  - cbn; lia.
  - repeat constructor.
Defined.

Lemma struct_pack_some width v bs :
  struct_pack width v = Some bs ->
  0 <= v < 256 ^ Z.of_nat width /\ bs = pack_le width v.
Proof.
  unfold struct_pack.
  destruct (0 <=? v) eqn:E0; [|discriminate].
  destruct (v <? 256 ^ Z.of_nat width) eqn:E1; [|discriminate].
  apply Z.leb_le in E0; apply Z.ltb_lt in E1.
  intros [= <-]. auto.
Qed.

Lemma write_succeeds nch rate data :
  1 <= nch -> nch * 2 < 2 ^ 16 ->
  1 <= rate -> nch * rate * 2 < 2 ^ 32 ->
  36 + Z.of_nat (length data) < 2 ^ 32 ->
  exists wav, wave.write nch 2 rate data = Some wav.
Proof.
  intros Hnch Hblock Hrate Hbyterate Hlen.
  assert (Hlen0 : 0 <= Z.of_nat (length data)) by lia.
  change (2 ^ 16) with 65536 in *. change (2 ^ 32) with 4294967296 in *.
  unfold wave.write, wave.file.
  rewrite (proj2 (Z.ltb_ge nch 1)), (proj2 (Z.leb_gt rate 0)) by lia.
  cbn [orb].
  rewrite !struct_pack_in_range by in_range.
  cbn [wave.bind]. eexists; reflexivity.
Qed.

(** X7: the snapshot of a recording with blocks of the configured width is
    a file exactly when every header field can hold its value: the channel
    count and the rate are positive, the block size fits 16 bits, and the
    byte rate and the form length fit 32 bits; otherwise the [wave] module
    raises.  The file is 44 bytes of header followed by the bytes of the
    blocks. *)
Theorem snapshot_fails_on_overflow (self0 : t) (blocks : list ndarray) :
  let self := stop (capture blocks (start self0)) in
  let pcm := concat (map block_bytes blocks) in
  blocks <> [] ->
  Forall (has_channels (channels self0)) blocks ->
  ((exists wav, get_audio_data self = Returns (Some wav))
   <-> (1 <= channels self0 /\ channels self0 * 2 < 2 ^ 16
        /\ 1 <= sample_rate self0
        /\ channels self0 * sample_rate self0 * 2 < 2 ^ 32
        /\ 36 + Z.of_nat (length pcm) < 2 ^ 32))
  /\ (forall wav,
        get_audio_data self = Returns (Some wav) ->
        length wav = (44 + length pcm)%nat /\ skipn 44 wav = pcm).
Proof.
  intros self pcm Hne Hshape. subst self.
  rewrite capture_frames by reflexivity.
  unfold stop, start, get_audio_data, _to_wav;
    cbn [sample_rate channels _frames app].
  rewrite (concatenate_has_channels (channels self0)) by assumption.
  destruct blocks as [|a blocks]; [congruence|].
  cbn zeta. rewrite tobytes_concatenate. fold pcm.
  assert (Hfile : forall wav,
            wave.write (channels self0) 2 (sample_rate self0) pcm = Some wav ->
            (1 <= channels self0 /\ channels self0 * 2 < 2 ^ 16
             /\ 1 <= sample_rate self0
             /\ channels self0 * sample_rate self0 * 2 < 2 ^ 32
             /\ 36 + Z.of_nat (length pcm) < 2 ^ 32)
            /\ length wav = (44 + length pcm)%nat /\ skipn 44 wav = pcm).
  { intros wav. unfold wave.write, wave.file.
    destruct (channels self0 <? 1) eqn:Ec; [discriminate|].
    destruct (sample_rate self0 <=? 0) eqn:Er; [discriminate|].
    apply Z.ltb_ge in Ec; apply Z.leb_gt in Er. cbn [orb].
    repeat match goal with
           | |- wave.bind (struct_pack ?w ?v) _ = _ -> _ =>
               let E := fresh "E" in
               destruct (struct_pack w v) eqn:E; [|discriminate];
               apply struct_pack_some in E as [? ->]; cbn [wave.bind]
           end.
    intros [= <-].
    change (256 ^ Z.of_nat 4) with 4294967296 in *.
    change (256 ^ Z.of_nat 2) with 65536 in *.
    change (2 ^ 32) with 4294967296. change (2 ^ 16) with 65536.
    repeat split; lia. }
  split; [split|].
  - intros [wav Hw].
    destruct (wave.write _ _ _ pcm) as [wav'|] eqn:E; [|discriminate].
    now apply (Hfile wav').
  - intros (Hch & Hblock & Hrate & Hbyterate & Hlen).
    destruct (write_succeeds (channels self0) (sample_rate self0) pcm
                Hch Hblock Hrate Hbyterate Hlen) as [wav Hw].
    exists wav. now rewrite Hw.
  - intros wav Hw.
    destruct (wave.write _ _ _ pcm) as [wav'|] eqn:E; [|discriminate].
    injection Hw as <-. now apply (Hfile wav').
Qed.

Lemma snapshot_fails_on_overflow_witness :
  (forall wav,
     get_audio_data (stop (capture [[[1]]] (start (init 16000 1))))
     = Returns (Some wav) ->
     length wav = 46%nat)
  /\ ~ (exists wav,
          get_audio_data (stop (capture [[[1]]] (start (init 0 1))))
          = Returns (Some wav)).
Proof.
  split.
  - intros wav Hw.
    destruct (proj2 (snapshot_fails_on_overflow (init 16000 1) [[[1]]]
                       ltac:(discriminate) ltac:(repeat constructor))
                wav Hw) as [Hlen _].
    exact Hlen.
  - intros H.
    apply (proj1 (snapshot_fails_on_overflow (init 0 1) [[[1]]]
                    ltac:(discriminate) ltac:(repeat constructor))) in H.
    cbn in H. lia.
Defined.

(** Blocks of different widths do not go together: the snapshot ends with
    the [ValueError] of [numpy.concatenate]. *)
Example blocks_of_different_widths :
  get_audio_data (stop (capture [[[1; 2]]; [[3]]] (start (init 16000 2))))
  = Raises (Exception "ValueError").
Proof. reflexivity. Qed.

End AudioCaptureMoreProofs.

(* ================================================================== *)
(** * Further properties of llm/gemini_formatter.py *)
(* ================================================================== *)

Module GeminiFormatterMoreProofs.

Import GeminiFormatter GeminiFormatterSpec GeminiFormatterProofs.
Import GeminiFormatterMore.
Local Open Scope string_scope.
Local Open Scope Q_scope.
Local Open Scope list_scope.

(** ** The shape of a run *)

Section OneModel.

Variable w : world.
Variables prompt model : string.

Lemma errors_from_cons k n :
  errors_from w prompt model k (S n)
  = the_error (service w k model prompt)
    :: errors_from w prompt model (S k) n.
Proof. reflexivity. Qed.

(** Every run of the loop is a number of retried attempts, each a request
    and a sleep that [time.sleep] takes, and one last request; after it the
    run returns, or it calls [time.sleep] with a wait that is not taken and
    ends with the exception of that call. *)
Lemma run_shape n : forall attempt delay st,
  (attempt + n = MAX_RETRIES + 1)%nat -> (1 <= n)%nat ->
  exists k,
    (k < n)%nat
    /\ Forall (accepted w)
         (waits_of w delay (draws st)
            (errors_from w prompt model (requests st) k))
    /\ ((exists result,
           attempts w (seq attempt n) delay prompt model st
           = (Returns result,
              mk_state (requests st + k + 1)
                (draws_of (draws st)
                   (errors_from w prompt model (requests st) k))
                (log st
                 ++ retries prompt model
                      (waits_of w delay (draws st)
                         (errors_from w prompt model (requests st) k))
                 ++ [generate_content model prompt])))
        \/ (exists wait e,
              (S k < n)%nat
              /\ ~ accepted w wait
              /\ sleep_outcome w wait = Raises e
              /\ waits_of w delay (draws st)
                   (errors_from w prompt model (requests st) (S k))
                 = waits_of w delay (draws st)
                     (errors_from w prompt model (requests st) k)
                   ++ [wait]
              /\ attempts w (seq attempt n) delay prompt model st
                 = (Raises e,
                    mk_state (requests st + k + 1)
                      (draws_of (draws st)
                         (errors_from w prompt model (requests st) (S k)))
                      (log st
                       ++ retries prompt model
                            (waits_of w delay (draws st)
                               (errors_from w prompt model (requests st) k))
                       ++ [generate_content model prompt; sleep wait])))).
Proof.
  induction n as [|n IH]; intros attempt delay st Hsum Hn; [lia|].
  cbn [seq].
  assert (Hdone :
    (exists result,
       attempts w (attempt :: seq (S attempt) n) delay prompt model st
       = (Returns result, called model prompt st)) ->
    exists k,
      (k < S n)%nat
      /\ Forall (accepted w)
           (waits_of w delay (draws st)
              (errors_from w prompt model (requests st) k))
      /\ ((exists result,
             attempts w (attempt :: seq (S attempt) n) delay prompt model st
             = (Returns result,
                mk_state (requests st + k + 1)
                  (draws_of (draws st)
                     (errors_from w prompt model (requests st) k))
                  (log st
                   ++ retries prompt model
                        (waits_of w delay (draws st)
                           (errors_from w prompt model (requests st) k))
                   ++ [generate_content model prompt])))
          \/ (exists wait e,
                (S k < S n)%nat
                /\ ~ accepted w wait
                /\ sleep_outcome w wait = Raises e
                /\ waits_of w delay (draws st)
                     (errors_from w prompt model (requests st) (S k))
                   = waits_of w delay (draws st)
                       (errors_from w prompt model (requests st) k)
                     ++ [wait]
                /\ attempts w (attempt :: seq (S attempt) n) delay prompt
                     model st
                   = (Raises e,
                      mk_state (requests st + k + 1)
                        (draws_of (draws st)
                           (errors_from w prompt model (requests st) (S k)))
                        (log st
                         ++ retries prompt model
                              (waits_of w delay (draws st)
                                 (errors_from w prompt model (requests st) k))
                         ++ [generate_content model prompt; sleep wait]))))).
  { intros [result ->]. exists 0%nat.
    split; [lia|]. split; [constructor|]. left. exists result.
    unfold called. cbn. now rewrite Nat.add_0_r, Nat.add_1_r. }
  destruct (attempt_cases (service w (requests st) model prompt))
    as [[text Hs] | [error_msg He]].
  { apply Hdone. eexists. exact (attempts_success _ _ _ _ _ _ _ text Hs). }
  destruct (is_rate_limit error_msg) eqn:Hr;
    [|apply Hdone; eexists;
      exact (attempts_abort _ _ _ _ _ _ _ error_msg He Hr)].
  destruct (le_lt_dec MAX_RETRIES attempt) as [Ha|Ha];
    [apply Hdone; eexists;
     exact (attempts_exhausted _ _ _ _ _ _ _ error_msg He Hr Ha)|].
  rewrite (attempts_retry _ _ _ _ _ _ _ error_msg) by assumption.
  pose proof (retry_wait_spec w delay error_msg (called model prompt st))
    as Hw.
  assert (Hn' : (1 <= n)%nat) by (unfold MAX_RETRIES in *; lia).
  assert (Hsum' : (S attempt + n = MAX_RETRIES + 1)%nat) by lia.
  assert (Hfirst : the_error (service w (requests st) model prompt)
                   = error_msg)
    by (unfold the_error; now rewrite He).
  set (wait := match suggested error_msg with
               | Some seconds => seconds + 2
               | None => min (delay * uniform w (draws st)) MAX_DELAY
               end).
  set (drawn := match suggested error_msg with
                | Some _ => draws st
                | None => S (draws st)
                end).
  assert (Hwait : retry_wait w delay error_msg (called model prompt st)
                  = (wait, mk_state (S (requests st)) drawn
                             (log st ++ [generate_content model prompt]))).
  { unfold wait, drawn. destruct (suggested error_msg); rewrite Hw;
      reflexivity. }
  assert (Hwaits : forall k,
            waits_of w delay (draws st)
              (errors_from w prompt model (requests st) (S k))
            = wait :: waits_of w (next_delay delay) drawn
                        (errors_from w prompt model (S (requests st)) k)).
  { intros k. rewrite errors_from_cons, Hfirst. cbn [waits_of].
    unfold wait, drawn. now destruct (suggested error_msg). }
  assert (Hdraws : forall k,
            draws_of (draws st)
              (errors_from w prompt model (requests st) (S k))
            = draws_of drawn
                (errors_from w prompt model (S (requests st)) k)).
  { intros k. rewrite errors_from_cons, Hfirst. cbn [draws_of].
    unfold drawn. now destruct (suggested error_msg). }
  rewrite Hwait. clear Hw Hwait.
  destruct (sleep_outcome_cases w wait) as [[Hacc E]|[Hrefused [message E]]];
    rewrite E.
  - destruct (IH (S attempt) (next_delay delay)
                (slept wait (mk_state (S (requests st)) drawn
                               (log st ++ [generate_content model prompt])))
                Hsum' Hn')
      as (k & Hk & Hall & Hend).
    cbn [slept requests draws log] in Hall, Hend.
    exists (S k). split; [lia|].
    rewrite Hwaits. split; [now constructor|].
    destruct Hend as [[result ->] | (wait' & e & Hk' & Hn'' & He' & Hw' & ->)].
    + left. exists result. rewrite Hdraws.
      cbn [retries flat_map]. rewrite <- !app_assoc.
      f_equal. f_equal; first [lia | reflexivity].
    + right. exists wait', e.
      split; [lia|]. split; [assumption|]. split; [assumption|].
      split; [now rewrite Hwaits, Hw'|].
      rewrite Hdraws. cbn [retries flat_map]. rewrite <- !app_assoc.
      f_equal. f_equal; first [lia | reflexivity].
  - exists 0%nat. split; [lia|]. split; [constructor|].
    right. exists wait, (Exception message).
    split; [lia|]. split; [assumption|]. split; [assumption|].
    split; [now rewrite Hwaits|].
    rewrite Hdraws. cbn [errors_from seq map waits_of draws_of retries
                           flat_map app].
    unfold slept. cbn [requests draws log].
    rewrite <- !app_assoc. f_equal. f_equal; first [lia | reflexivity].
Qed.

Lemma next_delay_ge_1 delay : 1 <= delay -> 1 <= next_delay delay.
Proof.
  intros H. unfold next_delay, min, DELAY_MULTIPLIER, MAX_DELAY.
  destruct (Qlt_le_dec 60 (delay * 2)); lra.
Qed.

Lemma waits_of_positive errors :
  (forall n, 0 <= random w n <= 1) ->
  forall delay drawn,
    1 <= delay ->
    Forall (fun wait => 1 # 2 <= wait) (waits_of w delay drawn errors).
Proof.
  intros Hrandom.
  induction errors as [|error_msg errors IH]; intros delay drawn Hdelay;
    cbn [waits_of]; [constructor|].
  pose proof (parse_retry_delay_suggested error_msg) as Hs.
  destruct (suggested error_msg) as [seconds|].
  - constructor; [destruct Hs as [_ Hs]; lra|].
    apply IH. now apply next_delay_ge_1.
  - constructor; [|apply IH; now apply next_delay_ge_1].
    pose proof (Hrandom drawn) as Hr.
    assert (Hu : 1 # 2 <= uniform w drawn) by (unfold uniform; lra).
    unfold min, MAX_DELAY.
    destruct (Qlt_le_dec 60 (delay * uniform w drawn)); [lra|].
    assert (H1 : 1 * uniform w drawn <= delay * uniform w drawn)
      by (apply Qmult_le_compat_r; lra).
    lra.
Qed.

End OneModel.

Lemma length_errors_from (w : world) prompt model k n :
  length (errors_from w prompt model k n) = n.
Proof. unfold errors_from. now rewrite length_map, length_seq. Qed.

Lemma sleeps_of_app l l' : sleeps_of (l ++ l') = sleeps_of l ++ sleeps_of l'.
Proof. apply flat_map_app. Qed.

Lemma requests_of_app l l' :
  requests_of (l ++ l') = requests_of l ++ requests_of l'.
Proof. apply flat_map_app. Qed.

(** The log of a run, with the waits that [time.sleep] took: a run that
    returns ends with its last request, a run that raises with the call of
    [time.sleep] that was not taken. *)
Lemma run_log (w : world) (prompt model : string) (st : state) :
  let run := _send_with_exponential_backoff w prompt model st in
  exists waits,
    Forall (accepted w) waits
    /\ requests (snd run) = (requests st + S (length waits))%nat
    /\ (((length waits <= 5)%nat
         /\ (exists result, fst run = Returns result)
         /\ log (snd run)
            = log st ++ retries prompt model waits
              ++ [generate_content model prompt])
        \/ ((length waits <= 4)%nat
            /\ exists wait e,
                 fst run = Raises e
                 /\ sleep_outcome w wait = Raises e
                 /\ ~ accepted w wait
                 /\ log (snd run)
                    = log st ++ retries prompt model waits
                      ++ [generate_content model prompt; sleep wait])).
Proof.
  cbn zeta. unfold _send_with_exponential_backoff.
  destruct (run_shape w prompt model (MAX_RETRIES + 1) 0 INITIAL_DELAY st)
    as (k & Hk & Hall & Hend); [reflexivity | unfold MAX_RETRIES; lia |].
  set (waits := waits_of w INITIAL_DELAY (draws st)
                  (errors_from w prompt model (requests st) k)) in *.
  assert (Hlen : length waits = k)
    by (unfold waits; now rewrite length_waits_of, length_errors_from).
  exists waits. split; [exact Hall|].
  unfold MAX_RETRIES in *.
  destruct Hend as [[result ->] | (wait & e & Hk' & Hn & He & _ & ->)];
    cbn [fst snd requests log]; (split; [rewrite Hlen; lia|]).
  - left. split; [lia|]. split; [eauto | reflexivity].
  - right. split; [lia|]. exists wait, e. auto.
Qed.

(** The calls of [time.sleep] in a run, the one that was not taken among
    them, are the waits that follow the first errors of the run, five at
    most. *)
Lemma run_sleeps (w : world) (prompt model : string) (st : state) :
  exists k new,
    (k <= 5)%nat
    /\ log (snd (_send_with_exponential_backoff w prompt model st))
       = log st ++ new
    /\ sleeps_of new
       = waits_of w INITIAL_DELAY (draws st)
           (errors_from w prompt model (requests st) k).
Proof.
  unfold _send_with_exponential_backoff.
  destruct (run_shape w prompt model (MAX_RETRIES + 1) 0 INITIAL_DELAY st)
    as (k & Hk & Hall & Hend); [reflexivity | unfold MAX_RETRIES; lia |].
  unfold MAX_RETRIES in *.
  destruct Hend as [[result ->] | (wait & e & Hk' & Hn & He & Hw & ->)];
    cbn [snd log].
  - exists k. eexists. split; [lia|]. split; [reflexivity|].
    rewrite sleeps_of_app.
    rewrite sleeps_of_retries. cbn. apply app_nil_r.
  - exists (S k). eexists. split; [lia|]. split; [reflexivity|].
    rewrite sleeps_of_app, sleeps_of_retries, Hw. reflexivity.
Qed.

(** X8: whatever the service answers, one run of the backoff procedure
    against a model is at most five retried attempts (a request and a sleep
    that [time.sleep] takes) followed by one last request.  After it the run
    returns; or, after four retried attempts at most, it calls [time.sleep]
    with a wait that is not taken and ends with the exception of that call.
    All requests, six at most, are for this model and this prompt. *)
Theorem run_is_bounded (w : world) (prompt model : string) (st : state) :
  let run := _send_with_exponential_backoff w prompt model st in
  exists waits,
    Forall (accepted w) waits
    /\ requests (snd run) = (requests st + S (length waits))%nat
    /\ (((length waits <= 5)%nat
         /\ (exists result, fst run = Returns result)
         /\ log (snd run)
            = log st ++ retries prompt model waits
              ++ [generate_content model prompt])
        \/ ((length waits <= 4)%nat
            /\ exists wait e,
                 fst run = Raises e
                 /\ sleep_outcome w wait = Raises e
                 /\ ~ accepted w wait
                 /\ log (snd run)
                    = log st ++ retries prompt model waits
                      ++ [generate_content model prompt; sleep wait])).
Proof. apply run_log. Qed.

(** X9: when the random numbers are between 0 and 1, every sleep of a run
    lasts half a second or more: [time.sleep] is never given a negative
    delay, and no retry follows its request at once. *)
Theorem sleeps_are_positive (w : world) (prompt model : string) (st : state) :
  (forall n, 0 <= random w n <= 1) ->
  exists new,
    log (snd (_send_with_exponential_backoff w prompt model st))
    = log st ++ new
    /\ Forall (fun wait => 1 # 2 <= wait) (sleeps_of new).
Proof.
  intros Hrandom.
  destruct (run_sleeps w prompt model st) as (k & new & _ & Hlog & Hsleeps).
  exists new. split; [exact Hlog|]. rewrite Hsleeps.
  apply waits_of_positive; [assumption|]. unfold INITIAL_DELAY. lra.
Qed.

Lemma sleeps_are_positive_witness :
  let w := mk_world (fun n _ _ => match n with
                                  | O => failed "429 quota"
                                  | S _ => generated (Some "ok")
                                  end) (fun _ => 0) 9223372036 in
  exists new,
    log (snd (_send_with_exponential_backoff w "p" "m" initial))
    = log initial ++ new
    /\ Forall (fun wait => 1 # 2 <= wait) (sleeps_of new).
Proof.
  apply (sleeps_are_positive
           (mk_world (fun n _ _ => match n with
                                   | O => failed "429 quota"
                                   | S _ => generated (Some "ok")
                                   end) (fun _ => 0) 9223372036)
           "p" "m" initial).
  intros n. vm_compute. split; discriminate.
Defined.

(** ** The effort of [format_text] *)

Lemma requests_to_app model l l' :
  requests_to model (l ++ l')
  = (requests_to model l + requests_to model l')%nat.
Proof.
  unfold requests_to, requests_of.
  now rewrite flat_map_app, filter_app, length_app.
Qed.

Lemma requests_to_repeat model model' prompt n :
  length (filter (fun r : string * string => String.eqb (fst r) model)
                 (repeat (model', prompt) n))
  = if String.eqb model' model then n else 0%nat.
Proof.
  induction n as [|n IH]; cbn [repeat filter fst];
    [now destruct (String.eqb model' model)|].
  destruct (String.eqb model' model); cbn [length]; now rewrite IH.
Qed.

Lemma requests_to_absent model l :
  Forall (fun r => fst r <> model) (requests_of l) ->
  requests_to model l = 0%nat.
Proof.
  unfold requests_to. induction 1 as [|r rs Hr _ IH]; [reflexivity|].
  cbn [filter]. apply String.eqb_neq in Hr. now rewrite Hr.
Qed.

Section Effort.

Variable w : world.
Variables primary full_prompt : string.

(** What one run adds to the log, in the terms used below. *)
Lemma run_effort model st :
  exists new,
    log (snd (_send_with_exponential_backoff w full_prompt model st))
    = log st ++ new
    /\ Forall (fun r => r = (model, full_prompt)) (requests_of new)
    /\ (length (requests_of new) <= 6)%nat
    /\ (length (sleeps_of new) <= 5)%nat.
Proof.
  destruct (run_log w full_prompt model st)
    as (waits & _ & _ & [(Hlen & _ & Hlog) | (Hlen & wait & e & _ & _ & _ & Hlog)]);
    cbn zeta in *; (eexists; split; [exact Hlog|]);
    rewrite requests_of_app, sleeps_of_app, requests_of_retries,
      sleeps_of_retries, !length_app, repeat_length;
    cbn [requests_of sleeps_of flat_map app length];
    (repeat split; try lia);
    apply Forall_app; (split; [|repeat constructor]);
    apply Forall_forall; intros r Hr; now apply repeat_spec in Hr.
Qed.

Lemma fallbacks_effort models : forall st,
  NoDup models ->
  exists new,
    log (snd (fallbacks w models primary full_prompt st)) = log st ++ new
    /\ Forall (fun r => snd r = full_prompt
                        /\ In (fst r) models /\ fst r <> primary)
              (requests_of new)
    /\ (length (requests_of new) <= 6 * length models)%nat
    /\ (length (sleeps_of new) <= 5 * length models)%nat
    /\ forall model, (requests_to model new <= 6)%nat.
Proof.
  induction models as [|model models IH]; intros st Hnd; cbn [fallbacks].
  - exists []. cbn. rewrite app_nil_r. repeat split; auto. intros; lia.
  - inversion Hnd as [|? ? Hnotin Hnd']; subst.
    destruct (String.eqb model primary) eqn:Heq.
    + destruct (IH st Hnd') as (new & Hlog & Hall & Hr & Hs & Hto).
      exists new. repeat split; try assumption; cbn [length]; try lia.
      revert Hall. apply Forall_impl. intros r (H1 & H2 & H3).
      repeat split; [assumption | now right | assumption].
    + apply String.eqb_neq in Heq. unfold bind.
      destruct (run_effort model st) as (new1 & Hlog1 & Hall1 & Hr1 & Hs1).
      assert (Hall1' : Forall (fun r => snd r = full_prompt
                                        /\ In (fst r) (model :: models)
                                        /\ fst r <> primary)
                              (requests_of new1)).
      { revert Hall1. apply Forall_impl. intros r ->. cbn. auto. }
      assert (Hto1 : forall model', (requests_to model' new1 <= 6)%nat).
      { intros model'. unfold requests_to.
        etransitivity; [apply filter_length_le | exact Hr1]. }
      destruct (_send_with_exponential_backoff w full_prompt model st)
        as [[[text|]|e] st1]; cbn [snd] in Hlog1;
        [ cbn [ret snd]; exists new1;
          repeat split; try assumption; cbn [length]; lia
        |
        | cbn [ret snd]; exists new1;
          repeat split; try assumption; cbn [length]; lia ].
      * destruct (IH st1 Hnd') as (new2 & Hlog2 & Hall2 & Hr2 & Hs2 & Hto2).
        exists (new1 ++ new2).
        assert (Happ : requests_of (new1 ++ new2)
                       = requests_of new1 ++ requests_of new2)
          by apply flat_map_app.
        assert (Happ' : sleeps_of (new1 ++ new2)
                        = sleeps_of new1 ++ sleeps_of new2)
          by apply flat_map_app.
        rewrite Hlog2, Hlog1, <- app_assoc, Happ, Happ', !length_app.
        repeat split; cbn [length]; try lia.
        -- apply Forall_app. split; [assumption|].
           revert Hall2. apply Forall_impl. intros r (H1 & H2 & H3).
           repeat split; [assumption | now right | assumption].
        -- intros model'. rewrite requests_to_app.
           destruct (String.eqb model model') eqn:E.
           ++ apply String.eqb_eq in E; subst model'.
              rewrite (requests_to_absent model new2); [specialize (Hto1 model); lia|].
              revert Hall2. apply Forall_impl. intros r (_ & H2 & _) Hr.
              rewrite Hr in H2. contradiction.
           ++ apply String.eqb_neq in E.
              rewrite (requests_to_absent model' new1);
                [specialize (Hto2 model'); lia|].
              revert Hall1. apply Forall_impl. intros r -> . exact E.
Qed.

End Effort.

Lemma NoDup_FALLBACK_MODELS : NoDup FALLBACK_MODELS.
Proof.
  unfold FALLBACK_MODELS. repeat constructor; cbn; intuition discriminate.
Qed.

Lemma format_text_effort (w : world)
    (primary raw_text prompt_template : string) (st : state) :
  let full_prompt := Str.replace "{raw_text}" raw_text prompt_template in
  exists new,
    log (snd (format_text w primary raw_text prompt_template st))
    = log st ++ new
    /\ Forall (fun r => snd r = full_prompt
                        /\ (fst r = primary \/ In (fst r) FALLBACK_MODELS))
              (requests_of new)
    /\ (length (requests_of new) <= 18)%nat
    /\ (length (sleeps_of new) <= 15)%nat
    /\ forall model, (requests_to model new <= 6)%nat.
Proof.
  intros full_prompt. unfold format_text, bind. fold full_prompt.
  destruct (run_effort w full_prompt primary st)
    as (new1 & Hlog1 & Hall1 & Hr1 & Hs1).
  assert (Hall1' : Forall (fun r => snd r = full_prompt
                                    /\ (fst r = primary
                                        \/ In (fst r) FALLBACK_MODELS))
                          (requests_of new1)).
  { revert Hall1. apply Forall_impl. intros r ->. cbn. auto. }
  assert (Hto1 : forall model, (requests_to model new1 <= 6)%nat).
  { intros model. unfold requests_to.
    etransitivity; [apply filter_length_le | exact Hr1]. }
  destruct (_send_with_exponential_backoff w full_prompt primary st)
    as [[[text|]|e] st1]; cbn [snd] in Hlog1;
    [ cbn [ret snd]; exists new1; repeat split; try assumption; lia
    |
    | cbn [ret snd]; exists new1; repeat split; try assumption; lia ].
  - destruct (fallbacks_effort w primary full_prompt FALLBACK_MODELS st1
                NoDup_FALLBACK_MODELS)
      as (new2 & Hlog2 & Hall2 & Hr2 & Hs2 & Hto2).
    assert (Happ : requests_of (new1 ++ new2)
                   = requests_of new1 ++ requests_of new2)
      by apply flat_map_app.
    assert (Happ' : sleeps_of (new1 ++ new2)
                    = sleeps_of new1 ++ sleeps_of new2)
      by apply flat_map_app.
    cbn [FALLBACK_MODELS length] in Hr2, Hs2.
    assert (Hto : forall model, (requests_to model (new1 ++ new2) <= 6)%nat).
    { intros model. rewrite requests_to_app.
      destruct (String.eqb primary model) eqn:E.
      - apply String.eqb_eq in E; subst model.
        rewrite (requests_to_absent primary new2);
          [specialize (Hto1 primary); lia|].
        revert Hall2. apply Forall_impl. intros r (_ & _ & H3). exact H3.
      - apply String.eqb_neq in E.
        rewrite (requests_to_absent model new1);
          [specialize (Hto2 model); lia|].
        revert Hall1. apply Forall_impl. intros r ->. exact E. }
    assert (Hall : Forall (fun r => snd r = full_prompt
                                    /\ (fst r = primary
                                        \/ In (fst r) FALLBACK_MODELS))
                          (requests_of (new1 ++ new2))).
    { rewrite Happ. apply Forall_app. split; [assumption|].
      revert Hall2. apply Forall_impl. intros r (H1 & H2 & H3). auto. }
    exists (new1 ++ new2).
    destruct (fallbacks w FALLBACK_MODELS primary full_prompt st1)
      as [[[text|]|e] st2]; cbn [snd ret] in *;
      rewrite Hlog2, Hlog1, <- app_assoc, Happ, Happ', !length_app;
      repeat split; try assumption; try lia;
      rewrite <- Happ; assumption.
Qed.

(** X10: whatever the service answers, [format_text] sends at most 18
    requests and sleeps at most 15 times; every request carries the prompt
    built from the template, and goes to the primary model or to a model of
    the fallback list; no model gets more than six requests, so a primary
    model that is in the fallback list is not tried a second time. *)
Theorem format_text_is_bounded (w : world)
    (primary raw_text prompt_template : string) (st : state) :
  let full_prompt := Str.replace "{raw_text}" raw_text prompt_template in
  exists new,
    log (snd (format_text w primary raw_text prompt_template st))
    = log st ++ new
    /\ Forall (fun r => snd r = full_prompt
                        /\ (fst r = primary \/ In (fst r) FALLBACK_MODELS))
              (requests_of new)
    /\ (length (requests_of new) <= 18)%nat
    /\ (length (sleeps_of new) <= 15)%nat
    /\ forall model, (requests_to model new <= 6)%nat.
Proof. apply format_text_effort. Qed.

(** The first thing [format_text] does is a request to the primary model. *)
Lemma run_head (w : world) (prompt model : string) (st : state) :
  exists rest,
    log (snd (_send_with_exponential_backoff w prompt model st))
    = log st ++ generate_content model prompt :: rest.
Proof.
  destruct (run_log w prompt model st)
    as (waits & _ & _ & [(_ & _ & Hlog) | (_ & wait & e & _ & _ & _ & Hlog)]);
    cbn zeta in Hlog; rewrite Hlog;
    destruct waits as [|wait' waits]; cbn [retries flat_map app]; eauto.
Qed.

Lemma format_text_requests (w : world)
    (primary raw_text prompt_template : string) (st : state) :
  let full_prompt := Str.replace "{raw_text}" raw_text prompt_template in
  exists rest,
    log (snd (format_text w primary raw_text prompt_template st))
    = log st ++ generate_content primary full_prompt :: rest
    /\ Forall (fun r => snd r = full_prompt) (requests_of rest).
Proof.
  intros full_prompt.
  destruct (format_text_effort w primary raw_text prompt_template st)
    as (new & Hlog & Hall & _).
  fold full_prompt in Hall.
  assert (Hhead : exists rest, new = generate_content primary full_prompt :: rest).
  { revert Hlog. unfold format_text, bind. fold full_prompt.
    destruct (run_head w full_prompt primary st) as (rest1 & Hlog1).
    destruct (_send_with_exponential_backoff w full_prompt primary st)
      as [[[text|]|e] st1]; cbn [snd] in Hlog1;
      [ cbn [ret snd]; rewrite Hlog1; intros H; apply app_inv_head in H; eauto
      |
      | cbn [ret snd]; rewrite Hlog1; intros H; apply app_inv_head in H;
        eauto ].
    destruct (fallbacks_effort w primary full_prompt FALLBACK_MODELS st1
                NoDup_FALLBACK_MODELS) as (new2 & Hlog2 & _).
    destruct (fallbacks w FALLBACK_MODELS primary full_prompt st1)
      as [[[text|]|e] st2]; cbn [snd ret] in *;
      rewrite Hlog2, Hlog1, <- app_assoc; intros H;
      apply app_inv_head in H; cbn [app] in H; eauto. }
  destruct Hhead as (rest & ->). exists rest. split; [exact Hlog|].
  cbn [requests_of flat_map app] in Hall. apply Forall_inv_tail in Hall.
  revert Hall. apply Forall_impl. now intros r [H _].
Qed.

(** ** When [time.sleep] takes the waits *)

Lemma run_returns (w : world) (prompt model : string) (st : state) :
  (forall i, 0 <= random w i <= 1) ->
  sleeps_accepted w prompt model ->
  exists result,
    fst (_send_with_exponential_backoff w prompt model st) = Returns result.
Proof.
  intros Hrandom Haccepted. unfold _send_with_exponential_backoff.
  destruct (run_shape w prompt model (MAX_RETRIES + 1) 0 INITIAL_DELAY st)
    as (k & _ & _ & Hend); [reflexivity | unfold MAX_RETRIES; lia |].
  destruct Hend as [[result ->] | (wait & e & _ & Hrefused & _ & Hwaits & _)];
    [now exists result|].
  exfalso. apply Hrefused.
  assert (Hall : Forall (accepted w)
                   (waits_of w INITIAL_DELAY (draws st)
                      (errors_from w prompt model (requests st) (S k)))).
  { apply waits_of_accepted; first [assumption | unfold INITIAL_DELAY; lra]. }
  rewrite Hwaits in Hall. apply Forall_app in Hall as [_ Hall].
  now inversion Hall.
Qed.

Lemma fallbacks_returns (w : world) (primary full_prompt : string) models :
  (forall i, 0 <= random w i <= 1) ->
  (forall model, sleeps_accepted w full_prompt model) ->
  forall st,
    exists result,
      fst (fallbacks w models primary full_prompt st) = Returns result.
Proof.
  intros Hrandom Haccepted.
  induction models as [|model models IH]; intros st; cbn [fallbacks];
    [cbn; eauto|].
  destruct (String.eqb model primary); [apply IH|].
  unfold bind.
  destruct (run_returns w full_prompt model st Hrandom (Haccepted model))
    as [result Hrun].
  destruct (_send_with_exponential_backoff w full_prompt model st)
    as [[[text|]|e] st1]; cbn [fst] in Hrun;
    [cbn; eauto | apply IH | discriminate].
Qed.

(** Where [time.sleep] takes every wait that can come up, [format_text]
    returns. *)
Lemma format_text_returns (w : world)
    (primary raw_text prompt_template : string) (st : state) :
  (forall i, 0 <= random w i <= 1) ->
  (forall model,
     sleeps_accepted w (Str.replace "{raw_text}" raw_text prompt_template)
       model) ->
  exists text,
    fst (format_text w primary raw_text prompt_template st) = Returns text.
Proof.
  intros Hrandom Haccepted. unfold format_text, bind.
  destruct (run_returns w _ primary st Hrandom (Haccepted primary))
    as [result Hrun].
  destruct (_send_with_exponential_backoff w _ primary st)
    as [[[text|]|e] st1]; cbn [fst] in Hrun;
    [cbn; eauto | | discriminate].
  destruct (fallbacks_returns w primary _ FALLBACK_MODELS Hrandom Haccepted
              st1) as [result' Hfall].
  destruct (fallbacks w FALLBACK_MODELS primary _ st1)
    as [[[text|]|e] st2]; cbn [fst] in Hfall;
    [cbn; eauto | cbn; eauto | discriminate].
Qed.

(** ** The prompt that is sent *)

Section Texts.

Local Open Scope string_scope.

Lemma prefix_brace c s :
  not_brace c = true -> prefix "{raw_text}" (String c s) = false.
Proof.
  unfold not_brace. intros H. cbn [prefix].
  destruct (ascii_dec "{" c) as [<-|]; [discriminate | reflexivity].
Qed.

Lemma replace_at_placeholder new after :
  Str.replace_from 0 "{raw_text}" new ("{raw_text}" ++ after)
  = new ++ Str.replace_from 0 "{raw_text}" new after.
Proof. destruct after; reflexivity. Qed.

Lemma replace_absent new s :
  Str.contains "{raw_text}" s = false -> Str.replace "{raw_text}" new s = s.
Proof.
  unfold Str.replace.
  induction s as [|c s IH]; [reflexivity|].
  cbn [Str.contains]. intros H. apply orb_false_iff in H as [Hp Hs].
  cbn [Str.replace_from]. rewrite Hp. now rewrite IH.
Qed.

Lemma replace_placeholder new before after :
  all not_brace before = true ->
  Str.replace "{raw_text}" new (before ++ "{raw_text}" ++ after)
  = before ++ new ++ Str.replace "{raw_text}" new after.
Proof.
  unfold Str.replace. intros Hb.
  induction before as [|c before IH].
  - apply replace_at_placeholder.
  - cbn [all] in Hb. apply andb_true_iff in Hb as [Hc Hb].
    assert (E : forall s, String c before ++ s = String c (before ++ s))
      by reflexivity.
    rewrite !E. cbn [Str.replace_from]. rewrite (prefix_brace c _ Hc).
    now rewrite IH.
Qed.

(** X12: for a template with one placeholder, after a text without an
    opening brace, every request of [format_text] carries the template with
    the transcript put in the place of the placeholder, unchanged: a
    transcript that holds the placeholder itself is not expanded again.  The
    first thing [format_text] does is such a request to the primary model. *)
Theorem transcript_is_inserted_once (w : world)
    (primary raw_text before after : string) (st : state) :
  all not_brace before = true ->
  Str.contains "{raw_text}" after = false ->
  exists rest,
    log (snd (format_text w primary raw_text
                (before ++ "{raw_text}" ++ after) st))
    = (log st
       ++ generate_content primary (before ++ raw_text ++ after) :: rest)%list
    /\ Forall (fun r => snd r = before ++ raw_text ++ after)
              (requests_of rest).
Proof.
  intros Hb Ha.
  destruct (format_text_requests w primary raw_text
              (before ++ "{raw_text}" ++ after) st) as (rest & Hlog & Hall).
  rewrite replace_placeholder, replace_absent in Hlog, Hall by assumption.
  eauto.
Qed.

Lemma transcript_is_inserted_once_witness :
  let w := mk_world (fun _ _ _ => generated (Some "ok")) (fun _ => 0) 9223372036 in
  exists rest,
    log (snd (format_text w "m" "say {raw_text}"
                ("fix: " ++ "{raw_text}" ++ " end") initial))
    = (log initial
       ++ generate_content "m" ("fix: " ++ "say {raw_text}" ++ " end")
       :: rest)%list
    /\ Forall (fun r => snd r = "fix: " ++ "say {raw_text}" ++ " end")
              (requests_of rest).
Proof.
  apply (transcript_is_inserted_once
           (mk_world (fun _ _ _ => generated (Some "ok")) (fun _ => 0) 9223372036)
           "m" "say {raw_text}" "fix: " " end" initial); reflexivity.
Defined.

(** X13: with a template that does not hold the placeholder, the transcript
    is not sent at all: every request of [format_text] carries the template
    as it is, the first of them to the primary model. *)
Theorem template_without_placeholder (w : world)
    (primary raw_text prompt_template : string) (st : state) :
  Str.contains "{raw_text}" prompt_template = false ->
  exists rest,
    log (snd (format_text w primary raw_text prompt_template st))
    = (log st ++ generate_content primary prompt_template :: rest)%list
    /\ Forall (fun r => snd r = prompt_template) (requests_of rest).
Proof.
  intros H.
  destruct (format_text_requests w primary raw_text prompt_template st)
    as (rest & Hlog & Hall).
  rewrite replace_absent in Hlog, Hall by assumption.
  eauto.
Qed.

Lemma template_without_placeholder_witness :
  let w := mk_world (fun _ _ _ => generated (Some "ok")) (fun _ => 0) 9223372036 in
  exists rest,
    log (snd (format_text w "m" "hello" "Fix the text." initial))
    = (log initial ++ generate_content "m" "Fix the text." :: rest)%list
    /\ Forall (fun r => snd r = "Fix the text.") (requests_of rest).
Proof.
  apply (template_without_placeholder
           (mk_world (fun _ _ _ => generated (Some "ok")) (fun _ => 0) 9223372036)
           "m" "hello" "Fix the text." initial); reflexivity.
Defined.

(** ** The wait that the service asks for *)

Lemma search_skip at_head before rest :
  unmatched at_head before rest = true ->
  search at_head (before ++ rest) = search at_head rest.
Proof.
  induction before as [|c before IH]; [reflexivity|].
  cbn [unmatched]. cbn [append search].
  destruct (at_head (String c (before ++ rest))); [discriminate | exact IH].
Qed.

Lemma search_head at_head s group :
  at_head s = Some group -> search at_head s = Some group.
Proof. intros H. destruct s; cbn [search]; now rewrite H. Qed.

Lemma prefix_retry_in rest :
  Str.prefix_ignorecase "retry in " ("retry in " ++ rest) = true.
Proof. destruct rest; reflexivity. Qed.

Lemma prefix_s rest : Str.prefix_ignorecase "s" (String "s" rest) = true.
Proof. destruct rest; reflexivity. Qed.

Lemma match_retry_in_phrase whole fraction after :
  all Str.isdigit whole = true -> whole <> "" ->
  all Str.isdigit fraction = true -> fraction <> "" ->
  match_retry_in ("retry in " ++ whole ++ "." ++ fraction ++ "s" ++ after)
  = Some (whole ++ "." ++ fraction).
Proof.
  intros Hw Hw' Hf Hf'. unfold match_retry_in.
  rewrite prefix_retry_in.
  change (Str.drop 9 ("retry in " ++ whole ++ "." ++ fraction ++ "s" ++ after))
    with (whole ++ "." ++ fraction ++ "s" ++ after).
  rewrite (span_app Str.isdigit whole ("." ++ fraction ++ "s" ++ after) Hw)
    by reflexivity.
  destruct whole as [|c whole]; [contradiction|].
  cbn [append].
  rewrite (span_app Str.isdigit fraction (String "s" after) Hf)
    by reflexivity.
  destruct fraction as [|f fraction]; [contradiction|].
  now rewrite prefix_s.
Qed.

(** X14: an error message whose first retry-in phrase has a decimal numeral
    makes the parser answer that numeral and two seconds more, whatever
    else the message holds: a retryDelay field, before or after the phrase,
    is not looked at. *)
Theorem retry_in_phrase_is_read (before whole fraction after : string) :
  all Str.isdigit whole = true -> whole <> "" ->
  all Str.isdigit fraction = true -> fraction <> "" ->
  unmatched match_retry_in before
    ("retry in " ++ whole ++ "." ++ fraction ++ "s" ++ after) = true ->
  _parse_retry_delay
    (before ++ "retry in " ++ whole ++ "." ++ fraction ++ "s" ++ after)
  = inject_Z (Str.int whole)
    + (Str.int fraction # Z.to_pos (10 ^ Z.of_nat (String.length fraction)))
    + 2.
Proof.
  intros Hw Hw' Hf Hf' Hbefore. unfold _parse_retry_delay.
  rewrite (search_skip _ _ _ Hbefore).
  rewrite (search_head _ _ _ (match_retry_in_phrase _ _ after Hw Hw' Hf Hf')).
  now rewrite float_decimal.
Qed.

Lemma retry_in_phrase_is_read_witness :
  _parse_retry_delay
    ("429 'retryDelay': '7s' Please " ++ "retry in " ++ "34" ++ "." ++ "5"
     ++ "s" ++ ".")
  = inject_Z (Str.int "34")
    + (Str.int "5" # Z.to_pos (10 ^ Z.of_nat (String.length "5")))
    + 2.
Proof.
  apply (retry_in_phrase_is_read "429 'retryDelay': '7s' Please "
           "34" "5" "."); first [reflexivity | discriminate].
Defined.

End Texts.

(** ** The time spent waiting *)

Lemma backoff_bound_mono n : forall delay delay',
  0 <= delay -> delay <= delay' ->
  backoff_bound n delay <= backoff_bound n delay'.
Proof.
  induction n as [|n IH]; intros delay delay' H0 Hle; cbn [backoff_bound];
    [lra|].
  specialize (IH (2 * delay) (2 * delay') ltac:(lra) ltac:(lra)). lra.
Qed.

Lemma backoff_bound_nonneg n : forall delay,
  0 <= delay -> 0 <= backoff_bound n delay.
Proof.
  induction n as [|n IH]; intros delay H0; cbn [backoff_bound]; [lra|].
  specialize (IH (2 * delay) ltac:(lra)). lra.
Qed.

Lemma waits_of_total (w : world) errors :
  (forall n, 0 <= random w n <= 1) ->
  Forall (fun error_msg => suggested error_msg = None) errors ->
  forall delay drawn,
    0 <= delay ->
    total (waits_of w delay drawn errors)
    <= backoff_bound (length errors) delay.
Proof.
  intros Hrandom Hnone.
  induction Hnone as [|error_msg errors He _ IH]; intros delay drawn H0;
    cbn [waits_of length backoff_bound total fold_right]; [lra|].
  rewrite He. cbn [total fold_right]. fold (total (waits_of w (next_delay delay)
                                                    (S drawn) errors)).
  assert (Hnext : 0 <= next_delay delay /\ next_delay delay <= 2 * delay).
  { unfold next_delay, min, DELAY_MULTIPLIER, MAX_DELAY.
    destruct (Qlt_le_dec 60 (delay * 2)); lra. }
  specialize (IH (next_delay delay) (S drawn) (proj1 Hnext)).
  pose proof (backoff_bound_mono (length errors) _ _ (proj1 Hnext)
                (proj2 Hnext)) as Hmono.
  pose proof (Hrandom drawn) as Hr.
  assert (Hu : uniform w drawn <= 3 # 2) by (unfold uniform; lra).
  assert (Hwait : min (delay * uniform w drawn) MAX_DELAY <= (3 # 2) * delay).
  { assert (H1 : delay * uniform w drawn <= delay * (3 # 2))
      by (rewrite !(Qmult_comm delay); apply Qmult_le_compat_r; lra).
    unfold min, MAX_DELAY.
    destruct (Qlt_le_dec 60 (delay * uniform w drawn)); lra. }
  lra.
Qed.

Lemma backoff_bound_five n :
  (n <= 5)%nat -> backoff_bound n INITIAL_DELAY <= 93 # 2.
Proof.
  intros Hn. unfold INITIAL_DELAY.
  do 6 (destruct n as [|n]; [cbn [backoff_bound]; lra|]). lia.
Qed.

(** X11: when no error message carries a wait that the parser reads and the
    random numbers are between 0 and 1, the sleeps of one run of the backoff
    procedure add up to 46.5 seconds at most: a model is given up within
    that waiting time. *)
Theorem total_backoff_is_bounded (w : world) (prompt model : string)
    (st : state) :
  (forall n, 0 <= random w n <= 1) ->
  (forall i, suggested (the_error (service w i model prompt)) = None) ->
  exists new,
    log (snd (_send_with_exponential_backoff w prompt model st))
    = log st ++ new
    /\ total (sleeps_of new) <= 93 # 2.
Proof.
  intros Hrandom Hnone.
  destruct (run_sleeps w prompt model st) as (k & new & Hk & Hlog & Hsleeps).
  exists new. split; [exact Hlog|]. rewrite Hsleeps.
  eapply Qle_trans.
  - apply waits_of_total; [assumption | | unfold INITIAL_DELAY; lra].
    unfold errors_from. apply Forall_map, Forall_forall.
    intros i _. apply Hnone.
  - rewrite length_errors_from. now apply backoff_bound_five.
Qed.

Lemma total_backoff_is_bounded_witness :
  let w := mk_world (fun _ _ _ => failed "429 quota") (fun _ => 1)
                    9223372036 in
  exists new,
    log (snd (_send_with_exponential_backoff w "p" "m" initial))
    = log initial ++ new
    /\ total (sleeps_of new) <= 93 # 2.
Proof.
  apply (total_backoff_is_bounded
           (mk_world (fun _ _ _ => failed "429 quota") (fun _ => 1)
                     9223372036)
           "p" "m" initial).
  - intros n. vm_compute. split; discriminate.
  - intros i. reflexivity.
Defined.

End GeminiFormatterMoreProofs.

(* ================================================================== *)
(** * Further properties of main.py *)
(* ================================================================== *)

Module YubiIrazuMoreProofs.

Import YubiIrazu YubiIrazuSpec YubiIrazuProofs YubiIrazuMore.
Local Open Scope string_scope.
Local Open Scope Q_scope.
Local Open Scope list_scope.

(** ** What is delivered *)

Ltac no_delivery :=
  eexists; cbn; rewrite <- ?app_assoc;
  (split; [reflexivity | cbn; intros text []]).

Lemma process_recording_delivery (a : answers) (self : t) :
  exists new,
    calls (snd (_process_recording a self)) = calls self ++ new
    /\ forall text, In text (deliveries new) -> reaches_output a text.
Proof.
  unfold _process_recording, try_block, bind, read, invoke, ret,
    indicator_hide.
  destruct (get_duration a) as [duration|e] eqn:Ed;
    [|exists []; cbn; rewrite app_nil_r; split; [reflexivity | intros text []]].
  destruct (Qlt_le_dec duration (3 # 10)) as [Hshort|Hlong];
    [exists []; cbn; rewrite app_nil_r; split; [reflexivity | intros text []]|].
  destruct (get_audio_data a) as [[audio|]|e] eqn:Ea;
    try (exists []; cbn; rewrite app_nil_r;
         split; [reflexivity | intros text []]).
  destruct (transcribe a audio) as [raw_text|e] eqn:Et; [|no_delivery].
  destruct (String.eqb raw_text "") eqn:Eraw; [no_delivery|].
  apply String.eqb_neq in Eraw.
  destruct (llm a) as [format_text|] eqn:El.
  - destruct (format_text raw_text (prompt a)) as [formatted_text|e] eqn:Ef;
      [|no_delivery].
    destruct (output_text a formatted_text); eexists; cbn;
      rewrite <- !app_assoc;
      (split; [reflexivity|]); cbn; intros text [<-|[]];
      apply (reaches a formatted_text duration audio raw_text);
      try assumption; now rewrite El.
  - destruct (output_text a raw_text); eexists; cbn;
      rewrite <- !app_assoc;
      (split; [reflexivity|]); cbn; intros text [<-|[]];
      apply (reaches a raw_text duration audio raw_text);
      try assumption; now rewrite El.
Qed.

(** X15: the processing task hands a text to the output manager only when
    it has come to the output stage with that text: after a recording
    shorter than 0.3 seconds, without audio, with an empty transcript, or
    when the transcription or the formatter raises, nothing is put out. *)
Theorem delivery_needs_every_stage (a : answers) (self : t)
    (new : list call) (text : string) :
  calls (snd (_process_recording a self)) = calls self ++ new ->
  In text (deliveries new) ->
  reaches_output a text.
Proof.
  intros Hnew Hin.
  destruct (process_recording_delivery a self) as (new' & Hnew' & Hreach).
  rewrite Hnew' in Hnew. apply app_inv_head in Hnew. subst new'.
  now apply Hreach.
Qed.

Lemma delivery_needs_every_stage_witness :
  reaches_output
    (mk_answers (Returns 2) (Returns (Some [])) (fun _ => Returns "hello")
                None "{raw_text}" (fun _ => Returns tt))
    "hello".
Proof.
  apply (delivery_needs_every_stage
           (mk_answers (Returns 2) (Returns (Some []))
                       (fun _ => Returns "hello") None "{raw_text}"
                       (fun _ => Returns tt))
           init
           [stt_transcribe []; time_sleep (1 # 10);
            output_output_text "hello"]
           "hello").
  - reflexivity.
  - cbn. now left.
Defined.

(** ** One processing thread at a time *)

Ltac settle :=
  repeat split;
  first [ assumption | reflexivity | lia
        | symmetry; apply Nat.eqb_eq; lia ].

Lemma do_step_in_order (s : step) (sys : system) :
  in_order sys -> in_order (do_step s sys).
Proof.
  unfold in_order. intros (Hp & Hflag & Hcount).
  destruct s as [| |a]; cbn [do_step].
  - destruct (start_calls (app sys)) as [Hf Hc]. cbn [app pending].
    rewrite Hf, Hc, processing_threads_app, deliveries_app, length_app.
    cbn. settle.
  - destruct (_is_processing (app sys)) eqn:E.
    + destruct (stop_while_processing (app sys) E) as [Hf Hc].
      cbn [app pending].
      rewrite Hf, Hc, processing_threads_app, deliveries_app, length_app.
      cbn. symmetry in Hflag. apply Nat.eqb_eq in Hflag. settle.
    + destruct (stop_while_idle (app sys) E) as [Hf Hc].
      cbn [app pending].
      rewrite Hf, Hc, processing_threads_app, deliveries_app, length_app.
      cbn. symmetry in Hflag. apply Nat.eqb_neq in Hflag. settle.
  - destruct (pending sys) as [|n] eqn:En; [rewrite En; settle|].
    assert (n = 0)%nat by lia. subst n.
    destruct (process_recording_calls a (app sys))
      as (new & Hnew & Hthreads & Hlen & _).
    cbn [app pending].
    rewrite process_recording_clears_flag, Hnew, processing_threads_app,
      deliveries_app, length_app, Hthreads.
    cbn. settle.
Qed.

Lemma run_in_order (steps : list step) : forall sys,
  in_order sys -> in_order (run steps sys).
Proof.
  induction steps as [|s steps IH]; intros sys H; [exact H|].
  change (run (s :: steps) sys) with (run steps (do_step s sys)).
  now apply IH, do_step_in_order.
Qed.

(** X16: from the start of the application, whatever the order of key
    events and of endings of processing threads, at most one processing
    thread is pending at a time, the single-flight flag is set exactly while
    one is, and the texts put out are no more than the processing threads
    that have ended. *)
Theorem one_processing_thread_at_a_time (steps : list step) :
  let sys := run steps (mk_system init 0) in
  (pending sys <= 1)%nat
  /\ _is_processing (app sys) = (pending sys =? 1)%nat
  /\ (length (deliveries (calls (app sys))) + pending sys
      <= processing_threads (calls (app sys)))%nat.
Proof.
  apply (run_in_order steps (mk_system init 0)).
  unfold in_order. cbn. repeat split; lia.
Qed.

(** ** The task with the Gemini formatter *)

(** Without an answer that has a text, [format_text] returns the raw text,
    or ends with the exception of a call of [time.sleep]. *)
Lemma format_text_without_answer (w : GeminiFormatter.world)
    (primary raw_text prompt_template : string) (st : GeminiFormatter.state) :
  (forall n model text,
     GeminiFormatter.service w n model
       (Str.replace "{raw_text}" raw_text prompt_template)
     <> GeminiFormatter.generated (Some text)) ->
  gemini w primary st raw_text prompt_template = Returns raw_text
  \/ exists e, gemini w primary st raw_text prompt_template = Raises e.
Proof.
  intros Hnone. unfold gemini.
  destruct (proj2 (GeminiFormatterProofs.format_text_degrades_to_raw
                     w primary raw_text prompt_template st st))
    as [H | [(n & model & text & Hs & _) | (wait & e & _ & _ & H)]].
  - now left.
  - now contradiction (Hnone n model text).
  - right. eauto.
Qed.

(** X17: the task with the Gemini formatter as its second stage, for a
    recording that is long enough and has a transcript, when no request for
    the prompt of that transcript is answered with a text (quota, a wrong
    key, no network).  Where [format_text] returns, the task puts out one
    text, the transcript as it came from the recogniser; where it ends with
    an exception (of [time.sleep]), the task puts out nothing.  It returns
    whenever [time.sleep] takes the waits that can come up. *)
Theorem transcript_is_put_out_when_gemini_fails (a : answers) (self : t)
    (w : GeminiFormatter.world) (primary : string)
    (st : GeminiFormatter.state)
    (duration : Q) (audio : wav) (raw_text : string) :
  get_duration a = Returns duration ->
  3 # 10 <= duration ->
  get_audio_data a = Returns (Some audio) ->
  transcribe a audio = Returns raw_text ->
  raw_text <> "" ->
  llm a = Some (gemini w primary st) ->
  (forall n model text,
     GeminiFormatter.service w n model
       (Str.replace "{raw_text}" raw_text (prompt a))
     <> GeminiFormatter.generated (Some text)) ->
  exists new,
    calls (snd (_process_recording a self)) = calls self ++ new
    /\ (gemini w primary st raw_text (prompt a) = Returns raw_text
        /\ deliveries new = [raw_text]
        \/ (exists e, gemini w primary st raw_text (prompt a) = Raises e)
           /\ deliveries new = [])
    /\ ((forall i, 0 <= GeminiFormatter.random w i <= 1) ->
        (forall model,
           GeminiFormatterSpec.sleeps_accepted w
             (Str.replace "{raw_text}" raw_text (prompt a)) model) ->
        deliveries new = [raw_text]).
Proof.
  intros Hd Hlong Ha Ht Hraw Hl Hnone.
  destruct (process_recording_calls a self) as (new & Hnew & _ & _ & Hreach & _).
  destruct (process_recording_delivery a self) as (new' & Hnew' & Honly).
  rewrite Hnew in Hnew'. apply app_inv_head in Hnew'. subst new'.
  assert (Hreturned :
    gemini w primary st raw_text (prompt a) = Returns raw_text ->
    deliveries new = [raw_text]).
  { intros Hf. apply Hreach.
    apply (reaches a raw_text duration audio raw_text); try assumption.
    now rewrite Hl. }
  exists new. split; [exact Hnew|]. split.
  - destruct (format_text_without_answer w primary raw_text (prompt a) st
                Hnone) as [Hf | [e Hf]].
    + left. auto.
    + right. split; [eauto|].
      destruct (deliveries new) as [|text rest]; [reflexivity|].
      destruct (Honly text (or_introl eq_refl))
        as [duration' audio' raw' Hd' _ Ha' Ht' _ Hl'].
      rewrite Hd in Hd'. injection Hd' as <-.
      rewrite Ha in Ha'. injection Ha' as <-.
      rewrite Ht in Ht'. injection Ht' as <-.
      rewrite Hl in Hl'. rewrite Hf in Hl'. discriminate Hl'.
  - intros Hrandom Haccepted. apply Hreturned.
    destruct (format_text_without_answer w primary raw_text (prompt a) st
                Hnone) as [Hf | [e Hf]]; [exact Hf|].
    destruct (GeminiFormatterMoreProofs.format_text_returns w primary
                raw_text (prompt a) st Hrandom Haccepted) as [text Hr].
    unfold gemini in Hf. rewrite Hf in Hr. discriminate Hr.
Qed.

Lemma transcript_is_put_out_when_gemini_fails_witness :
  let w := GeminiFormatter.mk_world
             (fun _ _ _ => GeminiFormatter.failed "401 API_KEY")
             (fun _ => 0) 9223372036 in
  let a := mk_answers (Returns 2) (Returns (Some []))
             (fun _ => Returns "hello")
             (Some (gemini w "gemini-2.0-flash-lite" GeminiFormatter.initial))
             "fix: {raw_text}" (fun _ => Returns tt) in
  exists new,
    calls (snd (_process_recording a init)) = calls init ++ new
    /\ deliveries new = ["hello"].
Proof.
  cbn zeta.
  destruct (transcript_is_put_out_when_gemini_fails
              (mk_answers (Returns 2) (Returns (Some []))
                 (fun _ => Returns "hello")
                 (Some (gemini
                          (GeminiFormatter.mk_world
                             (fun _ _ _ => GeminiFormatter.failed "401 API_KEY")
                             (fun _ => 0) 9223372036)
                          "gemini-2.0-flash-lite" GeminiFormatter.initial))
                 "fix: {raw_text}" (fun _ => Returns tt))
              init
              (GeminiFormatter.mk_world
                 (fun _ _ _ => GeminiFormatter.failed "401 API_KEY")
                 (fun _ => 0) 9223372036)
              "gemini-2.0-flash-lite" GeminiFormatter.initial 2 [] "hello")
    as (new & Hnew & _ & Hall);
    try first [reflexivity | discriminate].
  exists new. split; [exact Hnew|]. apply Hall.
  - intros i. vm_compute. split; discriminate.
  - intros model. split; [vm_compute; discriminate|].
    intros i seconds H. vm_compute in H. discriminate H.
Defined.

End YubiIrazuMoreProofs.

(* ================================================================== *)
(** * Properties of the preview thread *)
(* ================================================================== *)

Module RealtimeSTTProofs.

Import RealtimeSTT.
Local Open Scope string_scope.
Local Open Scope Q_scope.
Local Open Scope list_scope.

Lemma previews_app cs cs' : previews (cs ++ cs') = previews cs ++ previews cs'.
Proof. apply flat_map_app. Qed.

Lemma sleeps_app cs cs' : sleeps (cs ++ cs') = (sleeps cs + sleeps cs')%nat.
Proof. unfold sleeps. now rewrite filter_app, length_app. Qed.

Lemma transcriptions_app cs cs' :
  transcriptions (cs ++ cs') = (transcriptions cs + transcriptions cs')%nat.
Proof. unfold transcriptions. now rewrite filter_app, length_app. Qed.

Lemma last_cons (text : string) texts previous :
  last (text :: texts) previous = last texts text.
Proof.
  revert text previous.
  induction texts as [|text' texts IH]; intros text previous; [reflexivity|].
  change (last (text :: text' :: texts) previous)
    with (last (text' :: texts) previous).
  now rewrite (IH text' previous), (IH text' text).
Qed.

(** X18: the preview thread gives the indicator no empty text, and it
    transcribes at most once after each sleep of three seconds.  While no
    other thread writes [_partial_text] (the hook thread does when a
    recording starts, and so does a preview thread left from the recording
    before), it never gives the same text twice in a row, and
    [_partial_text] is the text it gave last, or what it was when it gave
    none. *)
Theorem previews_are_fresh (rounds : list round) : forall self,
  exists new,
    calls (snd (periodic_stt rounds self)) = calls self ++ new
    /\ Forall not_empty (previews new)
    /\ (transcriptions new <= sleeps new)%nat
    /\ (sleeps new <= length rounds)%nat
    /\ (Forall undisturbed rounds ->
        fresh (_partial_text self) (previews new)
        /\ _partial_text (snd (periodic_stt rounds self))
           = last (previews new) (_partial_text self)).
Proof.
  induction rounds as [|r rounds IH]; intros self; cbn [periodic_stt length].
  - exists []. cbn. rewrite app_nil_r. repeat split; (constructor || lia).
  - set (self0 := overwritten (written r) self).
    assert (Hcalls0 : calls self0 = calls self)
      by (unfold self0, overwritten; now destruct (written r)).
    assert (Hsame0 : Forall undisturbed (r :: rounds) ->
                     self0 = self /\ Forall undisturbed rounds).
    { intros H. inversion H as [|? ? Hr Hrest]; subst.
      unfold self0. unfold undisturbed in Hr. now rewrite Hr. }
    assert (Hstop : forall (st : status) self1 cs,
              calls self1 = calls self ++ cs ->
              _partial_text self1 = _partial_text self0 ->
              (transcriptions cs <= sleeps cs)%nat ->
              (sleeps cs <= S (length rounds))%nat ->
              previews cs = [] ->
              exists new,
                calls (snd (st, self1)) = calls self ++ new
                /\ Forall not_empty (previews new)
                /\ (transcriptions new <= sleeps new)%nat
                /\ (sleeps new <= S (length rounds))%nat
                /\ (Forall undisturbed (r :: rounds) ->
                    fresh (_partial_text self) (previews new)
                    /\ _partial_text (snd (st, self1))
                       = last (previews new) (_partial_text self))).
    { intros st self1 cs Hc Hpt Ht Hs Hp. exists cs. cbn [snd].
      rewrite Hp, Hpt. repeat split; try assumption; try constructor.
      destruct (Hsame0 H) as [-> _]. reflexivity. }
    assert (Hnext : forall self1 cs,
              calls self1 = calls self ++ cs ->
              (transcriptions cs <= sleeps cs)%nat ->
              (sleeps cs <= 1)%nat ->
              Forall not_empty (previews cs) ->
              (self0 = self ->
               fresh (_partial_text self) (previews cs)
               /\ _partial_text self1
                  = last (previews cs) (_partial_text self)) ->
              exists new,
                calls (snd (periodic_stt rounds self1)) = calls self ++ new
                /\ Forall not_empty (previews new)
                /\ (transcriptions new <= sleeps new)%nat
                /\ (sleeps new <= S (length rounds))%nat
                /\ (Forall undisturbed (r :: rounds) ->
                    fresh (_partial_text self) (previews new)
                    /\ _partial_text (snd (periodic_stt rounds self1))
                       = last (previews new) (_partial_text self))).
    { intros self1 cs Hc Ht Hs Hne Hfresh.
      destruct (IH self1) as (new & Hnew & Hne' & Ht' & Hs' & Hfresh').
      exists (cs ++ new).
      rewrite Hnew, Hc, <- app_assoc, previews_app, sleeps_app,
        transcriptions_app.
      split; [reflexivity|]. split; [now apply Forall_app|].
      split; [lia|]. split; [lia|].
      intros Hall. destruct (Hsame0 Hall) as [Hself Hrest].
      destruct (Hfresh Hself) as [Hf Hl].
      destruct (Hfresh' Hrest) as [Hf' Hl'].
      rewrite Hl'. clear - Hf Hl Hf' Hl.
      rewrite Hl in *. clear Hl.
      revert Hf Hf'. generalize (_partial_text self) as previous.
      induction (previews cs) as [|text texts IHt]; intros previous Hf Hf';
        [cbn; auto|].
      cbn [app fresh] in *. destruct Hf as (H1 & H2 & H3).
      rewrite !last_cons in *.
      destruct (IHt text H3 Hf') as [H4 H5]. auto. }
    fold self0.
    destruct (is_recording_at_test r); cbn [negb];
      [|apply (Hstop _ _ []);
        [now rewrite app_nil_r | reflexivity | cbn; lia | cbn; lia
        | reflexivity]].
    destruct (is_recording_after_sleep r); cbn [negb];
      [|apply (Hstop _ _ [time_sleep 3]);
        [cbn; now rewrite Hcalls0 | reflexivity | cbn; lia | cbn; lia
        | reflexivity]].
    destruct (get_partial_audio r) as [[audio_data|]|e].
    + cbn [with_calls calls _partial_text].
      destruct (transcribe r audio_data) as [text|[message|message]].
      * destruct (String.eqb text "") eqn:Eempty; cbn [negb andb].
        { apply (Hnext _ [time_sleep 3; stt_transcribe audio_data]);
            [cbn; now rewrite Hcalls0, <- app_assoc
            | cbn; lia | cbn; lia | constructor |].
          intros ->. cbn. auto. }
        destruct (String.eqb text (_partial_text self0)) eqn:Esame;
          cbn [negb].
        { apply (Hnext _ [time_sleep 3; stt_transcribe audio_data]);
            [cbn; now rewrite Hcalls0, <- app_assoc
            | cbn; lia | cbn; lia | constructor |].
          intros ->. cbn. auto. }
        apply String.eqb_neq in Eempty, Esame.
        apply (Hnext _ [time_sleep 3; stt_transcribe audio_data;
                        indicator_update_text text]);
          [cbn; now rewrite Hcalls0, <- !app_assoc
          | cbn; lia | cbn; lia | repeat constructor; exact Eempty |].
        intros Hself. rewrite Hself in Esame. cbn. auto.
      * apply (Hnext _ [time_sleep 3; stt_transcribe audio_data]);
          [cbn; now rewrite Hcalls0, <- app_assoc
          | cbn; lia | cbn; lia | constructor |].
        intros ->. cbn. auto.
      * apply (Hstop _ _ [time_sleep 3; stt_transcribe audio_data]);
          [cbn; now rewrite Hcalls0, <- app_assoc | reflexivity
          | cbn; lia | cbn; lia | reflexivity].
    + apply (Hnext _ [time_sleep 3]);
        [cbn; now rewrite Hcalls0 | cbn; lia | cbn; lia | constructor |].
      intros ->. cbn. auto.
    + apply (Hstop _ _ [time_sleep 3]);
        [cbn; now rewrite Hcalls0 | reflexivity | cbn; lia | cbn; lia
        | reflexivity].
Qed.

Lemma previews_are_fresh_witness :
  let r := fun text =>
             mk_round true true (Returns (Some [])) (fun _ => Returns text)
                      None in
  exists new,
    calls (snd (periodic_stt [r "a"; r "a"; r "ab"] (mk "" [])))
    = calls (mk "" []) ++ new
    /\ fresh "" (previews new)
    /\ _partial_text (snd (periodic_stt [r "a"; r "a"; r "ab"] (mk "" [])))
       = last (previews new) "".
Proof.
  cbn zeta.
  destruct (previews_are_fresh
              [mk_round true true (Returns (Some [])) (fun _ => Returns "a")
                        None;
               mk_round true true (Returns (Some [])) (fun _ => Returns "a")
                        None;
               mk_round true true (Returns (Some [])) (fun _ => Returns "ab")
                        None]
              (mk "" [])) as (new & Hnew & _ & _ & _ & Hfresh).
  exists new. split; [exact Hnew|].
  apply Hfresh. repeat constructor.
Defined.

(** A recording that starts during the sleep of the thread resets
    [_partial_text], and the thread gives the text it gave last once
    more. *)
Example restart_repeats_preview :
  let r := fun w =>
             mk_round true true (Returns (Some [])) (fun _ => Returns "a") w in
  previews (calls (snd (periodic_stt [r None; r (Some "")] (mk "" []))))
  = ["a"; "a"].
Proof. reflexivity. Qed.

(** X19: while the recording goes on, an [Exception] of the transcription
    does not end the preview thread: after rounds in which nothing worse
    happens it is still in its loop, and has slept once in every round. *)
Theorem preview_outlives_exceptions (rounds : list round) : forall self,
  Forall goes_on rounds ->
  fst (periodic_stt rounds self) = in_loop
  /\ sleeps (calls (snd (periodic_stt rounds self)))
     = (sleeps (calls self) + length rounds)%nat.
Proof.
  induction rounds as [|r rounds IH]; intros self Hall;
    cbn [periodic_stt length fst snd]; [split; [reflexivity | lia]|].
  inversion Hall as [|? ? (Htest & Hafter & (audio & Haudio) & Hbase) Hrest];
    subst.
  set (self0 := overwritten (written r) self).
  assert (Hcalls0 : calls self0 = calls self)
    by (unfold self0, overwritten; now destruct (written r)).
  rewrite Htest, Hafter, Haudio. cbn [negb].
  assert (Hnext : forall self1,
            sleeps (calls self1) = S (sleeps (calls self)) ->
            fst (periodic_stt rounds self1) = in_loop
            /\ sleeps (calls (snd (periodic_stt rounds self1)))
               = (sleeps (calls self) + S (length rounds))%nat).
  { intros self1 Hs. destruct (IH self1 Hrest) as [H1 H2].
    split; [exact H1 | rewrite H2, Hs; lia]. }
  destruct audio as [audio_data|].
  - destruct (transcribe r audio_data) as [text|[message|message]] eqn:Et.
    + destruct (negb (String.eqb text "")
                && negb (String.eqb text
                           (_partial_text
                              (with_calls (with_calls self0 [time_sleep 3])
                                 [stt_transcribe audio_data]))));
        apply Hnext; cbn [with_calls calls]; rewrite !sleeps_app, Hcalls0;
        cbn; lia.
    + apply Hnext; cbn [with_calls calls]; rewrite !sleeps_app, Hcalls0;
        cbn; lia.
    + now contradiction (Hbase audio_data message).
  - apply Hnext; cbn [with_calls calls]; rewrite !sleeps_app, Hcalls0;
      cbn; lia.
Qed.

Lemma preview_outlives_exceptions_witness :
  let r := mk_round true true (Returns (Some []))
             (fun _ => Raises (Exception "network")) None in
  fst (periodic_stt [r; r] (mk "" [])) = in_loop
  /\ sleeps (calls (snd (periodic_stt [r; r] (mk "" []))))
     = (sleeps (calls (mk "" [])) + length [r; r])%nat.
Proof.
  cbn zeta.
  apply (preview_outlives_exceptions
           [mk_round true true (Returns (Some []))
              (fun _ => Raises (Exception "network")) None;
            mk_round true true (Returns (Some []))
              (fun _ => Raises (Exception "network")) None]
           (mk "" [])).
  repeat constructor; cbn; eauto; discriminate.
Defined.

End RealtimeSTTProofs.

(* ================================================================== *)
(** * Properties of utils/settings.py *)
(* ================================================================== *)

Module SettingsProofs.

Import Settings.
Local Open Scope string_scope.
Local Open Scope list_scope.

(** ** Dicts *)

Lemma lookup_setitem_same key value d :
  lookup key (setitem key value d) = Some value.
Proof.
  induction d as [|[k v] d IH]; cbn [setitem lookup].
  - now rewrite String.eqb_refl.
  - destruct (String.eqb k key) eqn:E; cbn [lookup]; now rewrite E.
Qed.

Lemma lookup_setitem_other key key' value d :
  key' <> key -> lookup key (setitem key' value d) = lookup key d.
Proof.
  intros Hne. induction d as [|[k v] d IH]; cbn [setitem lookup].
  - apply String.eqb_neq in Hne. now rewrite Hne.
  - destruct (String.eqb k key') eqn:E; cbn [lookup].
    + apply String.eqb_eq in E; subst k.
      apply String.eqb_neq in Hne. now rewrite Hne.
    + now rewrite IH.
Qed.

Lemma lookup_absent key d : ~ In key (map fst d) -> lookup key d = None.
Proof.
  induction d as [|[k v] d IH]; cbn [map fst In lookup]; [reflexivity|].
  intros H. destruct (String.eqb k key) eqn:E.
  - apply String.eqb_eq in E. tauto.
  - apply IH. tauto.
Qed.

Lemma lookup_present key value d :
  NoDup (map fst d) -> In (key, value) d -> lookup key d = Some value.
Proof.
  induction d as [|[k v] d IH]; cbn [map fst In lookup]; [tauto|].
  intros Hnd [[= -> ->]|Hin]; [now rewrite String.eqb_refl|].
  inversion Hnd as [|? ? Hk Hrest]; subst.
  destruct (String.eqb k key) eqn:E; [|now apply IH].
  apply String.eqb_eq in E; subst k.
  contradiction Hk. now apply (in_map fst d (key, value)).
Qed.

Lemma setitem_same key value d :
  lookup key d = Some value -> setitem key value d = d.
Proof.
  induction d as [|[k v] d IH]; cbn [lookup setitem]; [discriminate|].
  destruct (String.eqb k key); [now intros [= ->] | intros H; now rewrite IH].
Qed.

Lemma setitem_keys key value d :
  map fst (setitem key value d)
  = match lookup key d with
    | Some _ => map fst d
    | None => map fst d ++ [key]
    end.
Proof.
  induction d as [|[k v] d IH]; cbn [lookup setitem map fst app];
    [reflexivity|].
  destruct (String.eqb k key); cbn [map fst]; [reflexivity|].
  rewrite IH. now destruct (lookup key d).
Qed.

Lemma lookup_none key d : lookup key d = None -> ~ In key (map fst d).
Proof.
  induction d as [|[k v] d IH]; cbn [lookup map fst In]; [tauto|].
  destruct (String.eqb k key) eqn:E; [discriminate|].
  apply String.eqb_neq in E. intros H [H'|H']; [contradiction | now apply IH].
Qed.

Lemma setitem_NoDup key value d :
  NoDup (map fst d) -> NoDup (map fst (setitem key value d)).
Proof.
  intros H. rewrite setitem_keys.
  destruct (lookup key d) eqn:E; [assumption|].
  apply NoDup_app; [assumption | repeat constructor; intros [] |].
  intros k Hk [Hkey|[]]. subst k. now apply (lookup_none key d).
Qed.

(** ** The loop of [_deep_merge] *)

Lemma deep_merge_cons base key value override :
  _deep_merge base ((key, value) :: override)
  = _deep_merge
      (match lookup key base, value with
       | Some (JDict b), JDict v => setitem key (JDict (_deep_merge b v)) base
       | _, _ => setitem key value base
       end)
      override.
Proof.
  unfold _deep_merge. cbn [merge_into].
  destruct (lookup key base) as [[]|]; destruct value; reflexivity.
Qed.

Lemma lookup_step key base value :
  lookup key
    (match lookup key base, value with
     | Some (JDict b), JDict v => setitem key (JDict (_deep_merge b v)) base
     | _, _ => setitem key value base
     end)
  = merged (lookup key base) (Some value).
Proof.
  unfold merged.
  destruct (lookup key base) as [[]|], value; apply lookup_setitem_same.
Qed.

Lemma lookup_step_other key key' base value :
  key' <> key ->
  lookup key
    (match lookup key' base, value with
     | Some (JDict b), JDict v => setitem key' (JDict (_deep_merge b v)) base
     | _, _ => setitem key' value base
     end)
  = lookup key base.
Proof.
  intros H.
  destruct (lookup key' base) as [[]|], value;
    now apply lookup_setitem_other.
Qed.

Lemma deep_merge_lookup override : forall base key,
  NoDup (map fst override) ->
  lookup key (_deep_merge base override)
  = merged (lookup key base) (lookup key override).
Proof.
  induction override as [|[k v] override IH]; intros base key Hnd;
    [reflexivity|].
  cbn [map fst] in Hnd. inversion Hnd as [|? ? Hk Hrest]; subst.
  rewrite deep_merge_cons, IH by assumption. cbn [lookup].
  destruct (String.eqb k key) eqn:E.
  - apply String.eqb_eq in E; subst k.
    rewrite (lookup_absent key override Hk). cbn [merged].
    apply lookup_step.
  - apply String.eqb_neq in E. now rewrite lookup_step_other.
Qed.

(** X20: a key has after [_deep_merge] the value it has in [override], when
    it has one there, and else the value it has in [base]; where both
    values are dicts, the result is the merge of the two.  The keys of
    [override] are distinct, as those of a dict are. *)
Theorem deep_merge_key_by_key (base override : dict) (key : string) :
  NoDup (map fst override) ->
  lookup key (_deep_merge base override)
  = match lookup key override with
    | None => lookup key base
    | Some value =>
        match lookup key base, value with
        | Some (JDict b), JDict v => Some (JDict (_deep_merge b v))
        | _, _ => Some value
        end
    end.
Proof. intros H. now rewrite deep_merge_lookup. Qed.

Lemma deep_merge_key_by_key_witness :
  lookup "hotkeys"
    (_deep_merge
       [("hotkeys", JDict [("push_to_talk", JStr "right alt");
                           ("hands_free", JStr "f2")]);
        ("auto_start", JBool false)]
       [("hotkeys", JDict [("hands_free", JStr "f4")])])
  = match lookup "hotkeys" [("hotkeys", JDict [("hands_free", JStr "f4")])]
    with
    | None =>
        lookup "hotkeys"
          [("hotkeys", JDict [("push_to_talk", JStr "right alt");
                              ("hands_free", JStr "f2")]);
           ("auto_start", JBool false)]
    | Some value =>
        match
          lookup "hotkeys"
            [("hotkeys", JDict [("push_to_talk", JStr "right alt");
                                ("hands_free", JStr "f2")]);
             ("auto_start", JBool false)],
          value
        with
        | Some (JDict b), JDict v => Some (JDict (_deep_merge b v))
        | _, _ => Some value
        end
    end.
Proof.
  apply (deep_merge_key_by_key
           [("hotkeys", JDict [("push_to_talk", JStr "right alt");
                               ("hands_free", JStr "f2")]);
            ("auto_start", JBool false)]
           [("hotkeys", JDict [("hands_free", JStr "f4")])]
           "hotkeys").
  repeat constructor. intros [].
Defined.

(** ** A dict merged with itself *)

Lemma distinct_keys_dict items :
  distinct_keys (JDict items)
  <-> NoDup (map fst items)
      /\ Forall (fun item => distinct_keys (snd item)) items.
Proof.
  cbn [distinct_keys].
  assert (H : (fix values (items : list (string * json)) : Prop :=
                 match items with
                 | [] => True
                 | (_, value) :: items' => distinct_keys value /\ values items'
                 end) items
              <-> Forall (fun item => distinct_keys (snd item)) items).
  { induction items as [|[k v] items IH].
    - split; [constructor | trivial].
    - split.
      + intros [Hv Hrest]. constructor; [exact Hv | now apply IH].
      + intros H. inversion H; subst. split; [assumption | now apply IH]. }
  tauto.
Qed.

Lemma deep_merge_agrees override : forall base,
  Forall (fun item =>
            distinct_keys (snd item) ->
            forall d, snd item = JDict d -> _deep_merge d d = d) override ->
  Forall (fun item => distinct_keys (snd item)) override ->
  (forall key value, In (key, value) override ->
                     lookup key base = Some value) ->
  _deep_merge base override = base.
Proof.
  induction override as [|[k v] override IH]; intros base Hsame Hdist Hin;
    [reflexivity|].
  inversion Hsame as [|? ? Hv Hsame']; subst.
  inversion Hdist as [|? ? Hd Hdist']; subst.
  cbn [snd] in Hv, Hd.
  rewrite deep_merge_cons, (Hin k v (or_introl eq_refl)).
  assert (Hstep :
    match v with
    | JDict d => setitem k (JDict (_deep_merge d d)) base
    | _ => setitem k v base
    end = base).
  { destruct v as [| | | | | |d];
      try (apply setitem_same, Hin; now left).
    rewrite (Hv Hd d eq_refl). apply setitem_same, Hin. now left. }
  assert (Hmatch :
    match Some v, v with
    | Some (JDict b), JDict v' => setitem k (JDict (_deep_merge b v')) base
    | _, _ => setitem k v base
    end = base).
  { destruct v; exact Hstep. }
  rewrite Hmatch. apply IH; try assumption.
  intros key value H. apply Hin. now right.
Qed.

Lemma deep_merge_same (j : json) :
  distinct_keys j -> forall d, j = JDict d -> _deep_merge d d = d.
Proof.
  induction j as [| | | | | |items IH] using json_values_ind;
    intros Hd d; try discriminate.
  intros [= <-]. apply distinct_keys_dict in Hd as [Hnd Hvalues].
  apply deep_merge_agrees; try assumption.
  intros key value. now apply lookup_present.
Qed.

(** X21: a dict merged with itself is left as it is, at every depth: to
    read back the configuration that was saved changes nothing in it.  The
    keys of each dict are distinct, as those of a dict are. *)
Theorem deep_merge_with_itself (d : dict) :
  distinct_keys (JDict d) -> _deep_merge d d = d.
Proof. intros H. exact (deep_merge_same (JDict d) H d eq_refl). Qed.

Lemma deep_merge_with_itself_witness :
  let d := [("hotkeys", JDict [("push_to_talk", JStr "right alt");
                               ("hands_free", JStr "f2")]);
            ("suppress_hotkeys", JBool true);
            ("llm", JDict [("provider", JStr "gemini")])] in
  _deep_merge d d = d.
Proof.
  apply (deep_merge_with_itself
           [("hotkeys", JDict [("push_to_talk", JStr "right alt");
                               ("hands_free", JStr "f2")]);
            ("suppress_hotkeys", JBool true);
            ("llm", JDict [("provider", JStr "gemini")])]).
  cbn. repeat split; repeat constructor; cbn; intuition discriminate.
Defined.

(** ** What [_load] gives *)

Lemma setitem_keeps key key' value d :
  lookup key d <> None -> lookup key (setitem key' value d) <> None.
Proof.
  intros H. destruct (String.eqb key' key) eqn:E.
  - apply String.eqb_eq in E; subst key'.
    now rewrite lookup_setitem_same.
  - apply String.eqb_neq in E. now rewrite lookup_setitem_other.
Qed.

Lemma deep_merge_keeps override : forall base key,
  lookup key base <> None -> lookup key (_deep_merge base override) <> None.
Proof.
  induction override as [|[k v] override IH]; intros base key H;
    [exact H|].
  rewrite deep_merge_cons. apply IH.
  destruct (lookup k base) as [[]|], v; now apply setitem_keeps.
Qed.

Lemma deep_merge_NoDup override : forall base,
  NoDup (map fst base) -> NoDup (map fst (_deep_merge base override)).
Proof.
  induction override as [|[k v] override IH]; intros base H; [exact H|].
  rewrite deep_merge_cons. apply IH.
  destruct (lookup k base) as [[]|], v; now apply setitem_NoDup.
Qed.

(** X22: whatever the file holds, a configuration that [_load] returns has
    every key of the defaults, and its keys are distinct when those of the
    defaults are; the file is written only when there was none, and then
    with the defaults. *)
Theorem load_has_every_default_key (defaults : dict) (f : file)
    (config : dict) :
  fst (_load defaults f) = Returns config ->
  (forall key, lookup key defaults <> None -> lookup key config <> None)
  /\ (NoDup (map fst defaults) -> NoDup (map fst config))
  /\ (snd (_load defaults f) = [] \/
      f = absent /\ snd (_load defaults f) = [defaults]).
Proof.
  destruct f as [|[[| | | | | |saved]| | |message]]; cbn [_load fst snd];
    try discriminate; intros [= <-];
    repeat split; auto using deep_merge_keeps, deep_merge_NoDup.
Qed.

Lemma load_has_every_default_key_witness :
  let defaults := [("auto_start", JBool false); ("prompt", JStr "{raw_text}")] in
  let config := [("auto_start", JBool true); ("prompt", JStr "{raw_text}")] in
  (forall key, lookup key defaults <> None -> lookup key config <> None)
  /\ (NoDup (map fst defaults) -> NoDup (map fst config))
  /\ (snd (_load defaults
             (present (loaded (JDict [("auto_start", JBool true)])))) = []
      \/ present (loaded (JDict [("auto_start", JBool true)])) = absent
         /\ snd (_load defaults
                   (present (loaded (JDict [("auto_start", JBool true)]))))
            = [defaults]).
Proof.
  apply (load_has_every_default_key
           [("auto_start", JBool false); ("prompt", JStr "{raw_text}")]
           (present (loaded (JDict [("auto_start", JBool true)])))
           [("auto_start", JBool true); ("prompt", JStr "{raw_text}")]).
  reflexivity.
Defined.

End SettingsProofs.
